(** * Verification of the PPF → encrypted-CPI converter (src/converter.js)

    Shallow embedding of the chunk codec, the DES stack, the vendor padding,
    the device-lock key derivation and the container assembly, followed by
    the theorems that settle the specification's claims.

    Conventions of the embedding:
    - a JavaScript number holding an integer is a [Z]; the 32-bit operators
      are written out with their ToInt32 / ToUint32 wrap-around ([JS] below);
    - a [Uint8Array] is a [list Z] whose elements are bytes; every store into
      one goes through [ToUint8];
    - an out-of-range read [a[i]] is [undefined] in JavaScript; all such
      reads of the source feed a bitwise operator, which coerces [undefined]
      to 0, so [get] returns 0 there;
    - a string is the list of its UTF-16 code units;
    - [throw] is the [inl] of a sum; the random source is threaded as state. *)

From Stdlib Require Import String Ascii.
From Stdlib Require Import ZArith List Lia Bool.
Import ListNotations.
Local Open Scope Z_scope.

(** ** JavaScript 32-bit integer operators *)

Module JS.

Definition ToUint32 (z : Z) : Z := z mod 2 ^ 32.
Definition ToInt32 (z : Z) : Z := (z + 2 ^ 31) mod 2 ^ 32 - 2 ^ 31.
Definition ToUint8 (z : Z) : Z := z mod 256.

(** [a ^ b], [a & b], [a | b], [~a]: operands through ToInt32, the result a
    signed 32-bit integer. *)
Definition xor (a b : Z) : Z := ToInt32 (Z.lxor (ToInt32 a) (ToInt32 b)).
Definition and (a b : Z) : Z := ToInt32 (Z.land (ToInt32 a) (ToInt32 b)).
Definition or (a b : Z) : Z := ToInt32 (Z.lor (ToInt32 a) (ToInt32 b)).
Definition not (a : Z) : Z := ToInt32 (Z.lnot (ToInt32 a)).

(** [a << n] and [a >>> n]: the count is taken modulo 32. *)
Definition shl (a n : Z) : Z := ToInt32 (Z.shiftl (ToInt32 a) (Z.land n 31)).
Definition shru (a n : Z) : Z := Z.shiftr (ToUint32 a) (Z.land n 31).

(** [a[i]] on a typed array or array of numbers, in a bitwise context. *)
Definition get (a : list Z) (i : Z) : Z :=
  if i <? 0 then 0 else nth (Z.to_nat i) a 0.

(** [a[i]] where the source tells [undefined] apart. *)
Definition get_opt (a : list Z) (i : Z) : option Z :=
  if i <? 0 then None else nth_error a (Z.to_nat i).

(** [for (let i = lo; i < hi; i++) body], the loop state passed along. *)
Definition zrange (lo hi : Z) : list Z :=
  map (fun k => lo + Z.of_nat k) (seq 0 (Z.to_nat (hi - lo))).

Definition for_loop {S : Type} (lo hi : Z) (body : Z -> S -> S) (s : S) : S :=
  fold_left (fun st i => body i st) (zrange lo hi) s.

(** [a.length] *)
Definition len {A : Type} (a : list A) : Z := Z.of_nat (List.length a).

(** [new Uint8Array(n)] *)
Definition zeros (n : Z) : list Z := repeat 0 (Z.to_nat n).

(** [buf[i] = v] on a [Uint8Array]: the value is stored modulo 256, and a
    store outside the array is ignored. *)
Definition store (buf : list Z) (i v : Z) : list Z :=
  if (0 <=? i) && (i <? len buf)
  then firstn (Z.to_nat i) buf ++ ToUint8 v :: skipn (S (Z.to_nat i)) buf
  else buf.

(** [target.set(source, offset)] raises a RangeError unless the source fits;
    [set_fits] is that test and [set] the array after a successful call. *)
Definition set_fits (target source : list Z) (offset : Z) : bool :=
  len source + offset <=? len target.

Definition set (target source : list Z) (offset : Z) : list Z :=
  firstn (Z.to_nat offset) target ++ source
    ++ skipn (Z.to_nat offset + List.length source) target.

(** [buf.slice(start, end)]: negative indices count from the end, both are
    clamped to the array. *)
Definition slice (buf : list Z) (start end_ : Z) : list Z :=
  let k := if start <? 0 then Z.max (len buf + start) 0 else Z.min start (len buf) in
  let final := if end_ <? 0 then Z.max (len buf + end_) 0 else Z.min end_ (len buf) in
  firstn (Z.to_nat (final - k)) (skipn (Z.to_nat k) buf).

(** What a [throw] carries. *)
Inductive exn : Type :=
| RangeError
| Error (message : string).

Definition result (A : Type) : Type := (exn + A)%type.

Definition bind {A B : Type} (r : result A) (k : A -> result B) : result B :=
  match r with
  | inl e => inl e
  | inr a => k a
  end.

(** The random source [crypto.getRandomValues]: an unknown tape of values,
    read as bytes; a draw of [n] bytes consumes [n] cells. *)
Definition Rng : Type := nat -> Z.

Definition getRandomValues (n : nat) (rng : Rng) : list Z * Rng :=
  (map (fun k => ToUint8 (rng k)) (seq 0 n), fun k => rng (n + k)%nat).

End JS.

Declare Scope js_scope.
Delimit Scope js_scope with js.
Infix ".^" := JS.xor (at level 40, left associativity) : js_scope.
Infix ".&" := JS.and (at level 40, left associativity) : js_scope.
Infix ".|" := JS.or (at level 40, left associativity) : js_scope.
Infix "<<" := JS.shl (at level 40, left associativity) : js_scope.
Infix ">>>" := JS.shru (at level 40, left associativity) : js_scope.
Notation "a .[ i ]" := (JS.get a i) (at level 1, left associativity, format "a .[ i ]") : js_scope.
Notation "x <- r ;; k" := (JS.bind r (fun x => k))
  (at level 61, r at next level, right associativity) : js_scope.
Local Open Scope js_scope.

(** A byte array: every element in 0..255. *)
Definition byte (b : Z) : Prop := 0 <= b < 256.
Definition bytes (l : list Z) : Prop := Forall byte l.
Definition byteb (b : Z) : bool := (0 <=? b) && (b <? 256).
Definition bytesb (l : list Z) : bool := forallb byteb l.


(** ** Strings and the platform's text codecs

    A string is the list of its UTF-16 code units. [TextEncoder] and
    [TextDecoder] belong to the platform, not to the repository; they are
    modelled after the Encoding standard: [encode] replaces lone surrogates
    by U+FFFD and writes UTF-8; the [utf-8] decoder drops a leading byte
    order mark and replaces malformed sequences by U+FFFD; the [ascii] label
    names the windows-1252 decoder. *)

Module Text.

Definition jsstring : Type := list Z.

(** A string literal of the source (ASCII). *)
Definition lit (s : string) : jsstring :=
  map (fun c => Z.of_nat (nat_of_ascii c)) (list_ascii_of_string s).

Definition string_eqb (s t : jsstring) : bool :=
  if list_eq_dec Z.eq_dec s t then true else false.

Definition isHigh (c : Z) : bool := (0xD800 <=? c) && (c <=? 0xDBFF).
Definition isLow (c : Z) : bool := (0xDC00 <=? c) && (c <=? 0xDFFF).

(** Code units to scalar values; a surrogate without its partner becomes U+FFFD. *)
Fixpoint toScalars (s : jsstring) : list Z :=
  match s with
  | [] => []
  | c :: r =>
      if isHigh c then
        match r with
        | d :: r' =>
            if isLow d
            then (0x10000 + (c - 0xD800) * 0x400 + (d - 0xDC00)) :: toScalars r'
            else 0xFFFD :: toScalars r
        | [] => [0xFFFD]
        end
      else if isLow c then 0xFFFD :: toScalars r
      else c :: toScalars r
  end.

(** Scalar values to code units; a value above U+FFFF becomes a surrogate pair. *)
Definition ofScalar (cp : Z) : jsstring :=
  if cp <? 0x10000 then [cp]
  else [0xD800 + (cp - 0x10000) / 0x400; 0xDC00 + (cp - 0x10000) mod 0x400].

Definition ofScalars (cps : list Z) : jsstring := flat_map ofScalar cps.

(** UTF-8 bytes of one scalar value. *)
Definition utf8Bytes (cp : Z) : list Z :=
  if cp <? 0x80 then [cp]
  else if cp <? 0x800 then [0xC0 + cp / 64; 0x80 + cp mod 64]
  else if cp <? 0x10000 then
    [0xE0 + cp / 4096; 0x80 + (cp / 64) mod 64; 0x80 + cp mod 64]
  else
    [0xF0 + cp / 262144; 0x80 + (cp / 4096) mod 64; 0x80 + (cp / 64) mod 64;
     0x80 + cp mod 64].

(** [textEncoder.encode(s)] *)
Definition encode (s : jsstring) : list Z := flat_map utf8Bytes (toScalars s).

(** The decoder's state while inside a sequence: the code point so far, the
    continuation bytes still needed and the bounds of the next byte. *)
Record pending : Type :=
  { p_cp : Z; p_needed : Z; p_lower : Z; p_upper : Z }.

(** A byte met outside a sequence: a lead byte opens one. *)
Definition lead (b : Z) : option pending :=
  if (0xC2 <=? b) && (b <=? 0xDF) then
    Some {| p_cp := b mod 32; p_needed := 1; p_lower := 0x80; p_upper := 0xBF |}
  else if (0xE0 <=? b) && (b <=? 0xEF) then
    Some {| p_cp := b mod 16; p_needed := 2;
            p_lower := if b =? 0xE0 then 0xA0 else 0x80;
            p_upper := if b =? 0xED then 0x9F else 0xBF |}
  else if (0xF0 <=? b) && (b <=? 0xF4) then
    Some {| p_cp := b mod 8; p_needed := 3;
            p_lower := if b =? 0xF0 then 0x90 else 0x80;
            p_upper := if b =? 0xF4 then 0x8F else 0xBF |}
  else None.

(** The UTF-8 decoder with replacement, from state [st] ([None]: between
    sequences). A byte that breaks a sequence yields U+FFFD and is then read
    again as the first byte of the next one. *)
Fixpoint utf8Run (st : option pending) (bs : list Z) : list Z :=
  match bs with
  | [] => match st with None => [] | Some _ => [0xFFFD] end
  | b :: r =>
      let first :=
        if (0 <=? b) && (b <=? 0x7F) then b :: utf8Run None r
        else match lead b with
             | Some p => utf8Run (Some p) r
             | None => 0xFFFD :: utf8Run None r
             end in
      match st with
      | None => first
      | Some p =>
          if (p_lower p <=? b) && (b <=? p_upper p) then
            let cp := p_cp p * 64 + b mod 64 in
            if p_needed p =? 1 then cp :: utf8Run None r
            else utf8Run (Some {| p_cp := cp; p_needed := p_needed p - 1;
                                  p_lower := 0x80; p_upper := 0xBF |}) r
          else 0xFFFD :: first
      end
  end.

(** A leading byte order mark EF BB BF is dropped. *)
Definition stripBOM (bs : list Z) : list Z :=
  match bs with
  | a :: b :: c :: r => if (a =? 0xEF) && (b =? 0xBB) && (c =? 0xBF) then r else bs
  | _ => bs
  end.

(** [utf8Decoder.decode(bytes)] *)
Definition utf8Decode (bs : list Z) : jsstring :=
  ofScalars (utf8Run None (stripBOM bs)).

(** The windows-1252 index for the bytes 0x80..0x9F. *)
Definition windows1252 : list Z :=
  [ 0x20AC; 0x0081; 0x201A; 0x0192; 0x201E; 0x2026; 0x2020; 0x2021;
    0x02C6; 0x2030; 0x0160; 0x2039; 0x0152; 0x008D; 0x017D; 0x008F;
    0x0090; 0x2018; 0x2019; 0x201C; 0x201D; 0x2022; 0x2013; 0x2014;
    0x02DC; 0x2122; 0x0161; 0x203A; 0x0153; 0x009D; 0x017E; 0x0178 ].

(** [textDecoder.decode(bytes)], the decoder made with the label [ascii]. *)
Definition asciiDecode (bs : list Z) : jsstring :=
  map (fun b => if (0x80 <=? b) && (b <=? 0x9F) then nth (Z.to_nat (b - 0x80)) windows1252 0
                else b) bs.

(** [s.replace(/\x00/g, '')] *)
Definition stripNul (s : jsstring) : jsstring :=
  filter (fun c => negb (c =? 0)) s.

End Text.

(** ** DES core (32-bit integer based, pre-computed SP-boxes) *)

Module DES.

Definition SP1 : list Z :=
  [
    0x00808200; 0x00000000; 0x00008000; 0x00808202; 0x00808002; 0x00008202; 0x00000002; 0x00008000;
    0x00000200; 0x00808200; 0x00808202; 0x00000200; 0x00800202; 0x00808002; 0x00800000; 0x00000002;
    0x00000202; 0x00800200; 0x00800200; 0x00008200; 0x00008200; 0x00808000; 0x00808000; 0x00800202;
    0x00008002; 0x00800002; 0x00800002; 0x00008002; 0x00000000; 0x00000202; 0x00008202; 0x00800000;
    0x00008000; 0x00808202; 0x00000002; 0x00808000; 0x00808200; 0x00800000; 0x00800000; 0x00000200;
    0x00808002; 0x00008000; 0x00008200; 0x00800002; 0x00000200; 0x00000002; 0x00800202; 0x00008202;
    0x00808202; 0x00008002; 0x00808000; 0x00800202; 0x00800002; 0x00000202; 0x00008202; 0x00808200;
    0x00000202; 0x00800200; 0x00800200; 0x00000000; 0x00008002; 0x00008200; 0x00000000; 0x00808002
  ].

Definition SP2 : list Z :=
  [
    0x40084010; 0x40004000; 0x00004000; 0x00084010; 0x00080000; 0x00000010; 0x40080010; 0x40004010;
    0x40000010; 0x40084010; 0x40084000; 0x40000000; 0x40004000; 0x00080000; 0x00000010; 0x40080010;
    0x00084000; 0x00080010; 0x40004010; 0x00000000; 0x40000000; 0x00004000; 0x00084010; 0x40080000;
    0x00080010; 0x40000010; 0x00000000; 0x00084000; 0x00004010; 0x40084000; 0x40080000; 0x00004010;
    0x00000000; 0x00084010; 0x40080010; 0x00080000; 0x40004010; 0x40080000; 0x40084000; 0x00004000;
    0x40080000; 0x40004000; 0x00000010; 0x40084010; 0x00084010; 0x00000010; 0x00004000; 0x40000000;
    0x00004010; 0x40084000; 0x00080000; 0x40000010; 0x00080010; 0x40004010; 0x40000010; 0x00080010;
    0x00084000; 0x00000000; 0x40004000; 0x00004010; 0x40000000; 0x40080010; 0x40084010; 0x00084000
  ].

Definition SP3 : list Z :=
  [
    0x00000104; 0x04010100; 0x00000000; 0x04010004; 0x04000100; 0x00000000; 0x00010104; 0x04000100;
    0x00010004; 0x04000004; 0x04000004; 0x00010000; 0x04010104; 0x00010004; 0x04010000; 0x00000104;
    0x04000000; 0x00000004; 0x04010100; 0x00000100; 0x00010100; 0x04010000; 0x04010004; 0x00010104;
    0x04000104; 0x00010100; 0x00010000; 0x04000104; 0x00000004; 0x04010104; 0x00000100; 0x04000000;
    0x04010100; 0x04000000; 0x00010004; 0x00000104; 0x00010000; 0x04010100; 0x04000100; 0x00000000;
    0x00000100; 0x00010004; 0x04010104; 0x04000100; 0x04000004; 0x00000100; 0x00000000; 0x04010004;
    0x04000104; 0x00010000; 0x04000000; 0x04010104; 0x00000004; 0x00010104; 0x00010100; 0x04000004;
    0x04010000; 0x04000104; 0x00000104; 0x04010000; 0x00010104; 0x00000004; 0x04010004; 0x00010100
  ].

Definition SP4 : list Z :=
  [
    0x80401000; 0x80001040; 0x80001040; 0x00000040; 0x00401040; 0x80400040; 0x80400000; 0x80001000;
    0x00000000; 0x00401000; 0x00401000; 0x80401040; 0x80000040; 0x00000000; 0x00400040; 0x80400000;
    0x80000000; 0x00001000; 0x00400000; 0x80401000; 0x00000040; 0x00400000; 0x80001000; 0x00001040;
    0x80400040; 0x80000000; 0x00001040; 0x00400040; 0x00001000; 0x00401040; 0x80401040; 0x80000040;
    0x00400040; 0x80400000; 0x00401000; 0x80401040; 0x80000040; 0x00000000; 0x00000000; 0x00401000;
    0x00001040; 0x00400040; 0x80400040; 0x80000000; 0x80401000; 0x80001040; 0x80001040; 0x00000040;
    0x80401040; 0x80000040; 0x80000000; 0x00001000; 0x80400000; 0x80001000; 0x00401040; 0x80400040;
    0x80001000; 0x00001040; 0x00400000; 0x80401000; 0x00000040; 0x00400000; 0x00001000; 0x00401040
  ].

Definition SP5 : list Z :=
  [
    0x00000080; 0x01040080; 0x01040000; 0x21000080; 0x00040000; 0x00000080; 0x20000000; 0x01040000;
    0x20040080; 0x00040000; 0x01000080; 0x20040080; 0x21000080; 0x21040000; 0x00040080; 0x20000000;
    0x01000000; 0x20040000; 0x20040000; 0x00000000; 0x20000080; 0x21040080; 0x21040080; 0x01000080;
    0x21040000; 0x20000080; 0x00000000; 0x21000000; 0x01040080; 0x01000000; 0x21000000; 0x00040080;
    0x00040000; 0x21000080; 0x00000080; 0x01000000; 0x20000000; 0x01040000; 0x21000080; 0x20040080;
    0x01000080; 0x20000000; 0x21040000; 0x01040080; 0x20040080; 0x00000080; 0x01000000; 0x21040000;
    0x21040080; 0x00040080; 0x21000000; 0x21040080; 0x01040000; 0x00000000; 0x20040000; 0x21000000;
    0x00040080; 0x01000080; 0x20000080; 0x00040000; 0x00000000; 0x20040000; 0x01040080; 0x20000080
  ].

Definition SP6 : list Z :=
  [
    0x10000008; 0x10200000; 0x00002000; 0x10202008; 0x10200000; 0x00000008; 0x10202008; 0x00200000;
    0x10002000; 0x00202008; 0x00200000; 0x10000008; 0x00200008; 0x10002000; 0x10000000; 0x00002008;
    0x00000000; 0x00200008; 0x10002008; 0x00002000; 0x00202000; 0x10002008; 0x00000008; 0x10200008;
    0x10200008; 0x00000000; 0x00202008; 0x10202000; 0x00002008; 0x00202000; 0x10202000; 0x10000000;
    0x10002000; 0x00000008; 0x10200008; 0x00202000; 0x10202008; 0x00200000; 0x00002008; 0x10000008;
    0x00200000; 0x10002000; 0x10000000; 0x00002008; 0x10000008; 0x10202008; 0x00202000; 0x10200000;
    0x00202008; 0x10202000; 0x00000000; 0x10200008; 0x00000008; 0x00002000; 0x10200000; 0x00202008;
    0x00002000; 0x00200008; 0x10002008; 0x00000000; 0x10202000; 0x10000000; 0x00200008; 0x10002008
  ].

Definition SP7 : list Z :=
  [
    0x00100000; 0x02100001; 0x02000401; 0x00000000; 0x00000400; 0x02000401; 0x00100401; 0x02100400;
    0x02100401; 0x00100000; 0x00000000; 0x02000001; 0x00000001; 0x02000000; 0x02100001; 0x00000401;
    0x02000400; 0x00100401; 0x00100001; 0x02000400; 0x02000001; 0x02100000; 0x02100400; 0x00100001;
    0x02100000; 0x00000400; 0x00000401; 0x02100401; 0x00100400; 0x00000001; 0x02000000; 0x00100400;
    0x02000000; 0x00100400; 0x00100000; 0x02000401; 0x02000401; 0x02100001; 0x02100001; 0x00000001;
    0x00100001; 0x02000000; 0x02000400; 0x00100000; 0x02100400; 0x00000401; 0x00100401; 0x02100400;
    0x00000401; 0x02000001; 0x02100401; 0x02100000; 0x00100400; 0x00000000; 0x00000001; 0x02100401;
    0x00000000; 0x00100401; 0x02100000; 0x00000400; 0x02000001; 0x02000400; 0x00000400; 0x00100001
  ].

Definition SP8 : list Z :=
  [
    0x08000820; 0x00000800; 0x00020000; 0x08020820; 0x08000000; 0x08000820; 0x00000020; 0x08000000;
    0x00020020; 0x08020000; 0x08020820; 0x00020800; 0x08020800; 0x00020820; 0x00000800; 0x00000020;
    0x08020000; 0x08000020; 0x08000800; 0x00000820; 0x00020800; 0x00020020; 0x08020020; 0x08020800;
    0x00000820; 0x00000000; 0x00000000; 0x08020020; 0x08000020; 0x08000800; 0x00020820; 0x00020000;
    0x00020820; 0x00020000; 0x08020800; 0x00000800; 0x00000020; 0x08020020; 0x00000800; 0x00020820;
    0x08000800; 0x00000020; 0x08000020; 0x08020000; 0x08020020; 0x08000000; 0x00020000; 0x08000820;
    0x00000000; 0x08020820; 0x00020020; 0x08000020; 0x08020000; 0x08000800; 0x08000820; 0x00000000;
    0x08020820; 0x00020800; 0x00020800; 0x00000820; 0x00000820; 0x00020020; 0x08000000; 0x08020800
  ].

Definition ROTATIONS : list Z :=
  [
    1; 1; 2; 2; 2; 2; 2; 2; 1; 2; 2; 2; 2; 2; 2; 1
  ].

Definition PC1_C : list Z :=
  [
    57; 49; 41; 33; 25; 17; 9; 1; 58; 50; 42; 34; 26; 18;
    10; 2; 59; 51; 43; 35; 27; 19; 11; 3; 60; 52; 44; 36
  ].

Definition PC1_D : list Z :=
  [
    63; 55; 47; 39; 31; 23; 15; 7; 62; 54; 46; 38; 30; 22;
    14; 6; 61; 53; 45; 37; 29; 21; 13; 5; 28; 20; 12; 4
  ].

Definition PC2 : list Z :=
  [
    14; 17; 11; 24; 1; 5; 3; 28; 15; 6; 21; 10;
    23; 19; 12; 4; 26; 8; 16; 7; 27; 20; 13; 2;
    41; 52; 31; 37; 47; 55; 30; 40; 51; 45; 33; 48;
    44; 49; 39; 56; 34; 53; 46; 42; 50; 36; 29; 32
  ].

(** Convert 8-byte block to two 32-bit integers. *)
Definition bytesToLR (buf : list Z) (off : Z) : Z * Z :=
  let L := ((((buf.[off] << 24) .| (buf.[off + 1] << 16)) .| (buf.[off + 2] << 8))
              .| buf.[off + 3]) >>> 0 in
  let R := ((((buf.[off + 4] << 24) .| (buf.[off + 5] << 16)) .| (buf.[off + 6] << 8))
              .| buf.[off + 7]) >>> 0 in
  (L, R).

(** Convert two 32-bit integers to 8 bytes (of a fresh 8-byte buffer, offset 0). *)
Definition lrToBytes (L R : Z) : list Z :=
  map JS.ToUint8
    [ (L >>> 24) .& 0xff; (L >>> 16) .& 0xff; (L >>> 8) .& 0xff; L .& 0xff;
      (R >>> 24) .& 0xff; (R >>> 16) .& 0xff; (R >>> 8) .& 0xff; R .& 0xff ].

(** Initial permutation, five delta swaps. *)
Definition initialPerm (L R : Z) : Z * Z :=
  let t := ((L >>> 4) .^ R) .& 0x0F0F0F0F in let R := R .^ t in let L := L .^ (t << 4) in
  let t := ((L >>> 16) .^ R) .& 0x0000FFFF in let R := R .^ t in let L := L .^ (t << 16) in
  let t := ((R >>> 2) .^ L) .& 0x33333333 in let L := L .^ t in let R := R .^ (t << 2) in
  let t := ((R >>> 8) .^ L) .& 0x00FF00FF in let L := L .^ t in let R := R .^ (t << 8) in
  let t := ((L >>> 1) .^ R) .& 0x55555555 in let R := R .^ t in let L := L .^ (t << 1) in
  (L >>> 0, R >>> 0).

(** Final permutation, the same swaps in the opposite order. *)
Definition finalPerm (L R : Z) : Z * Z :=
  let t := ((L >>> 1) .^ R) .& 0x55555555 in let R := R .^ t in let L := L .^ (t << 1) in
  let t := ((R >>> 8) .^ L) .& 0x00FF00FF in let L := L .^ t in let R := R .^ (t << 8) in
  let t := ((R >>> 2) .^ L) .& 0x33333333 in let L := L .^ t in let R := R .^ (t << 2) in
  let t := ((L >>> 16) .^ R) .& 0x0000FFFF in let R := R .^ t in let L := L .^ (t << 16) in
  let t := ((L >>> 4) .^ R) .& 0x0F0F0F0F in let R := R .^ t in let L := L .^ (t << 4) in
  (L >>> 0, R >>> 0).

(** [getBit64] of [generateSubKeys]: bit [bit1based] (1 = most significant bit
    of byte 0) of the key [k]. *)
Definition getBit64 (k : list Z) (bit1based : Z) : Z :=
  let byteIdx := (bit1based - 1) >>> 3 in
  let bitIdx := 7 - ((bit1based - 1) .& 7) in
  (k.[byteIdx] >>> bitIdx) .& 1.

(** [getBitCD] of [generateSubKeys]: bit [bit1based] of the 56-bit value C:D. *)
Definition getBitCD (C D : Z) (bit1based : Z) : Z :=
  if bit1based <=? 28 then (C >>> (28 - bit1based)) .& 1
  else (D >>> (56 - bit1based)) .& 1.

(** PC-1: the two 28-bit halves. *)
Definition pc1 (k : list Z) : Z * Z :=
  JS.for_loop 0 28
    (fun i '(C, D) =>
       let C := (C .| (getBit64 k PC1_C.[i] << (27 - i))) >>> 0 in
       let D := (D .| (getBit64 k PC1_D.[i] << (27 - i))) >>> 0 in
       (C, D))
    (0, 0).

(** One round of the key schedule: rotate C and D, then PC-2. *)
Definition keyRound (round : Z) (st : Z * Z * list (Z * Z)) : Z * Z * list (Z * Z) :=
  let '(C, D, subKeys) := st in
  let r := ROTATIONS.[round] in
  let C := ((C << r) .| (C >>> (28 - r))) .& 0x0FFFFFFF in
  let D := ((D << r) .| (D >>> (28 - r))) .& 0x0FFFFFFF in
  let kHi := JS.for_loop 0 24
               (fun i kHi => (kHi .| (getBitCD C D PC2.[i] << (23 - i))) >>> 0) 0 in
  let kLo := JS.for_loop 0 24
               (fun i kLo => (kLo .| (getBitCD C D PC2.[24 + i] << (23 - i))) >>> 0) 0 in
  (C, D, subKeys ++ [(kHi, kLo)]).

(** Generate 16 subkeys from an 8-byte key; a subkey is the pair [kHi, kLo]. *)
Definition generateSubKeys (keyBytes : list Z) : list (Z * Z) :=
  let '(C, D) := pc1 keyBytes in
  let '(_, _, subKeys) := JS.for_loop 0 16 keyRound (C, D, []) in
  subKeys.

(** DES F function. The source's [e0] and [e1] are computed and never used;
    they are left out. *)
Definition desF (R : Z) (K : Z * Z) : Z :=
  let r := R in
  let g0 := (((r .& 1) << 5) .| ((r >>> 27) .& 0x1F)) .^ (fst K >>> 18) in
  let g1 := ((r >>> 23) .& 0x3F) .^ ((fst K >>> 12) .& 0x3F) in
  let g2 := ((r >>> 19) .& 0x3F) .^ ((fst K >>> 6) .& 0x3F) in
  let g3 := ((r >>> 15) .& 0x3F) .^ (fst K .& 0x3F) in
  let g4 := ((r >>> 11) .& 0x3F) .^ (snd K >>> 18) in
  let g5 := ((r >>> 7) .& 0x3F) .^ ((snd K >>> 12) .& 0x3F) in
  let g6 := ((r >>> 3) .& 0x3F) .^ ((snd K >>> 6) .& 0x3F) in
  let g7 := ((((r .& 0x1F) << 1) .| ((r >>> 31) .& 1)) .^ (snd K .& 0x3F)) .& 0x3F in
  (((((((SP1.[g0] .^ SP2.[g1]) .^ SP3.[g2]) .^ SP4.[g3]) .^ SP5.[g4]) .^ SP6.[g5])
      .^ SP7.[g6]) .^ SP8.[g7]) >>> 0.

(** [subKeys[i]]; the schedule always holds 16 subkeys ([generateSubKeys_length]). *)
Definition subKey (subKeys : list (Z * Z)) (i : Z) : Z * Z :=
  nth (Z.to_nat i) subKeys (0, 0).

(** One Feistel round with the subkey [K]. *)
Definition feistel (K : Z * Z) (LR : Z * Z) : Z * Z :=
  let '(L, R) := LR in
  let f := desF R K in
  let newR := (L .^ f) >>> 0 in
  (R, newR).

(** Encrypt a single 8-byte block. *)
Definition desBlock (block : list Z) (subKeys : list (Z * Z)) : list Z :=
  let '(L, R) := bytesToLR block 0 in
  let '(L, R) := initialPerm L R in
  let '(L, R) := JS.for_loop 0 16 (fun i => feistel (subKey subKeys i)) (L, R) in
  let '(L, R) := finalPerm R L in
  lrToBytes L R.

(** Decrypt a single 8-byte block: the loop runs [i = 15] down to [0]. *)
Definition desDecryptBlock (block : list Z) (subKeys : list (Z * Z)) : list Z :=
  let '(L, R) := bytesToLR block 0 in
  let '(L, R) := initialPerm L R in
  let '(L, R) := fold_left (fun st i => feistel (subKey subKeys i) st)
                   (rev (JS.zrange 0 16)) (L, R) in
  let '(L, R) := finalPerm R L in
  lrToBytes L R.

(** Key bytes with the top bit replaced by an odd-parity bit. *)
Definition msbParity (keyBytes : list Z) : list Z :=
  map (fun k =>
         let b := k .& 0x7F in
         let t := b in
         let t := t .^ ((t << 4) .& 0xFF) in
         let t := t .^ ((t << 2) .& 0xFF) in
         let t := t .^ ((t << 1) .& 0xFF) in
         JS.ToUint8 (b .| (JS.not t .& 0x80)))
      keyBytes.

End DES.

(** ** CBC chaining and vendor padding *)

(** The loop shared by [encryptDES_CBC] and [tripleDesEncryptCBC]:
    [for (let i = 0; i < data.length; i += 8)], where [cipher] is what the
    loop body applies to the chained block; [n] counts the iterations left.
    A [set] that does not fit raises. *)
Fixpoint cbcLoop (cipher : list Z -> list Z) (n : nat) (data : list Z) (i : Z)
    (encrypted prevBlock : list Z) : JS.result (list Z) :=
  match n with
  | O => inr encrypted
  | S n' =>
      let block :=
        JS.for_loop 0 8
          (fun j block => JS.store block j (data.[i + j] .^ prevBlock.[j]))
          (JS.zeros 8) in
      let enc := cipher block in
      if JS.set_fits encrypted enc i then
        let encrypted := JS.set encrypted enc i in
        if JS.set_fits prevBlock enc 0 then
          cbcLoop cipher n' data (i + 8) encrypted (JS.set prevBlock enc 0)
        else inl JS.RangeError
      else inl JS.RangeError
  end.

(** Number of iterations of [for (i = 0; i < length; i += 8)]. *)
Definition blockCount (length : Z) : nat := Z.to_nat ((length + 7) / 8).

Definition encryptDES_CBC (data keyBytes iv : list Z) : JS.result (list Z) :=
  let key := DES.msbParity keyBytes in
  let subKeys := DES.generateSubKeys key in
  let encrypted := JS.zeros (JS.len data) in
  let prevBlock := iv in
  cbcLoop (fun block => DES.desBlock block subKeys)
    (blockCount (JS.len data)) data 0 encrypted prevBlock.

Definition addYamahaPadding (data : list Z) : list Z :=
  let remainder := Z.rem (JS.len data) 8 in
  let padLen := if remainder =? 0 then 8 else 8 - remainder in
  let padded := JS.zeros (JS.len data + padLen) in
  let padded := JS.set padded data 0 in
  JS.store padded (JS.len padded - 1) remainder.

(** 3DES-EDE in CBC mode: E_K3(D_K2(E_K1(block))), zero chaining block. *)
Definition tripleDesEncryptCBC (data key24 : list Z) : JS.result (list Z) :=
  let sk1 := DES.generateSubKeys (DES.msbParity (JS.slice key24 0 8)) in
  let sk2 := DES.generateSubKeys (DES.msbParity (JS.slice key24 8 16)) in
  let sk3 := DES.generateSubKeys (DES.msbParity (JS.slice key24 16 24)) in
  let encrypted := JS.zeros (JS.len data) in
  let prev := JS.zeros 8 in
  cbcLoop
    (fun block =>
       let step1 := DES.desBlock block sk1 in
       let step2 := DES.desDecryptBlock step1 sk2 in
       let step3 := DES.desBlock step2 sk3 in
       step3)
    (blockCount (JS.len data)) data 0 encrypted prev.

(** ** Constants *)

Definition DES_KEY : list Z :=
  [
    0x46; 0x6f; 0x61; 0x74; 0x66; 0x6b; 0x69; 0x6f
  ].

Definition DES_KEY_DUALSEAL : list Z :=
  [
    0x64; 0x75; 0x61; 0x6c; 0x73; 0x65; 0x61; 0x6c
  ].

Definition XOR_SEED : list Z :=
  [
    0x0f; 0x62; 0xbe; 0x39; 0xd1; 0x70; 0xc7; 0xf4;
    0x1a; 0x85; 0x2d; 0x5c; 0x96; 0xe8; 0x4b; 0xa3
  ].

Definition EXPANSION_TABLE : list Z :=
  [
    0x07; 0x0c; 0x0e; 0x0a; 0x0b; 0x0d; 0x00; 0x01;
    0x06; 0x02; 0x0f; 0x03; 0x09; 0x04; 0x08; 0x05;
    0x00; 0x0f; 0x02; 0x08; 0x06; 0x09; 0x01; 0x0a;
    0x0e; 0x0c; 0x0b; 0x03; 0x04; 0x05; 0x07; 0x0d;
    0x07; 0x05; 0x0c; 0x04; 0x0f; 0x0d; 0x01; 0x09;
    0x08; 0x0a; 0x00; 0x03; 0x0b; 0x06; 0x0e; 0x02
  ].

Definition CSEC_ENCRYPTED : list Z :=
  [
    0x5a; 0x51; 0x7c; 0x40; 0x5f; 0x44; 0x7c; 0x02;
    0x90; 0x3b; 0xcc; 0x5e; 0x1d; 0x69; 0xdc; 0xf8;
    0x52; 0x2f; 0xe8; 0x75; 0xd0; 0xed; 0x7f; 0x97;
    0xf3; 0xef; 0x1e; 0x23; 0x6e; 0x4f; 0x9d; 0x80;
    0x29; 0x87; 0x42; 0x89; 0xad; 0xdc; 0xc3; 0xc2;
    0x23; 0xff; 0xa3; 0x65; 0x55; 0xc2; 0x5d; 0xaf;
    0xf4; 0x93; 0x11; 0x96; 0xf1; 0x4d; 0xa7; 0xd9;
    0x12; 0xe6; 0x07; 0xee; 0x15; 0xc0; 0x45; 0x24;
    0x26; 0x58; 0x5c; 0x1f; 0xb4; 0x50; 0x56; 0xe7;
    0x54; 0xbc; 0xe9; 0x49; 0xf6; 0xda; 0xf0; 0x55
  ].

Definition DES_IV : list Z := JS.zeros 8.

(** ** Chunk reader *)

Definition KNOWN_TAGS : list Text.jsstring :=
  map Text.lit
    [ "XPFH"; "XPIH"; "XMDL"; "XPID";
      "EUID"; "ETIT"; "BLOB"; "EEXT"; "EICO"; "FBIN";
      "CSEC" ]%string.

(** [KNOWN_TAGS.has(id)] *)
Definition KNOWN_TAGS_has (id : Text.jsstring) : bool :=
  existsb (Text.string_eqb id) KNOWN_TAGS.

Definition readFourCC (buf : list Z) (offset : Z) : Text.jsstring :=
  Text.asciiDecode (JS.slice buf offset (offset + 4)).

Definition readUint32BE (buf : list Z) (offset : Z) : Z :=
  ((((buf.[offset] << 24) .| (buf.[offset + 1] << 16)) .| (buf.[offset + 2] << 8))
     .| buf.[offset + 3]) >>> 0.

Definition writeUint32BE (buf : list Z) (offset value : Z) : list Z :=
  let buf := JS.store buf offset ((value >>> 24) .& 0xff) in
  let buf := JS.store buf (offset + 1) ((value >>> 16) .& 0xff) in
  let buf := JS.store buf (offset + 2) ((value >>> 8) .& 0xff) in
  let buf := JS.store buf (offset + 3) (value .& 0xff) in
  buf.

Definition isKnownTag (buf : list Z) (pos : Z) : bool :=
  if pos + 4 >? JS.len buf then false
  else KNOWN_TAGS_has (readFourCC buf pos).

(** [while (pos < end) { if (isKnownTag(buf, pos)) return pos; pos++; }]
    with [n] the iterations left, [end - pos]. *)
Fixpoint skipLoop (n : nat) (buf : list Z) (pos : Z) : Z :=
  match n with
  | O => pos
  | S n' => if isKnownTag buf pos then pos else skipLoop n' buf (pos + 1)
  end.

Definition skipToNextTag (buf : list Z) (pos end_ : Z) : Z :=
  skipLoop (Z.to_nat (end_ - pos)) buf pos.

Module Chunk.
Record t : Type :=
  { id : Text.jsstring; size : Z; data : list Z; offset : Z }.
End Chunk.

(** The [while (pos + 8 <= end)] loop of [readChunks]; [None] when the fuel
    runs out before the loop ends. *)
Fixpoint readLoop (fuel : nat) (buf : list Z) (end_ pos : Z) (chunks : list Chunk.t)
    : option (list Chunk.t) :=
  match fuel with
  | O => None
  | S fuel' =>
      if pos + 8 <=? end_ then
        let pos := skipToNextTag buf pos end_ in
        if pos + 8 >? end_ then Some chunks
        else
          let id := readFourCC buf pos in
          if negb (KNOWN_TAGS_has id) then Some chunks
          else
            let size := readUint32BE buf (pos + 4) in
            let dataStart := pos + 8 in
            let dataEnd := Z.min (dataStart + size) end_ in
            readLoop fuel' buf end_ dataEnd
              (chunks ++ [ {| Chunk.id := id; Chunk.size := size;
                              Chunk.data := JS.slice buf dataStart dataEnd;
                              Chunk.offset := pos |} ])
      else Some chunks
  end.

(** Every iteration moves [pos] forward, so [end - startOffset] iterations
    (and one more test) are enough: [readChunks_returns]. *)
Definition readFuel (startOffset end_ : Z) : nat := S (Z.to_nat (end_ - startOffset)).

Definition readChunks (buf : list Z) (startOffset : Z) (endOffset : option Z)
    : option (list Chunk.t) :=
  let end_ := match endOffset with Some e => e | None => JS.len buf end in
  readLoop (readFuel startOffset end_) buf end_ startOffset [].

Definition readSubChunks (chunk : Chunk.t) : option (list Chunk.t) :=
  readChunks (Chunk.data chunk) 0 None.

Definition chunkText (chunk : Chunk.t) : Text.jsstring :=
  Text.stripNul (Text.utf8Decode (Chunk.data chunk)).

(** ** Chunk builder *)

Definition concatArrays (arrays : list (list Z)) : list Z := List.concat arrays.

Definition buildChunk (id : Text.jsstring) (data : list Z) : list Z :=
  let buf := JS.zeros (8 + JS.len data) in
  let buf := JS.set buf (JS.slice (Text.encode id) 0 4) 0 in
  let buf := writeUint32BE buf 4 (JS.len data) in
  let buf := JS.set buf data 8 in
  buf.

Definition buildContainerChunk (id : Text.jsstring) (subChunks : list (list Z)) : list Z :=
  buildChunk id (concatArrays subChunks).

(** [text + '\0'] appends the code unit 0. *)
Definition buildTextChunk (id text : Text.jsstring) : list Z :=
  buildChunk id (Text.encode (text ++ [0])).

(** ** Device lock crypto *)

(** A device identifier as [keyDerivation] accepts it: a string, or bytes. *)
Inductive DeviceId : Type :=
| IdString (s : Text.jsstring)
| IdBytes (b : list Z).

(** [null] is [None]. *)
Definition keyDerivation (inputString : DeviceId) : option (list Z) :=
  let src := match inputString with
             | IdString s => Text.encode s
             | IdBytes b => b
             end in
  let length := JS.len src in
  if length =? 0 then None
  else
    let length := if length >? 128 then 128 else length in
    let buf := JS.set (JS.zeros 128) (JS.slice src 0 length) 0 in
    let output := JS.zeros 16 in
    if length >=? 16 then
      Some (JS.for_loop 0 16
              (fun i output =>
                 let val := JS.for_loop 0 8
                              (fun chunk val => val .^ buf.[chunk * 16 + i]) 0 in
                 JS.store output i val)
              output)
    else
      let output := JS.for_loop 0 length
                      (fun i output => JS.store output i src.[i]) output in
      Some (JS.for_loop 0 (16 - length)
              (fun j output =>
                 JS.store output (length + j)
                   (XOR_SEED.[length + j] .^ src.[Z.rem j length]))
              output).

Definition keyExpansion (key16 : list Z) : list Z :=
  JS.for_loop 0 3
    (fun r output =>
       JS.for_loop 0 8
         (fun j output =>
            let idx1 := EXPANSION_TABLE.[2 * j + r * 16] in
            let idx2 := EXPANSION_TABLE.[2 * j + 1 + r * 16] in
            JS.store output (r * 8 + j) (key16.[idx1] .^ key16.[idx2]))
         output)
    (JS.zeros 24).

(** [second_data[j] = (keySlot[j] + firstData[15-j]) & 0xFF] *)
Definition secondDataOf (keySlot firstData : list Z) : list Z :=
  JS.for_loop 0 16
    (fun j secondData =>
       JS.store secondData j ((keySlot.[j] + firstData.[15 - j]) .& 0xFF))
    (JS.zeros 16).

(** The plaintext of the CSEC blob: ABCF(00 01) + ABEI(AIRI + AIVF). *)
Definition csecPlaintextOf (airi aivf : list Z) : list Z :=
  let abcf := buildChunk (Text.lit "ABCF") [0x00; 0x01] in
  let airiChunk := buildChunk (Text.lit "AIRI") airi in
  let aivfChunk := buildChunk (Text.lit "AIVF") aivf in
  let abei := buildChunk (Text.lit "ABEI") (concatArrays [airiChunk; aivfChunk]) in
  concatArrays [abcf; abei].

(** The result and the random source after the call. *)
Definition generateLockedCSEC (deviceFullId : DeviceId) (rng : JS.Rng)
    : JS.result (list Z) * JS.Rng :=
  match keyDerivation deviceFullId with
  | None => (inl (JS.Error "Empty device key"), rng)
  | Some keySlot =>
      let '(firstData, rng) := JS.getRandomValues 16 rng in
      let secondData := secondDataOf keySlot firstData in
      let firstDataPadded := addYamahaPadding firstData in
      (airi <- encryptDES_CBC firstDataPadded DES_KEY_DUALSEAL DES_IV ;;
       let key24 := keyExpansion keySlot in
       aivf <- tripleDesEncryptCBC secondData key24 ;;
       let csecPlaintext := csecPlaintextOf airi aivf in
       let csecPadded := addYamahaPadding csecPlaintext in
       encryptDES_CBC csecPadded DES_KEY DES_IV,
       rng)
  end.

(** ** Encrypted CPI builder *)

Module Blob.
Record t : Type :=
  { uid : Text.jsstring; title : Text.jsstring; extension : Text.jsstring;
    iconCode : option Text.jsstring; binaryData : list Z }.
End Blob.

Module Pack.
Record t : Type :=
  { uid : Text.jsstring; title : Text.jsstring; blobs : list Blob.t }.
End Pack.

(** Truthiness of an optional string ([null], [undefined] and [''] are falsy). *)
Definition truthyString (s : option Text.jsstring) : bool :=
  match s with
  | Some (_ :: _) => true
  | _ => false
  end.

(** Truthiness of the [deviceFullId] argument; a byte array is an object. *)
Definition truthyId (d : option DeviceId) : bool :=
  match d with
  | None => false
  | Some (IdString s) => truthyString (Some s)
  | Some (IdBytes _) => true
  end.

(** The chunks of one blob, step 3 of [buildEncryptedCPI]. *)
Definition blobChunk (blob : Blob.t) : list Z :=
  let blobParts := [] in
  let blobParts := blobParts ++ [buildTextChunk (Text.lit "EUID") (Blob.uid blob)] in
  let blobParts := blobParts ++ [buildTextChunk (Text.lit "ETIT") (Blob.title blob)] in
  let blobParts := blobParts ++ [buildTextChunk (Text.lit "EEXT") (Blob.extension blob)] in
  let blobParts :=
    if truthyString (Blob.iconCode blob) then
      match Blob.iconCode blob with
      | Some iconCode => blobParts ++ [buildTextChunk (Text.lit "EICO") iconCode]
      | None => blobParts
      end
    else blobParts in
  let blobParts := blobParts ++ [buildChunk (Text.lit "FBIN") (Blob.binaryData blob)] in
  buildContainerChunk (Text.lit "BLOB") blobParts.

(** [payloadRaw], the plaintext payload of step 3. *)
Definition payloadRaw (packData : Pack.t) : list Z :=
  let payloadParts := [] in
  let payloadParts := payloadParts ++ [buildTextChunk (Text.lit "EUID") (Pack.uid packData)] in
  let payloadParts := payloadParts ++ [buildTextChunk (Text.lit "ETIT") (Pack.title packData)] in
  let payloadParts :=
    fold_left (fun payloadParts blob => payloadParts ++ [blobChunk blob])
      (Pack.blobs packData) payloadParts in
  concatArrays payloadParts.

Definition buildEncryptedCPI (packData : Pack.t) (modelName : Text.jsstring)
    (packInstallId : Z) (deviceFullId : option DeviceId) (rng : JS.Rng)
    : JS.result (list Z) * JS.Rng :=
  (* 1. XPIH header (unencrypted) *)
  let xmdlChunk := buildTextChunk (Text.lit "XMDL") modelName in
  let xpidData := writeUint32BE (JS.zeros 4) 0 packInstallId in
  let xpidChunk := buildChunk (Text.lit "XPID") xpidData in
  let xpihChunk := buildContainerChunk (Text.lit "XPIH") [xmdlChunk; xpidChunk] in
  (* 2. CSEC chunk: device-locked if fullId provided, otherwise standard *)
  let '(csecData, rng) :=
    match deviceFullId with
    | Some id => if truthyId deviceFullId then generateLockedCSEC id rng
                 else (inr CSEC_ENCRYPTED, rng)
    | None => (inr CSEC_ENCRYPTED, rng)
    end in
  (csecData <- csecData ;;
   let csecChunk := buildChunk (Text.lit "CSEC") csecData in
   (* 3., 4. pad and encrypt the payload *)
   let payloadPadded := addYamahaPadding (payloadRaw packData) in
   payloadEncrypted <- encryptDES_CBC payloadPadded DES_KEY DES_IV ;;
   (* 5. XPIH + CSEC + encrypted payload *)
   inr (concatArrays [xpihChunk; csecChunk; payloadEncrypted]),
   rng).

(** ** Parsers *)

Module N27.
Record t : Type :=
  { modelName : Text.jsstring; serial : Text.jsstring; fullId : Text.jsstring }.
End N27.

(** [while (end < offset + maxLen && buf[end] !== 0) end++] with [n] the
    iterations left; a read past the buffer is [undefined], which differs
    from 0. *)
Fixpoint readStrLoop (n : nat) (buf : list Z) (end_ : Z) : Z :=
  match n with
  | O => end_
  | S n' =>
      match JS.get_opt buf end_ with
      | Some 0 => end_
      | _ => readStrLoop n' buf (end_ + 1)
      end
  end.

Definition readStr (buf : list Z) (offset maxLen : Z) : Text.jsstring :=
  let end_ := readStrLoop (Z.to_nat maxLen) buf offset in
  Text.asciiDecode (JS.slice buf offset end_).

Definition parseN27 (buf : list Z) : N27.t :=
  {| N27.modelName := readStr buf 0 64;
     N27.serial := readStr buf 64 24;
     N27.fullId := readStr buf 88 32 |}.

Definition isEmpty (s : Text.jsstring) : bool :=
  match s with [] => true | _ => false end.

(** The body of the inner loop of [parsePPFRaw], over the sub-chunks of a
    BLOB: one field of [entry] is assigned. *)
Definition blobStep (entry : Blob.t) (s : Chunk.t) : Blob.t :=
  if Text.string_eqb (Chunk.id s) (Text.lit "EUID") then
    {| Blob.uid := chunkText s; Blob.title := Blob.title entry;
       Blob.extension := Blob.extension entry; Blob.iconCode := Blob.iconCode entry;
       Blob.binaryData := Blob.binaryData entry |}
  else if Text.string_eqb (Chunk.id s) (Text.lit "ETIT") then
    {| Blob.uid := Blob.uid entry; Blob.title := chunkText s;
       Blob.extension := Blob.extension entry; Blob.iconCode := Blob.iconCode entry;
       Blob.binaryData := Blob.binaryData entry |}
  else if Text.string_eqb (Chunk.id s) (Text.lit "EEXT") then
    {| Blob.uid := Blob.uid entry; Blob.title := Blob.title entry;
       Blob.extension := chunkText s; Blob.iconCode := Blob.iconCode entry;
       Blob.binaryData := Blob.binaryData entry |}
  else if Text.string_eqb (Chunk.id s) (Text.lit "EICO") then
    {| Blob.uid := Blob.uid entry; Blob.title := Blob.title entry;
       Blob.extension := Blob.extension entry; Blob.iconCode := Some (chunkText s);
       Blob.binaryData := Blob.binaryData entry |}
  else if Text.string_eqb (Chunk.id s) (Text.lit "FBIN") then
    {| Blob.uid := Blob.uid entry; Blob.title := Blob.title entry;
       Blob.extension := Blob.extension entry; Blob.iconCode := Blob.iconCode entry;
       Blob.binaryData := Chunk.data s |}
  else entry.

(** The entry [parsePPFRaw] builds from the sub-chunks of a BLOB. *)
Definition blobEntry (sub : list Chunk.t) : Blob.t :=
  fold_left blobStep sub
    {| Blob.uid := []; Blob.title := []; Blob.extension := [];
       Blob.iconCode := None; Blob.binaryData := JS.zeros 0 |}.

(** The body of the outer loop of [parsePPFRaw]; the state is [uid], [title]
    and [blobs]. *)
Definition ppfStep (st : option (Text.jsstring * Text.jsstring * list Blob.t))
    (chunk : Chunk.t) : option (Text.jsstring * Text.jsstring * list Blob.t) :=
  match st with
  | None => None
  | Some (uid, title, blobs) =>
      if Text.string_eqb (Chunk.id chunk) (Text.lit "EUID") && isEmpty uid then
        Some (chunkText chunk, title, blobs)
      else if Text.string_eqb (Chunk.id chunk) (Text.lit "ETIT") && isEmpty title then
        Some (uid, chunkText chunk, blobs)
      else if Text.string_eqb (Chunk.id chunk) (Text.lit "BLOB") then
        match readSubChunks chunk with
        | Some sub => Some (uid, title, blobs ++ [blobEntry sub])
        | None => None
        end
      else Some (uid, title, blobs)
  end.

(** [None] only if a chunk loop ran out of fuel, which does not happen
    ([parsePPFRaw_returns]). *)
Definition parsePPFRaw (buf : list Z) : option Pack.t :=
  match readChunks buf 8 None with
  | None => None
  | Some chunks =>
      match fold_left ppfStep chunks (Some ([], [], [])) with
      | None => None
      | Some (uid, title, blobs) =>
          Some {| Pack.uid := uid; Pack.title := title; Pack.blobs := blobs |}
      end
  end.

(** * Notions used in the statements and proofs *)

Module DESAux.

(** One delta swap, as the permutations write it:
    [t = ((a >>> s) ^ b) & m; b ^= t; a ^= (t << s)]. *)
Definition dswap (s m : Z) (ab : Z * Z) : Z * Z :=
  let '(a, b) := ab in
  let t := ((a >>> s) .^ b) .& m in
  (a .^ (t << s), b .^ t).

Definition flip (ab : Z * Z) : Z * Z := (snd ab, fst ab).
Definition norm (ab : Z * Z) : Z * Z := (fst ab >>> 0, snd ab >>> 0).
Definition int32s (ab : Z * Z) : Z * Z := (JS.ToInt32 (fst ab), JS.ToInt32 (snd ab)).

(** A mask whose set bits all stay below bit 32 when shifted left by [s]. *)
Definition fits (s m : Z) : Prop :=
  forall i, 0 <= i < 32 -> Z.testbit m i = true -> i + s < 32.

Definition uint32 (a : Z) : Prop := 0 <= a < 2 ^ 32.
Definition uint32s (ab : Z * Z) : Prop := uint32 (fst ab) /\ uint32 (snd ab).

(** The big-endian number of four bytes. *)
Definition word32 (a b c d : Z) : Z := a * 2 ^ 24 + b * 2 ^ 16 + c * 2 ^ 8 + d.

End DESAux.

Module PadAux.

(** Number of bytes the padding appends to [L] bytes. *)
Definition padLenOf (L : Z) : Z := if L mod 8 =? 0 then 8 else 8 - L mod 8.

End PadAux.

Module ChunkAux.

(** The four tag bytes [buildChunk] writes for [id]. *)
Definition tagBytes (id : Text.jsstring) : list Z :=
  let t := JS.slice (Text.encode id) 0 4 in
  t ++ JS.zeros (4 - JS.len t).

(** The four bytes [writeUint32BE] writes for [value]. *)
Definition be32 (value : Z) : list Z :=
  [ JS.ToUint8 ((value >>> 24) .& 0xff); JS.ToUint8 ((value >>> 16) .& 0xff);
    JS.ToUint8 ((value >>> 8) .& 0xff); JS.ToUint8 (value .& 0xff) ].

End ChunkAux.

Module LockAux.

(** The bytes [keyDerivation] works on. *)
Definition srcOf (id : DeviceId) : list Z :=
  match id with
  | IdString s => Text.encode s
  | IdBytes b => b
  end.

(** An identifier without content: the empty string or an empty byte array. *)
Definition idEmpty (id : DeviceId) : bool :=
  match id with
  | IdString s => isEmpty s
  | IdBytes b => isEmpty b
  end.

End LockAux.

Module CpiAux.

(** The header chunk XPIH(XMDL, XPID), byte for byte. *)
Definition headerBytes (modelName : Text.jsstring) (packInstallId : Z) : list Z :=
  let name := Text.encode (modelName ++ [0]) in
  let inner := (Text.lit "XMDL" ++ ChunkAux.be32 (JS.len name) ++ name)
                 ++ (Text.lit "XPID" ++ [0; 0; 0; 4] ++ ChunkAux.be32 packInstallId) in
  Text.lit "XPIH" ++ ChunkAux.be32 (JS.len inner) ++ inner.

End CpiAux.

Module ReadAux.

(** [end] as [readChunks] takes it. *)
Definition endOf (buf : list Z) (endOffset : option Z) : Z :=
  match endOffset with Some e => e | None => JS.len buf end.

(** What holds of a chunk read from [buf] between [startOffset] and [end_]:
    a recognized tag, a header inside the bounds, the declared size as the
    header has it, and the payload clipped to [end_]. *)
Definition chunkWithin (buf : list Z) (startOffset end_ : Z) (c : Chunk.t) : Prop :=
  KNOWN_TAGS_has (Chunk.id c) = true
  /\ startOffset <= Chunk.offset c
  /\ Chunk.offset c + 8 <= end_
  /\ Chunk.id c = readFourCC buf (Chunk.offset c)
  /\ Chunk.size c = readUint32BE buf (Chunk.offset c + 4)
  /\ Chunk.data c
     = JS.slice buf (Chunk.offset c + 8)
         (Z.min (Chunk.offset c + 8 + Chunk.size c) end_)
  /\ Chunk.offset c + 8 + JS.len (Chunk.data c) <= end_.

(** A chunk without its position. *)
Definition view (c : Chunk.t) : Text.jsstring * Z * list Z :=
  (Chunk.id c, Chunk.size c, Chunk.data c).

(** No recognized tag starts at any of the [n] positions from [pos] on. *)
Definition noTagFrom (buf : list Z) (pos n : Z) : bool :=
  forallb (fun p => negb (isKnownTag buf p)) (JS.zrange pos (pos + n)).

(** A chunk to write: a tag and a payload. *)
Definition encodeChunks (cs : list (Text.jsstring * list Z)) : list Z :=
  concat (map (fun c => buildChunk (fst c) (snd c)) cs).

(** A chunk that can be written and read back: a recognized tag and a
    payload whose length fits the 32-bit length field. *)
Definition writable (c : Text.jsstring * list Z) : bool :=
  KNOWN_TAGS_has (fst c) && (JS.len (snd c) <? 2 ^ 32).

(** The chunks [readChunks] returns for written chunks that start at [off]. *)
Fixpoint chunksAt (off : Z) (cs : list (Text.jsstring * list Z)) : list Chunk.t :=
  match cs with
  | [] => []
  | c :: r =>
      {| Chunk.id := fst c; Chunk.size := JS.len (snd c); Chunk.data := snd c;
         Chunk.offset := off |} :: chunksAt (off + 8 + JS.len (snd c)) r
  end.

(** The chunk [readChunks] returns for a written chunk, position apart. *)
Definition viewOf (c : Text.jsstring * list Z) : Text.jsstring * Z * list Z :=
  (fst c, JS.len (snd c), snd c).

(** Chunks one after the other from [from] on: every chunk starts at or
    after the end of the payload of the one before. *)
Fixpoint inOrder (from : Z) (cs : list Chunk.t) : Prop :=
  match cs with
  | [] => True
  | c :: r =>
      from <= Chunk.offset c
      /\ inOrder (Chunk.offset c + 8 + JS.len (Chunk.data c)) r
  end.

End ReadAux.

Module TextAux.

(** A string the text chunks carry unchanged: code units 1..0xFFFF with every
    surrogate in a pair (well-formed UTF-16, no NUL). *)
Fixpoint wellFormed (s : Text.jsstring) : bool :=
  match s with
  | [] => true
  | c :: r =>
      if Text.isHigh c then
        match r with
        | d :: r' => Text.isLow d && wellFormed r'
        | [] => false
        end
      else if Text.isLow c then false
      else (0 <? c) && (c <=? 0xFFFF) && wellFormed r
  end.

(** The string does not start with U+FEFF. *)
Definition noBOM (s : Text.jsstring) : bool :=
  match s with
  | c :: _ => negb (c =? 0xFEFF)
  | [] => true
  end.

Definition textOk (s : Text.jsstring) : bool := wellFormed s && noBOM s.

(** A Unicode scalar value. *)
Definition scalar (cp : Z) : Prop :=
  0 <= cp < 0x110000 /\ ~ (0xD800 <= cp <= 0xDFFF).

End TextAux.

Module PackAux.

(** The chunks [buildEncryptedCPI] writes for a blob, as tags and payloads. *)
Definition blobParts (blob : Blob.t) : list (Text.jsstring * list Z) :=
  [ (Text.lit "EUID", Text.encode (Blob.uid blob ++ [0]));
    (Text.lit "ETIT", Text.encode (Blob.title blob ++ [0]));
    (Text.lit "EEXT", Text.encode (Blob.extension blob ++ [0])) ]
  ++ match Blob.iconCode blob with
     | Some (c :: r) => [ (Text.lit "EICO", Text.encode ((c :: r) ++ [0])) ]
     | _ => []
     end
  ++ [ (Text.lit "FBIN", Blob.binaryData blob) ].

Definition blobPair (blob : Blob.t) : Text.jsstring * list Z :=
  (Text.lit "BLOB", ReadAux.encodeChunks (blobParts blob)).

(** The chunks of the plaintext payload, as tags and payloads. *)
Definition topChunks (packData : Pack.t) : list (Text.jsstring * list Z) :=
  (Text.lit "EUID", Text.encode (Pack.uid packData ++ [0]))
  :: (Text.lit "ETIT", Text.encode (Pack.title packData ++ [0]))
  :: map blobPair (Pack.blobs packData).

(** An icon code that survives: absent, or a non-empty string the text
    chunks carry unchanged. *)
Definition iconOk (iconCode : option Text.jsstring) : bool :=
  match iconCode with
  | None => true
  | Some s => negb (isEmpty s) && TextAux.textOk s
  end.

Definition blobOk (blob : Blob.t) : bool :=
  TextAux.textOk (Blob.uid blob) && TextAux.textOk (Blob.title blob)
  && TextAux.textOk (Blob.extension blob) && iconOk (Blob.iconCode blob)
  && forallb ReadAux.writable (blobParts blob).

(** A pack that survives writing and reading: strings the text chunks carry
    unchanged, icon codes absent or non-empty, and every payload shorter
    than 2^32 bytes. *)
Definition packOk (packData : Pack.t) : bool :=
  TextAux.textOk (Pack.uid packData) && TextAux.textOk (Pack.title packData)
  && forallb blobOk (Pack.blobs packData)
  && forallb ReadAux.writable (topChunks packData).

End PackAux.

(** Concrete inputs used to exercise the theorems. *)
Module ParseAux.

(** ASCII text without NUL: every byte between 1 and 127. *)
Definition asciiText (s : list Z) : bool :=
  forallb (fun c => (1 <=? c) && (c <? 128)) s.

(** A fixed-width field of an N27 record: the text, then zero bytes. *)
Definition field (s : list Z) (width : Z) : list Z :=
  s ++ JS.zeros (width - JS.len s).

(** A top-level chunk that [parsePPFRaw] turns into a blob entry. *)
Definition isBlob (c : Chunk.t) : bool :=
  Text.string_eqb (Chunk.id c) (Text.lit "BLOB").

(** The pack without content. *)
Definition emptyPack : Pack.t :=
  {| Pack.uid := []; Pack.title := []; Pack.blobs := [] |}.

End ParseAux.

Module Samples.

Definition kat_key : list Z := [0x13; 0x34; 0x57; 0x79; 0x9B; 0xBC; 0xDF; 0xF1].
Definition kat_plain : list Z := [0x01; 0x23; 0x45; 0x67; 0x89; 0xAB; 0xCD; 0xEF].
Definition kat_cipher : list Z := [0x85; 0xE8; 0x13; 0x54; 0x0F; 0x0A; 0xB4; 0x05].

(** The pack of the end-to-end scenario: one blob without icon code. *)
Definition pack : Pack.t :=
  {| Pack.uid := Text.lit "P1"; Pack.title := Text.lit "Test";
     Pack.blobs :=
       [ {| Blob.uid := Text.lit "B1"; Blob.title := Text.lit "S1";
            Blob.extension := Text.lit "wav"; Blob.iconCode := None;
            Blob.binaryData := [0x01; 0x02; 0x03] |} ] |}.

(** What [parsePPFRaw] makes of the bare payload of [pack]: the first eight
    bytes, the header of the EUID chunk, are skipped and the identifier of
    the pack is lost. *)
Definition pack_without_uid : Pack.t :=
  {| Pack.uid := []; Pack.title := Pack.title pack; Pack.blobs := Pack.blobs pack |}.

(** An eight-byte file header. *)
Definition header : list Z := Text.lit "XPFH" ++ [0; 0; 0; 0].

(** A random tape. *)
Definition tape : JS.Rng := fun k => Z.of_nat (37 * k + 11).

(** Two written chunks and three bytes to put between them. *)
Definition before : list (Text.jsstring * list Z) := [ (Text.lit "EUID", [65; 0]) ].
Definition after : list (Text.jsstring * list Z) := [ (Text.lit "BLOB", [1; 2; 3]) ].
Definition filler : list Z := [7; 7; 7].
Definition overlap : list Z := Text.lit "BLO".

(** The fields of an N27 record. *)
Definition n27_model : list Z := Text.lit "PSR-SX900".
Definition n27_serial : list Z := Text.lit "SN000123".
Definition n27_fullId : list Z := Text.lit "0123456789ABCDEF".

(** A short device identifier, and one of 130 bytes. *)
Definition short_id : list Z := [0x41; 0x42; 0x43].
Definition long_id : list Z := map (fun i => i mod 251) (JS.zrange 0 130).

End Samples.

Module CbcAux.

(** The block the CBC loops hand to the cipher at offset [i]:
    [block[j] = data[i + j] ^ prevBlock[j]] for [j] in 0..7. *)
Definition chainBlock (data : list Z) (i : Z) (prevBlock : list Z) : list Z :=
  JS.for_loop 0 8
    (fun j block => JS.store block j (data.[i + j] .^ prevBlock.[j]))
    (JS.zeros 8).

(** Number of set bits among the low eight. *)
Definition popcount8 (b : Z) : Z :=
  fold_left (fun n i => if Z.testbit b i then n + 1 else n) (JS.zrange 0 8) 0.

End CbcAux.

Module KeyAux.

(** The body of the loop of [msbParity]: the byte [result[i]] for the key
    byte [k]. *)
Definition parityByte (k : Z) : Z :=
  let b := k .& 0x7F in
  let t := b in
  let t := t .^ ((t << 4) .& 0xFF) in
  let t := t .^ ((t << 2) .& 0xFF) in
  let t := t .^ ((t << 1) .& 0xFF) in
  JS.ToUint8 (b .| (JS.not t .& 0x80)).

(** What holds of one key byte [k] and of [msbParity]'s byte [r] for it. *)
Definition parityOk (k r : Z) : Prop :=
  byte r /\ r mod 128 = k mod 128 /\ Z.odd (CbcAux.popcount8 r) = true.

(** Both halves of a subkey are 24-bit numbers. *)
Definition subKeyOk (K : Z * Z) : Prop :=
  0 <= fst K < 2 ^ 24 /\ 0 <= snd K < 2 ^ 24.

End KeyAux.

(** * Facts about the 32-bit operators *)

Module JSFacts.
Import JS.

Lemma ToUint32_range a : 0 <= ToUint32 a < 2 ^ 32.
Proof. unfold ToUint32. apply Z.mod_pos_bound. lia. Qed.

Lemma ToInt32_range a : - 2 ^ 31 <= ToInt32 a < 2 ^ 31.
Proof.
  unfold ToInt32.
  pose proof (Z.mod_pos_bound (a + 2 ^ 31) (2 ^ 32)). lia.
Qed.

Lemma ToUint32_small a : 0 <= a < 2 ^ 32 -> ToUint32 a = a.
Proof. intros H. unfold ToUint32. apply Z.mod_small. exact H. Qed.

Lemma ToInt32_small a : - 2 ^ 31 <= a < 2 ^ 31 -> ToInt32 a = a.
Proof. intros H. unfold ToInt32. rewrite Z.mod_small; lia. Qed.

Lemma ToUint32_ToInt32 a : ToUint32 (ToInt32 a) = ToUint32 a.
Proof.
  unfold ToUint32, ToInt32.
  rewrite <- Zminus_mod_idemp_l, Z.mod_mod by lia.
  rewrite Zminus_mod_idemp_l. f_equal. lia.
Qed.

Lemma ToInt32_ToUint32 a : ToInt32 (ToUint32 a) = ToInt32 a.
Proof.
  unfold ToUint32, ToInt32.
  rewrite Zplus_mod_idemp_l. reflexivity.
Qed.

Lemma ToUint32_idem a : ToUint32 (ToUint32 a) = ToUint32 a.
Proof. unfold ToUint32. apply Z.mod_mod. lia. Qed.

Lemma ToInt32_idem a : ToInt32 (ToInt32 a) = ToInt32 a.
Proof. apply ToInt32_small, ToInt32_range. Qed.

Lemma ToUint32_bits a i : 0 <= i < 32 -> Z.testbit (ToUint32 a) i = Z.testbit a i.
Proof. intros H. unfold ToUint32. apply Z.mod_pow2_bits_low. lia. Qed.

Lemma ToUint32_bits_high a i : 32 <= i -> Z.testbit (ToUint32 a) i = false.
Proof. intros H. unfold ToUint32. apply Z.mod_pow2_bits_high. lia. Qed.

Lemma ToInt32_bits a i : 0 <= i < 32 -> Z.testbit (ToInt32 a) i = Z.testbit a i.
Proof.
  intros H. rewrite <- (ToUint32_bits (ToInt32 a)) by exact H.
  rewrite ToUint32_ToInt32. apply ToUint32_bits. exact H.
Qed.

(** Two numbers with the same low 32 bits have the same 32-bit readings. *)
Lemma ToUint32_ext a b :
  (forall i, 0 <= i < 32 -> Z.testbit a i = Z.testbit b i) -> ToUint32 a = ToUint32 b.
Proof.
  intros H. apply Z.bits_inj'. intros i Hi.
  destruct (Z.lt_ge_cases i 32) as [Hlt | Hge].
  - rewrite !ToUint32_bits by lia. apply H. lia.
  - rewrite !ToUint32_bits_high by lia. reflexivity.
Qed.

Lemma ToInt32_ext a b :
  (forall i, 0 <= i < 32 -> Z.testbit a i = Z.testbit b i) -> ToInt32 a = ToInt32 b.
Proof.
  intros H. rewrite <- (ToInt32_ToUint32 a), <- (ToInt32_ToUint32 b).
  f_equal. apply ToUint32_ext. exact H.
Qed.

(** The operators read their operands modulo 2^32. *)
Lemma xor_ToUint32_l a b : ToUint32 a .^ b = a .^ b.
Proof. unfold xor. rewrite ToInt32_ToUint32. reflexivity. Qed.
Lemma xor_ToUint32_r a b : a .^ ToUint32 b = a .^ b.
Proof. unfold xor. rewrite ToInt32_ToUint32. reflexivity. Qed.
Lemma xor_ToInt32_l a b : ToInt32 a .^ b = a .^ b.
Proof. unfold xor. rewrite ToInt32_idem. reflexivity. Qed.
Lemma xor_ToInt32_r a b : a .^ ToInt32 b = a .^ b.
Proof. unfold xor. rewrite ToInt32_idem. reflexivity. Qed.
Lemma shru_ToUint32 a n : ToUint32 a >>> n = a >>> n.
Proof. unfold shru. rewrite ToUint32_idem. reflexivity. Qed.
Lemma shru_ToInt32 a n : ToInt32 a >>> n = a >>> n.
Proof. unfold shru. rewrite ToUint32_ToInt32. reflexivity. Qed.

Lemma shru_0 a : a >>> 0 = ToUint32 a.
Proof. unfold shru. reflexivity. Qed.

Lemma count_small n : 0 <= n < 32 -> Z.land n 31 = n.
Proof.
  intros H. change 31 with (Z.ones 5). rewrite Z.land_ones by lia.
  apply Z.mod_small. change (2 ^ 5) with 32. lia.
Qed.

(** Bits 0..31 of the results. *)
Lemma xor_bits a b i :
  0 <= i < 32 -> Z.testbit (a .^ b) i = xorb (Z.testbit a i) (Z.testbit b i).
Proof.
  intros H. unfold xor. rewrite ToInt32_bits, Z.lxor_spec, !ToInt32_bits by exact H.
  reflexivity.
Qed.

Lemma and_bits a b i :
  0 <= i < 32 -> Z.testbit (a .& b) i = Z.testbit a i && Z.testbit b i.
Proof.
  intros H. unfold and. rewrite ToInt32_bits, Z.land_spec, !ToInt32_bits by exact H.
  reflexivity.
Qed.

Lemma or_bits a b i :
  0 <= i < 32 -> Z.testbit (a .| b) i = Z.testbit a i || Z.testbit b i.
Proof.
  intros H. unfold or. rewrite ToInt32_bits, Z.lor_spec, !ToInt32_bits by exact H.
  reflexivity.
Qed.

Lemma shl_bits a s i :
  0 <= s < 32 -> 0 <= i < 32 ->
  Z.testbit (a << s) i = (s <=? i) && Z.testbit a (i - s).
Proof.
  intros Hs Hi. unfold shl. rewrite count_small by exact Hs.
  rewrite ToInt32_bits, Z.shiftl_spec by lia.
  destruct (Z.leb_spec s i) as [Hle | Hlt].
  - rewrite ToInt32_bits by lia. reflexivity.
  - apply Z.testbit_neg_r. lia.
Qed.

Lemma shru_bits a s i :
  0 <= s < 32 -> 0 <= i ->
  Z.testbit (a >>> s) i = (i + s <? 32) && Z.testbit a (i + s).
Proof.
  intros Hs Hi. unfold shru. rewrite count_small by exact Hs.
  rewrite Z.shiftr_spec by lia.
  destruct (Z.ltb_spec (i + s) 32) as [Hlt | Hge].
  - apply ToUint32_bits. lia.
  - apply ToUint32_bits_high. lia.
Qed.

Lemma xor_int32 a b : ToInt32 (a .^ b) = a .^ b.
Proof. apply ToInt32_idem. Qed.

End JSFacts.


(** * The DES block functions *)

Module DESFacts.
Import JS JSFacts DES DESAux.

Lemma initialPerm_swaps L R :
  initialPerm L R =
  norm (dswap 1 0x55555555 (flip (dswap 8 0x00FF00FF (dswap 2 0x33333333 (flip
       (dswap 16 0x0000FFFF (dswap 4 0x0F0F0F0F (L, R)))))))).
Proof. cbv beta iota zeta delta [initialPerm dswap flip norm fst snd]. reflexivity. Qed.

Lemma finalPerm_swaps L R :
  finalPerm L R =
  norm (dswap 4 0x0F0F0F0F (dswap 16 0x0000FFFF (flip (dswap 2 0x33333333
       (dswap 8 0x00FF00FF (flip (dswap 1 0x55555555 (L, R)))))))).
Proof. cbv beta iota zeta delta [finalPerm dswap flip norm fst snd]. reflexivity. Qed.

Lemma fits_check s m :
  0 <= s ->
  forallb (fun i => implb (Z.testbit m i) (i + s <? 32)) (zrange 0 32) = true ->
  fits s m.
Proof.
  intros Hs H i Hi Hb. rewrite forallb_forall in H.
  assert (Hin : In i (zrange 0 32)).
  { unfold zrange. apply in_map_iff. exists (Z.to_nat i). split; [lia|].
    apply in_seq. change (Z.to_nat (32 - 0)) with 32%nat. lia. }
  apply H in Hin. rewrite Hb in Hin. apply Z.ltb_lt. exact Hin.
Qed.

Lemma dswap_norm s m ab : dswap s m (norm ab) = dswap s m ab.
Proof.
  destruct ab as [a b]. unfold norm, dswap. cbn [fst snd].
  rewrite !shru_0, shru_ToUint32, !xor_ToUint32_l, xor_ToUint32_r. reflexivity.
Qed.

Lemma dswap_int32s s m ab : dswap s m (int32s ab) = dswap s m ab.
Proof.
  destruct ab as [a b]. unfold int32s, dswap. cbn [fst snd].
  rewrite shru_ToInt32, !xor_ToInt32_l, xor_ToInt32_r. reflexivity.
Qed.

(** A delta swap is an involution on the 32-bit readings. *)
Lemma dswap_involutive s m ab :
  0 <= s < 32 -> fits s m -> dswap s m (dswap s m ab) = int32s ab.
Proof.
  intros Hs Hm. destruct ab as [a b]. unfold dswap, int32s. cbn [fst snd].
  set (t := ((a >>> s) .^ b) .& m).
  set (a' := a .^ (t << s)). set (b' := b .^ t).
  set (t' := ((a' >>> s) .^ b') .& m).
  assert (Ht : forall i, 0 <= i < 32 -> Z.testbit t' i = Z.testbit t i).
  { intros i Hi. unfold t', t. rewrite !and_bits by lia.
    destruct (Z.testbit m i) eqn:Hmi; [|rewrite !andb_false_r; reflexivity].
    rewrite !andb_true_r. pose proof (Hm i Hi Hmi) as Hfit.
    rewrite !xor_bits, !shru_bits by lia.
    assert (Hlt : (i + s <? 32) = true) by (apply Z.ltb_lt; lia).
    rewrite Hlt. cbn [andb]. unfold a', b'.
    rewrite !xor_bits, shl_bits by lia.
    assert (Hle : (s <=? i + s) = true) by (apply Z.leb_le; lia).
    rewrite Hle. cbn [andb]. replace (i + s - s) with i by lia.
    fold t. destruct (Z.testbit a (i + s)), (Z.testbit b i), (Z.testbit t i); reflexivity. }
  f_equal.
  - rewrite <- xor_int32. apply ToInt32_ext. intros i Hi.
    unfold a'. rewrite !xor_bits, !shl_bits by lia.
    destruct (Z.leb_spec s i) as [Hle | Hlt]; cbn [andb].
    + rewrite Ht by lia.
      destruct (Z.testbit a i), (Z.testbit t (i - s)); reflexivity.
    + destruct (Z.testbit a i); reflexivity.
  - rewrite <- xor_int32. apply ToInt32_ext. intros i Hi.
    unfold b'. rewrite !xor_bits by lia. rewrite Ht by lia.
    destruct (Z.testbit b i), (Z.testbit t i); reflexivity.
Qed.

Lemma flip_int32s ab : flip (int32s ab) = int32s (flip ab).
Proof. reflexivity. Qed.

Lemma flip_flip ab : flip (flip ab) = ab.
Proof. destruct ab; reflexivity. Qed.

Lemma norm_int32s ab : norm (int32s ab) = norm ab.
Proof.
  destruct ab as [a b]. unfold norm, int32s. cbn [fst snd].
  rewrite !shru_ToInt32. reflexivity.
Qed.

Lemma norm_uint32s ab : uint32s (norm ab).
Proof. split; cbn [norm fst snd]; rewrite shru_0; apply ToUint32_range. Qed.

Lemma norm_small ab : uint32s ab -> norm ab = ab.
Proof.
  destruct ab as [a b]. intros [Ha Hb]. unfold norm. cbn [fst snd] in *.
  rewrite !shru_0, !ToUint32_small by assumption. reflexivity.
Qed.

Lemma fits_1 : fits 1 0x55555555.  Proof. apply fits_check; [lia | reflexivity]. Qed.
Lemma fits_2 : fits 2 0x33333333.  Proof. apply fits_check; [lia | reflexivity]. Qed.
Lemma fits_4 : fits 4 0x0F0F0F0F.  Proof. apply fits_check; [lia | reflexivity]. Qed.
Lemma fits_8 : fits 8 0x00FF00FF.  Proof. apply fits_check; [lia | reflexivity]. Qed.
Lemma fits_16 : fits 16 0x0000FFFF.  Proof. apply fits_check; [lia | reflexivity]. Qed.

Ltac cancel_swap H :=
  rewrite dswap_involutive by (first [lia | exact H]);
  rewrite ?flip_int32s, ?flip_flip, ?dswap_int32s, ?norm_int32s.

(** The final permutation undoes the initial one, and conversely. *)
Lemma finalPerm_initialPerm L R :
  uint32 L -> uint32 R ->
  (let '(L', R') := initialPerm L R in finalPerm L' R') = (L, R).
Proof.
  intros HL HR. rewrite initialPerm_swaps.
  match goal with |- context [norm ?x] => set (p := norm x) end.
  assert (Hp : (let '(L', R') := p in finalPerm L' R') = finalPerm (fst p) (snd p))
    by (destruct p; reflexivity).
  rewrite Hp, finalPerm_swaps. unfold p. rewrite <- surjective_pairing, dswap_norm.
  cancel_swap fits_1. cancel_swap fits_8. cancel_swap fits_2.
  cancel_swap fits_16. cancel_swap fits_4.
  apply norm_small. split; assumption.
Qed.

Lemma initialPerm_finalPerm L R :
  uint32 L -> uint32 R ->
  (let '(L', R') := finalPerm L R in initialPerm L' R') = (L, R).
Proof.
  intros HL HR. rewrite finalPerm_swaps.
  match goal with |- context [norm ?x] => set (p := norm x) end.
  assert (Hp : (let '(L', R') := p in initialPerm L' R') = initialPerm (fst p) (snd p))
    by (destruct p; reflexivity).
  rewrite Hp, initialPerm_swaps. unfold p. rewrite <- surjective_pairing, dswap_norm.
  cancel_swap fits_4. cancel_swap fits_16. cancel_swap fits_2.
  cancel_swap fits_8. cancel_swap fits_1.
  apply norm_small. split; assumption.
Qed.

End DESFacts.


(** * Words and bytes *)

Module WordFacts.
Import JS JSFacts DESAux.

Lemma ToUint32_or a b : ToUint32 (a .| b) = Z.lor (ToUint32 a) (ToUint32 b).
Proof.
  apply Z.bits_inj'. intros i Hi. rewrite Z.lor_spec.
  destruct (Z.lt_ge_cases i 32).
  - rewrite !ToUint32_bits, or_bits by lia. reflexivity.
  - rewrite !ToUint32_bits_high by lia. reflexivity.
Qed.

Lemma ToInt32_eqm a : exists q, ToInt32 a = a + q * 2 ^ 32.
Proof.
  unfold ToInt32. exists (- ((a + 2 ^ 31) / 2 ^ 32)).
  pose proof (Z.div_mod (a + 2 ^ 31) (2 ^ 32)). lia.
Qed.

Lemma ToUint32_shl a s :
  0 <= s < 32 -> ToUint32 (a << s) = (a * 2 ^ s) mod 2 ^ 32.
Proof.
  intros Hs. unfold shl. rewrite count_small by exact Hs.
  rewrite ToUint32_ToInt32, Z.shiftl_mul_pow2 by lia.
  destruct (ToInt32_eqm a) as [q Hq]. rewrite Hq. unfold ToUint32.
  replace ((a + q * 2 ^ 32) * 2 ^ s) with (a * 2 ^ s + (q * 2 ^ s) * 2 ^ 32) by ring.
  apply Z.mod_add. lia.
Qed.

Lemma shru_div a s : 0 <= s < 32 -> a >>> s = ToUint32 a / 2 ^ s.
Proof.
  intros Hs. unfold shru. rewrite count_small by exact Hs.
  apply Z.shiftr_div_pow2. lia.
Qed.

Lemma and_ones a k :
  0 <= k <= 31 -> a .& Z.ones k = ToUint32 a mod 2 ^ k.
Proof.
  intros Hk. unfold and.
  assert (Hp : 0 < 2 ^ k <= 2 ^ 31)
    by (split; [apply Z.pow_pos_nonneg; lia | apply Z.pow_le_mono_r; lia]).
  rewrite (ToInt32_small (Z.ones k)) by (rewrite Z.ones_equiv; lia).
  rewrite Z.land_ones by lia.
  pose proof (Z.mod_pos_bound (ToInt32 a) (2 ^ k)).
  rewrite ToInt32_small by lia.
  assert (Hdiv : (2 ^ k | 2 ^ 32)).
  { exists (2 ^ (32 - k)). rewrite <- Z.pow_add_r by lia. f_equal. lia. }
  rewrite <- (Z.mod_mod_divide (ToInt32 a) (2 ^ 32) (2 ^ k)) by exact Hdiv.
  fold (ToUint32 (ToInt32 a)). rewrite ToUint32_ToInt32. reflexivity.
Qed.

Lemma lor_shifted x y k :
  0 <= k -> 0 <= y < 2 ^ k -> Z.lor (x * 2 ^ k) y = x * 2 ^ k + y.
Proof.
  intros Hk Hy.
  assert (Hl : Z.land (x * 2 ^ k) y = 0).
  { apply Z.bits_inj'. intros i Hi. rewrite Z.land_spec, Z.bits_0.
    destruct (Z.lt_ge_cases i k).
    - rewrite Z.mul_pow2_bits_low by lia. reflexivity.
    - rewrite <- (Z.mod_small y (2 ^ k)) by lia.
      rewrite Z.mod_pow2_bits_high by lia. apply andb_false_r. }
  rewrite <- Z.lxor_lor by exact Hl. symmetry. apply Z.add_nocarry_lxor. exact Hl.
Qed.

(** The word the source assembles from four bytes. *)
Lemma word_of_bytes a b c d :
  byte a -> byte b -> byte c -> byte d ->
  ((((a << 24) .| (b << 16)) .| (c << 8)) .| d) >>> 0 = word32 a b c d.
Proof.
  unfold byte, word32. intros Ha Hb Hc Hd.
  rewrite shru_0, !ToUint32_or, !ToUint32_shl by lia.
  rewrite (ToUint32_small d) by lia.
  rewrite !Z.mod_small by lia.
  rewrite (lor_shifted a (b * 2 ^ 16) 24) by lia.
  replace (a * 2 ^ 24 + b * 2 ^ 16) with ((a * 2 ^ 8 + b) * 2 ^ 16) by ring.
  rewrite (lor_shifted _ (c * 2 ^ 8) 16) by lia.
  replace ((a * 2 ^ 8 + b) * 2 ^ 16 + c * 2 ^ 8)
    with ((a * 2 ^ 16 + b * 2 ^ 8 + c) * 2 ^ 8) by ring.
  rewrite lor_shifted by lia. ring.
Qed.

Lemma word32_range a b c d :
  byte a -> byte b -> byte c -> byte d -> uint32 (word32 a b c d).
Proof. unfold byte, word32, uint32. lia. Qed.

(** The four bytes the source extracts from a word. *)
Lemma byte3 v : ToUint8 ((v >>> 24) .& 0xff) = ToUint32 v / 2 ^ 24.
Proof.
  change 0xff with (Z.ones 8). rewrite and_ones, shru_div by lia.
  pose proof (ToUint32_range v). unfold ToUint8.
  assert (0 <= ToUint32 v / 2 ^ 24 < 256)
    by (split; [apply Z.div_pos; lia | apply Z.div_lt_upper_bound; lia]).
  rewrite ToUint32_small by lia. change (2 ^ 8) with 256.
  rewrite Z.mod_mod by lia. apply Z.mod_small. lia.
Qed.

Lemma byte_mid v s :
  0 <= s < 32 -> ToUint8 ((v >>> s) .& 0xff) = (ToUint32 v / 2 ^ s) mod 256.
Proof.
  intros Hs. change 0xff with (Z.ones 8). rewrite and_ones, shru_div by lia.
  pose proof (ToUint32_range v). unfold ToUint8.
  assert (0 < 2 ^ s) by (apply Z.pow_pos_nonneg; lia).
  assert (0 <= ToUint32 v / 2 ^ s < 2 ^ 32).
  { split; [apply Z.div_pos; lia|].
    apply Z.le_lt_trans with (ToUint32 v); [|lia].
    apply Z.div_le_upper_bound; nia. }
  rewrite ToUint32_small by lia. change (2 ^ 8) with 256.
  apply Z.mod_mod. lia.
Qed.

Lemma byte0 v : ToUint8 (v .& 0xff) = ToUint32 v mod 256.
Proof.
  change 0xff with (Z.ones 8). rewrite and_ones by lia.
  unfold ToUint8. change (2 ^ 8) with 256. apply Z.mod_mod. lia.
Qed.

Lemma bytes_of_word32 a b c d :
  byte a -> byte b -> byte c -> byte d ->
  let w := word32 a b c d in
  w / 2 ^ 24 = a /\ (w / 2 ^ 16) mod 256 = b /\ (w / 2 ^ 8) mod 256 = c /\ w mod 256 = d.
Proof.
  unfold byte, word32. intros Ha Hb Hc Hd. cbv zeta.
  change (2 ^ 24) with 16777216. change (2 ^ 16) with 65536. change (2 ^ 8) with 256.
  repeat split; Z.div_mod_to_equations; lia.
Qed.

Lemma word32_of_bytes w :
  uint32 w ->
  word32 (w / 2 ^ 24) ((w / 2 ^ 16) mod 256) ((w / 2 ^ 8) mod 256) (w mod 256) = w.
Proof.
  unfold uint32, word32. intros Hw.
  change (2 ^ 32) with 4294967296 in Hw.
  change (2 ^ 24) with 16777216. change (2 ^ 16) with 65536. change (2 ^ 8) with 256.
  Z.div_mod_to_equations. lia.
Qed.

End WordFacts.


(** * Byte arrays *)

Module BytesFacts.

Lemma byteb_iff b : byteb b = true <-> byte b.
Proof. unfold byteb, byte. rewrite andb_true_iff, Z.leb_le, Z.ltb_lt. reflexivity. Qed.

Lemma bytesb_iff l : bytesb l = true <-> bytes l.
Proof.
  unfold bytesb, bytes. rewrite forallb_forall, Forall_forall.
  split; intros H x Hx; apply byteb_iff, H, Hx.
Qed.

Lemma ToUint8_byte v : byte (JS.ToUint8 v).
Proof. unfold byte, JS.ToUint8. apply Z.mod_pos_bound. lia. Qed.

Lemma ToUint8_small v : byte v -> JS.ToUint8 v = v.
Proof. unfold byte, JS.ToUint8. intros H. apply Z.mod_small. exact H. Qed.

Lemma bytes_app a b : bytes (a ++ b) <-> bytes a /\ bytes b.
Proof. unfold bytes. apply Forall_app. Qed.

End BytesFacts.

(** * The DES block cipher *)

Module BlockFacts.
Import JS JSFacts DES DESAux DESFacts WordFacts BytesFacts.

Lemma bytesToLR_spec b0 b1 b2 b3 b4 b5 b6 b7 :
  bytes [b0; b1; b2; b3; b4; b5; b6; b7] ->
  bytesToLR [b0; b1; b2; b3; b4; b5; b6; b7] 0 = (word32 b0 b1 b2 b3, word32 b4 b5 b6 b7).
Proof.
  intros H. unfold bytes in H.
  repeat match goal with H : Forall _ (_ :: _) |- _ => inversion H; subst; clear H end.
  unfold bytesToLR. cbn [get Z.add Z.ltb Z.compare Z.to_nat Pos.to_nat Pos.iter_op Nat.add nth].
  rewrite !word_of_bytes by assumption. reflexivity.
Qed.

Lemma lrToBytes_spec L R :
  lrToBytes L R =
  [ ToUint32 L / 2 ^ 24; (ToUint32 L / 2 ^ 16) mod 256; (ToUint32 L / 2 ^ 8) mod 256;
    ToUint32 L mod 256;
    ToUint32 R / 2 ^ 24; (ToUint32 R / 2 ^ 16) mod 256; (ToUint32 R / 2 ^ 8) mod 256;
    ToUint32 R mod 256 ].
Proof.
  unfold lrToBytes. cbn [map].
  rewrite !byte3. rewrite !byte_mid by lia. rewrite !byte0. reflexivity.
Qed.

Lemma lrToBytes_length L R : length (lrToBytes L R) = 8%nat.
Proof. reflexivity. Qed.

Lemma lrToBytes_bytes L R : bytes (lrToBytes L R).
Proof.
  unfold lrToBytes, bytes. apply Forall_forall. intros x Hx.
  apply in_map_iff in Hx. destruct Hx as [y [<- _]]. apply ToUint8_byte.
Qed.

(** Bytes to words and back. *)
Lemma lrToBytes_bytesToLR block :
  bytes block -> length block = 8%nat ->
  (let '(L, R) := bytesToLR block 0 in lrToBytes L R) = block.
Proof.
  intros Hb Hl.
  do 8 (destruct block as [|? block]; [discriminate Hl|]).
  destruct block; [|discriminate Hl].
  rewrite bytesToLR_spec by exact Hb.
  unfold bytes in Hb.
  repeat match goal with H : Forall _ (_ :: _) |- _ => inversion H; subst; clear H end.
  rewrite lrToBytes_spec.
  rewrite !ToUint32_small by (apply word32_range; assumption).
  repeat match goal with
         | |- context [word32 ?a ?b ?c ?d] =>
             let H := fresh in
             pose proof (bytes_of_word32 a b c d) as H; cbv zeta in H;
             destruct H as (-> & -> & -> & ->); [assumption ..|]
         end.
  reflexivity.
Qed.

Lemma bytesToLR_lrToBytes L R :
  uint32 L -> uint32 R -> bytesToLR (lrToBytes L R) 0 = (L, R).
Proof.
  intros HL HR. pose proof (lrToBytes_bytes L R) as Hb.
  rewrite lrToBytes_spec in *. rewrite bytesToLR_spec by exact Hb.
  rewrite !ToUint32_small by assumption.
  rewrite !word32_of_bytes by assumption. reflexivity.
Qed.

(** The round function returns an unsigned 32-bit number. *)
Lemma desF_uint32 R K : uint32 (desF R K).
Proof. unfold desF. cbv zeta. rewrite shru_0. apply ToUint32_range. Qed.

Lemma feistel_uint32s K LR : uint32s LR -> uint32s (feistel K LR).
Proof.
  destruct LR as [L R]. intros [HL HR]. unfold feistel, uint32s. cbn [fst snd] in *.
  split; [exact HR|]. rewrite shru_0. apply ToUint32_range.
Qed.

(** A round, a half swap and the same round again: the half swap alone. *)
Lemma feistel_undo K LR :
  uint32s LR -> feistel K (flip (feistel K LR)) = flip LR.
Proof.
  destruct LR as [L R]. intros [HL HR]. unfold feistel, flip. cbn [fst snd] in *.
  f_equal. rewrite !shru_0. rewrite <- (ToUint32_small L) at 2 by exact HL.
  apply ToUint32_ext. intros i Hi.
  rewrite xor_bits, ToUint32_bits, xor_bits by lia.
  destruct (Z.testbit L i), (Z.testbit (desF R K) i); reflexivity.
Qed.

Lemma rounds_uint32s (f : Z -> Z * Z) l LR :
  uint32s LR -> uint32s (fold_left (fun st i => feistel (f i) st) l LR).
Proof.
  revert LR. induction l as [|i l IH]; intros LR H; cbn [fold_left]; [exact H|].
  apply IH, feistel_uint32s, H.
Qed.

(** The rounds in the opposite order undo the rounds. *)
Lemma rounds_undo (f : Z -> Z * Z) l LR :
  uint32s LR ->
  fold_left (fun st i => feistel (f i) st) (rev l)
    (flip (fold_left (fun st i => feistel (f i) st) l LR)) = flip LR.
Proof.
  revert LR. induction l as [|i l IH]; intros LR H; cbn [fold_left rev]; [reflexivity|].
  rewrite fold_left_app. cbn [fold_left].
  rewrite IH by (apply feistel_uint32s, H).
  apply feistel_undo, H.
Qed.

Lemma rounds_redo (f : Z -> Z * Z) l LR :
  uint32s LR ->
  fold_left (fun st i => feistel (f i) st) l
    (flip (fold_left (fun st i => feistel (f i) st) (rev l) LR)) = flip LR.
Proof.
  intros H. rewrite <- (rev_involutive l) at 1. apply rounds_undo, H.
Qed.

Lemma initialPerm_uint32s L R : uint32s (initialPerm L R).
Proof. rewrite initialPerm_swaps. apply norm_uint32s. Qed.

Lemma finalPerm_uint32s L R : uint32s (finalPerm L R).
Proof. rewrite finalPerm_swaps. apply norm_uint32s. Qed.

Lemma desBlock_length block sk : length (desBlock block sk) = 8%nat.
Proof.
  unfold desBlock. repeat match goal with |- context [let '(_, _) := ?x in _] => destruct x end.
  apply lrToBytes_length.
Qed.

Lemma desBlock_bytes block sk : bytes (desBlock block sk).
Proof.
  unfold desBlock. repeat match goal with |- context [let '(_, _) := ?x in _] => destruct x end.
  apply lrToBytes_bytes.
Qed.

Lemma desDecryptBlock_length block sk : length (desDecryptBlock block sk) = 8%nat.
Proof.
  unfold desDecryptBlock.
  repeat match goal with |- context [let '(_, _) := ?x in _] => destruct x end.
  apply lrToBytes_length.
Qed.

Lemma desDecryptBlock_bytes block sk : bytes (desDecryptBlock block sk).
Proof.
  unfold desDecryptBlock.
  repeat match goal with |- context [let '(_, _) := ?x in _] => destruct x end.
  apply lrToBytes_bytes.
Qed.

(** Decryption undoes encryption, whatever the key schedule. *)
Lemma desDecryptBlock_desBlock block sk :
  bytes block -> length block = 8%nat ->
  desDecryptBlock (desBlock block sk) sk = block.
Proof.
  intros Hb Hl. pose proof (lrToBytes_bytesToLR block Hb Hl) as Hrt.
  unfold desDecryptBlock, desBlock, for_loop.
  destruct (bytesToLR block 0) as [L0 R0] eqn:E0.
  assert (H0 : uint32s (L0, R0)).
  { do 8 (destruct block as [|? block]; [discriminate Hl|]).
    destruct block; [|discriminate Hl].
    rewrite bytesToLR_spec in E0 by exact Hb. inversion E0; subst.
    unfold bytes in Hb.
    repeat match goal with H : Forall _ (_ :: _) |- _ => inversion H; subst; clear H end.
    split; apply word32_range; assumption. }
  pose proof (finalPerm_initialPerm L0 R0 (proj1 H0) (proj2 H0)) as Hfi.
  pose proof (initialPerm_uint32s L0 R0) as H1.
  destruct (initialPerm L0 R0) as [L1 R1] eqn:E1.
  set (rounds := fun st i => feistel (subKey sk i) st) in *.
  pose proof (rounds_uint32s (subKey sk) (zrange 0 16) (L1, R1) H1) as H2.
  pose proof (rounds_undo (subKey sk) (zrange 0 16) (L1, R1) H1) as Hun.
  fold rounds in H2, Hun.
  destruct (fold_left rounds (zrange 0 16) (L1, R1)) as [L2 R2] eqn:E2.
  pose proof (initialPerm_finalPerm R2 L2 (proj2 H2) (proj1 H2)) as Hif.
  pose proof (finalPerm_uint32s R2 L2) as H3.
  destruct (finalPerm R2 L2) as [L3 R3] eqn:E3.
  rewrite bytesToLR_lrToBytes by apply H3.
  rewrite Hif. unfold flip in Hun. cbn [fst snd] in Hun. rewrite Hun.
  rewrite Hfi. exact Hrt.
Qed.

(** Encryption undoes decryption as well. *)
Lemma desBlock_desDecryptBlock block sk :
  bytes block -> length block = 8%nat ->
  desBlock (desDecryptBlock block sk) sk = block.
Proof.
  intros Hb Hl. pose proof (lrToBytes_bytesToLR block Hb Hl) as Hrt.
  unfold desDecryptBlock, desBlock, for_loop.
  destruct (bytesToLR block 0) as [L0 R0] eqn:E0.
  assert (H0 : uint32s (L0, R0)).
  { do 8 (destruct block as [|? block]; [discriminate Hl|]).
    destruct block; [|discriminate Hl].
    rewrite bytesToLR_spec in E0 by exact Hb. inversion E0; subst.
    unfold bytes in Hb.
    repeat match goal with H : Forall _ (_ :: _) |- _ => inversion H; subst; clear H end.
    split; apply word32_range; assumption. }
  pose proof (finalPerm_initialPerm L0 R0 (proj1 H0) (proj2 H0)) as Hfi.
  pose proof (initialPerm_uint32s L0 R0) as H1.
  destruct (initialPerm L0 R0) as [L1 R1] eqn:E1.
  set (rounds := fun st i => feistel (subKey sk i) st) in *.
  pose proof (rounds_uint32s (subKey sk) (rev (zrange 0 16)) (L1, R1) H1) as H2.
  pose proof (rounds_redo (subKey sk) (zrange 0 16) (L1, R1) H1) as Hun.
  fold rounds in H2, Hun.
  destruct (fold_left rounds (rev (zrange 0 16)) (L1, R1)) as [L2 R2] eqn:E2.
  pose proof (initialPerm_finalPerm R2 L2 (proj2 H2) (proj1 H2)) as Hif.
  pose proof (finalPerm_uint32s R2 L2) as H3.
  destruct (finalPerm R2 L2) as [L3 R3] eqn:E3.
  rewrite bytesToLR_lrToBytes by apply H3.
  rewrite Hif. unfold flip in Hun. cbn [fst snd] in Hun. rewrite Hun.
  rewrite Hfi. exact Hrt.
Qed.

End BlockFacts.


(** * Typed arrays *)

Module ArrayFacts.
Import BytesFacts.

Lemma Forall_firstn {A} (P : A -> Prop) n l : Forall P l -> Forall P (firstn n l).
Proof.
  revert l. induction n as [|n IH]; intros l H; [constructor|].
  destruct H; cbn [firstn]; constructor; auto.
Qed.

Lemma Forall_skipn {A} (P : A -> Prop) n l : Forall P l -> Forall P (skipn n l).
Proof.
  revert l. induction n as [|n IH]; intros l H; [exact H|].
  destruct H; cbn [skipn]; auto.
Qed.

Lemma firstn_exact {A} (a b : list A) : firstn (length a) (a ++ b) = a.
Proof. induction a as [|x a IH]; cbn; [destruct b; reflexivity | f_equal; exact IH]. Qed.

Lemma skipn_exact {A} (a b : list A) n : skipn (length a + n) (a ++ b) = skipn n b.
Proof. induction a as [|x a IH]; cbn; [reflexivity | exact IH]. Qed.

Lemma skipn_exact0 {A} (a b : list A) : skipn (length a) (a ++ b) = b.
Proof. rewrite <- (Nat.add_0_r (length a)). apply skipn_exact. Qed.

Lemma len_nonneg {A} (l : list A) : 0 <= JS.len l.
Proof. unfold JS.len. lia. Qed.

Lemma len_nil {A} : JS.len (@nil A) = 0.
Proof. reflexivity. Qed.

Lemma len_cons {A} (x : A) l : JS.len (x :: l) = 1 + JS.len l.
Proof. unfold JS.len. cbn [length]. lia. Qed.

Lemma len_app {A} (a b : list A) : JS.len (a ++ b) = JS.len a + JS.len b.
Proof. unfold JS.len. rewrite length_app. lia. Qed.

Lemma len_zeros n : 0 <= n -> JS.len (JS.zeros n) = n.
Proof. intros H. unfold JS.len, JS.zeros. rewrite repeat_length. lia. Qed.

Lemma length_zeros n : length (JS.zeros n) = Z.to_nat n.
Proof. apply repeat_length. Qed.

Lemma zeros_bytes n : bytes (JS.zeros n).
Proof.
  unfold bytes, JS.zeros. apply Forall_forall. intros x Hx.
  apply repeat_spec in Hx. subst. unfold byte. lia.
Qed.

Lemma zeros_add n m : 0 <= n -> 0 <= m -> JS.zeros (n + m) = JS.zeros n ++ JS.zeros m.
Proof.
  intros Hn Hm. unfold JS.zeros. rewrite Z2Nat.inj_add by assumption.
  apply repeat_app.
Qed.

Lemma len_eq_length {A} (l : list A) n : JS.len l = Z.of_nat n -> length l = n.
Proof. unfold JS.len. lia. Qed.

(** [set] into a target that starts with [pre], over a part as long as the source. *)
Lemma set_app pre old post source :
  length old = length source ->
  JS.set (pre ++ old ++ post) source (JS.len pre) = pre ++ source ++ post.
Proof.
  intros H. unfold JS.set, JS.len. rewrite Nat2Z.id.
  rewrite firstn_exact, skipn_exact, <- H, skipn_exact0. reflexivity.
Qed.

Lemma set_app_0 old post source :
  length old = length source -> JS.set (old ++ post) source 0 = source ++ post.
Proof. intros H. apply (set_app [] old post source H). Qed.

Lemma set_length target source offset :
  JS.set_fits target source offset = true -> 0 <= offset ->
  length (JS.set target source offset) = length target.
Proof.
  unfold JS.set_fits, JS.set, JS.len. intros H Ho. apply Z.leb_le in H.
  rewrite !length_app, length_firstn, length_skipn. lia.
Qed.

Lemma set_bytes target source offset :
  bytes target -> bytes source -> bytes (JS.set target source offset).
Proof.
  unfold JS.set, bytes. intros Ht Hs.
  apply Forall_app; split; [apply Forall_firstn, Ht|].
  apply Forall_app; split; [exact Hs | apply Forall_skipn, Ht].
Qed.

(** [store] at the position after [pre]. *)
Lemma store_app pre x post v :
  JS.store (pre ++ x :: post) (JS.len pre) v = pre ++ JS.ToUint8 v :: post.
Proof.
  unfold JS.store. pose proof (len_nonneg pre).
  rewrite len_app, len_cons. pose proof (len_nonneg post).
  replace ((0 <=? JS.len pre) && (JS.len pre <? JS.len pre + (1 + JS.len post))) with true
    by (symmetry; apply andb_true_iff; split; [apply Z.leb_le | apply Z.ltb_lt]; lia).
  unfold JS.len. rewrite Nat2Z.id, firstn_exact.
  replace (S (length pre)) with (length pre + 1)%nat by lia.
  rewrite skipn_exact. reflexivity.
Qed.

Lemma store_length buf i v : length (JS.store buf i v) = length buf.
Proof.
  unfold JS.store.
  destruct ((0 <=? i) && (i <? JS.len buf)) eqn:E; [|reflexivity].
  apply andb_true_iff in E. destruct E as [E1 E2].
  apply Z.leb_le in E1. apply Z.ltb_lt in E2. unfold JS.len in E2.
  rewrite length_app. cbn [length]. rewrite length_firstn, length_skipn. lia.
Qed.

Lemma store_bytes buf i v : bytes buf -> bytes (JS.store buf i v).
Proof.
  unfold JS.store, bytes. intros H.
  destruct ((0 <=? i) && (i <? JS.len buf)); [|exact H].
  apply Forall_app; split; [apply Forall_firstn, H|].
  constructor; [apply ToUint8_byte | apply Forall_skipn, H].
Qed.

(** [a[i]] inside a concatenation. *)
Lemma get_app_l a b i : 0 <= i < JS.len a -> (a ++ b).[i] = a.[i].
Proof.
  unfold JS.get, JS.len. intros H.
  destruct (Z.ltb_spec i 0); [lia|]. apply app_nth1. lia.
Qed.

Lemma get_app_r a b i : JS.len a <= i -> (a ++ b).[i] = b.[i - JS.len a].
Proof.
  unfold JS.get, JS.len. intros H.
  destruct (Z.ltb_spec i 0); [lia|].
  destruct (Z.ltb_spec (i - Z.of_nat (length a)) 0); [lia|].
  rewrite app_nth2 by lia. f_equal. lia.
Qed.

Lemma get_cons_0 x l : (x :: l).[0] = x.
Proof. reflexivity. Qed.

Lemma get_cons_S x l i : 0 < i -> (x :: l).[i] = l.[i - 1].
Proof.
  intros H. change (x :: l) with ([x] ++ l). rewrite get_app_r by (cbn; lia).
  reflexivity.
Qed.

Lemma get_bytes l i : bytes l -> byte l.[i].
Proof.
  unfold JS.get. intros H. destruct (i <? 0); [unfold byte; lia|].
  destruct (Nat.lt_ge_cases (Z.to_nat i) (length l)) as [Hlt | Hge].
  - unfold bytes in H. rewrite Forall_forall in H. apply H, nth_In, Hlt.
  - rewrite nth_overflow by exact Hge. unfold byte. lia.
Qed.

(** [slice] of the middle part of a concatenation. *)
Lemma slice_app pre mid post :
  JS.slice (pre ++ mid ++ post) (JS.len pre) (JS.len pre + JS.len mid) = mid.
Proof.
  unfold JS.slice. pose proof (len_nonneg pre). pose proof (len_nonneg mid).
  pose proof (len_nonneg post). rewrite !len_app.
  destruct (Z.ltb_spec (JS.len pre) 0); [lia|].
  destruct (Z.ltb_spec (JS.len pre + JS.len mid) 0); [lia|].
  rewrite !Z.min_l by lia.
  replace (JS.len pre + JS.len mid - JS.len pre) with (JS.len mid) by lia.
  unfold JS.len. rewrite !Nat2Z.id.
  rewrite skipn_exact0, firstn_exact. reflexivity.
Qed.

Lemma slice_length_le buf a b : a <= b -> JS.len (JS.slice buf a b) <= b - a.
Proof.
  intros H. unfold JS.slice. pose proof (len_nonneg buf).
  set (k := if a <? 0 then _ else _). set (final := if b <? 0 then _ else _).
  assert (Hk : 0 <= k <= JS.len buf)
    by (unfold k; destruct (Z.ltb_spec a 0); lia).
  assert (Hf : final - k <= b - a)
    by (unfold k, final; destruct (Z.ltb_spec a 0), (Z.ltb_spec b 0); lia).
  unfold JS.len. rewrite length_firstn.
  pose proof (Nat.le_min_l (Z.to_nat (final - k)) (length (skipn (Z.to_nat k) buf))).
  lia.
Qed.

Lemma slice_bytes buf a b : bytes buf -> bytes (JS.slice buf a b).
Proof. unfold JS.slice, bytes. intros H. apply Forall_firstn, Forall_skipn, H. Qed.

(** A prefix that reaches the end of a short array is the whole array. *)
Lemma slice_0_all buf n : JS.len buf <= n -> JS.slice buf 0 n = buf.
Proof.
  intros H. unfold JS.slice. pose proof (len_nonneg buf).
  destruct (Z.ltb_spec n 0); [lia|]. cbn [Z.ltb Z.compare].
  rewrite (Z.min_l 0), (Z.min_r n) by lia. rewrite Z.sub_0_r. cbn [Z.to_nat skipn].
  unfold JS.len. rewrite Nat2Z.id. apply firstn_all.
Qed.

Lemma slice_0_firstn buf n : 0 <= n -> JS.slice buf 0 n = firstn (Z.to_nat n) buf.
Proof.
  intros H. unfold JS.slice. pose proof (len_nonneg buf).
  destruct (Z.ltb_spec n 0); [lia|]. cbn [Z.ltb Z.compare].
  rewrite (Z.min_l 0) by lia. rewrite Z.sub_0_r. cbn [Z.to_nat skipn].
  destruct (Z.le_ge_cases n (JS.len buf)).
  - rewrite Z.min_l by lia. reflexivity.
  - rewrite Z.min_r by lia. unfold JS.len in *. rewrite Nat2Z.id.
    rewrite firstn_all. symmetry. apply firstn_all2. lia.
Qed.

Lemma zrange_length lo hi : length (JS.zrange lo hi) = Z.to_nat (hi - lo).
Proof. unfold JS.zrange. rewrite length_map, length_seq. reflexivity. Qed.

Lemma zrange_In lo hi i : In i (JS.zrange lo hi) <-> lo <= i < hi.
Proof.
  unfold JS.zrange. rewrite in_map_iff. split.
  - intros [k [<- Hk]]. apply in_seq in Hk. lia.
  - intros H. exists (Z.to_nat (i - lo)). split; [lia|]. apply in_seq. lia.
Qed.

Lemma zrange_empty lo hi : hi <= lo -> JS.zrange lo hi = [].
Proof. intros H. unfold JS.zrange. replace (Z.to_nat (hi - lo)) with 0%nat by lia. reflexivity. Qed.

Lemma zrange_cons lo hi : lo < hi -> JS.zrange lo hi = lo :: JS.zrange (lo + 1) hi.
Proof.
  intros H. unfold JS.zrange.
  replace (Z.to_nat (hi - lo)) with (S (Z.to_nat (hi - (lo + 1)))) by lia.
  cbn [seq map]. f_equal; [lia|].
  rewrite <- seq_shift, map_map. apply map_ext. intros k. lia.
Qed.

Lemma zrange_snoc lo hi : lo <= hi -> JS.zrange lo (hi + 1) = JS.zrange lo hi ++ [hi].
Proof.
  intros H. unfold JS.zrange.
  replace (Z.to_nat (hi + 1 - lo)) with (Z.to_nat (hi - lo) + 1)%nat by lia.
  rewrite seq_app, map_app. cbn [seq map]. f_equal. f_equal. lia.
Qed.

End ArrayFacts.

(** * Vendor padding *)

Module PaddingFacts.
Import ArrayFacts BytesFacts PadAux.

Lemma padLenOf_range L : 1 <= padLenOf L <= 8.
Proof.
  unfold padLenOf. pose proof (Z.mod_pos_bound L 8).
  destruct (Z.eqb_spec (L mod 8) 0); lia.
Qed.

(** The padded array written out: the data, zero bytes, and the remainder. *)
Lemma addYamahaPadding_eq data :
  addYamahaPadding data =
  data ++ JS.zeros (padLenOf (JS.len data) - 1) ++ [JS.len data mod 8].
Proof.
  unfold addYamahaPadding. pose proof (len_nonneg data) as HL.
  rewrite Z.rem_mod_nonneg by lia. fold (padLenOf (JS.len data)).
  pose proof (padLenOf_range (JS.len data)) as Hp.
  set (p := padLenOf (JS.len data)) in *.
  assert (Hz : JS.zeros (JS.len data + p)
               = JS.zeros (JS.len data) ++ JS.zeros (p - 1) ++ [0]).
  { replace (JS.len data + p) with (JS.len data + ((p - 1) + 1)) by lia.
    rewrite !zeros_add by lia. reflexivity. }
  rewrite Hz. rewrite set_app_0 by (rewrite length_zeros; unfold JS.len; lia).
  replace (JS.len (data ++ JS.zeros (p - 1) ++ [0]) - 1) with (JS.len (data ++ JS.zeros (p - 1)))
    by (rewrite !len_app, len_cons, len_nil; lia).
  rewrite app_assoc, store_app, <- app_assoc.
  rewrite ToUint8_small by (pose proof (Z.mod_pos_bound (JS.len data) 8); unfold byte; lia).
  reflexivity.
Qed.

Lemma addYamahaPadding_len data :
  JS.len (addYamahaPadding data) = JS.len data + padLenOf (JS.len data).
Proof.
  rewrite addYamahaPadding_eq. pose proof (padLenOf_range (JS.len data)).
  rewrite !len_app, len_zeros, len_cons, len_nil by lia. lia.
Qed.

Lemma addYamahaPadding_len_blocks data :
  JS.len (addYamahaPadding data) = 8 * (JS.len data / 8 + 1).
Proof.
  rewrite addYamahaPadding_len. unfold padLenOf.
  pose proof (Z.div_mod (JS.len data) 8). pose proof (Z.mod_pos_bound (JS.len data) 8).
  destruct (Z.eqb_spec (JS.len data mod 8) 0); lia.
Qed.

Lemma addYamahaPadding_bytes data : bytes data -> bytes (addYamahaPadding data).
Proof.
  intros H. rewrite addYamahaPadding_eq.
  apply bytes_app; split; [exact H|]. apply bytes_app; split; [apply zeros_bytes|].
  constructor; [|constructor]. pose proof (Z.mod_pos_bound (JS.len data) 8). unfold byte. lia.
Qed.

End PaddingFacts.


(** * CBC chaining *)

Module CbcFacts.
Import ArrayFacts BytesFacts PaddingFacts.

Lemma for_loop_invariant {S} (P : S -> Prop) lo hi (body : Z -> S -> S) s :
  P s -> (forall i st, lo <= i < hi -> P st -> P (body i st)) ->
  P (JS.for_loop lo hi body s).
Proof.
  intros Hs Hbody. unfold JS.for_loop.
  assert (Hin : forall i, In i (JS.zrange lo hi) -> lo <= i < hi)
    by (intros i; apply zrange_In).
  revert s Hs. induction (JS.zrange lo hi) as [|i l IH]; intros s Hs; [exact Hs|].
  cbn [fold_left]. apply IH.
  - intros j Hj. apply Hin. right. exact Hj.
  - apply Hbody; [apply Hin; left; reflexivity | exact Hs].
Qed.

Lemma blockCount_spec L : 0 <= L -> Z.of_nat (blockCount L) = (L + 7) / 8.
Proof.
  intros H. unfold blockCount. rewrite Z2Nat.id; [reflexivity|].
  apply Z.div_pos; lia.
Qed.

Lemma blockCount_whole L :
  0 <= L -> L mod 8 = 0 -> 8 * Z.of_nat (blockCount L) = L.
Proof.
  intros H Hm. rewrite blockCount_spec by exact H.
  Z.div_mod_to_equations. lia.
Qed.

Lemma blockCount_partial L :
  0 <= L -> L mod 8 <> 0 -> blockCount L <> 0%nat /\ L < 8 * Z.of_nat (blockCount L).
Proof.
  intros H Hm. pose proof (blockCount_spec L H) as Hb.
  split; [intros E; rewrite E in Hb; cbn in Hb|rewrite Hb];
    Z.div_mod_to_equations; lia.
Qed.

(** With room for [n] more blocks the loop ends normally and leaves the
    length of the output buffer alone. *)
Lemma cbcLoop_ok cipher n data i encrypted prevBlock :
  (forall block, length (cipher block) = 8%nat) ->
  0 <= i -> i + 8 * Z.of_nat n <= JS.len encrypted ->
  (n <> 0%nat -> 8 <= JS.len prevBlock) ->
  exists out, cbcLoop cipher n data i encrypted prevBlock = inr out
              /\ length out = length encrypted.
Proof.
  intros Hc. revert i encrypted prevBlock.
  induction n as [|n IH]; intros i encrypted prevBlock Hi Hroom Hprev.
  - exists encrypted. split; reflexivity.
  - cbn [cbcLoop]. set (block := JS.for_loop 0 8 _ _).
    assert (Hf1 : JS.set_fits encrypted (cipher block) i = true).
    { unfold JS.set_fits. apply Z.leb_le. unfold JS.len at 1. rewrite Hc. lia. }
    assert (Hf2 : JS.set_fits prevBlock (cipher block) 0 = true).
    { unfold JS.set_fits. apply Z.leb_le. unfold JS.len at 1. rewrite Hc.
      specialize (Hprev ltac:(discriminate)). lia. }
    rewrite Hf1, Hf2.
    destruct (IH (i + 8) (JS.set encrypted (cipher block) i)
                (JS.set prevBlock (cipher block) 0)) as [out [Hout Hlen]].
    + lia.
    + unfold JS.len. rewrite set_length by (assumption || lia).
      unfold JS.len in Hroom. lia.
    + intros _. unfold JS.len. rewrite set_length by (assumption || lia).
      specialize (Hprev ltac:(discriminate)). unfold JS.len in Hprev. lia.
    + exists out. split; [exact Hout|].
      rewrite Hlen. apply set_length; [exact Hf1 | exact Hi].
Qed.

(** Without room for the last block a [set] raises. *)
Lemma cbcLoop_overflow cipher n data i encrypted prevBlock :
  (forall block, length (cipher block) = 8%nat) ->
  n <> 0%nat -> 0 <= i -> JS.len encrypted < i + 8 * Z.of_nat n ->
  cbcLoop cipher n data i encrypted prevBlock = inl JS.RangeError.
Proof.
  intros Hc. revert i encrypted prevBlock.
  induction n as [|n IH]; intros i encrypted prevBlock Hn Hi Hroom; [congruence|].
  cbn [cbcLoop]. set (block := JS.for_loop 0 8 _ _).
  destruct (JS.set_fits encrypted (cipher block) i) eqn:Hf1; [|reflexivity].
  destruct (JS.set_fits prevBlock (cipher block) 0) eqn:Hf2; [|reflexivity].
  pose proof Hf1 as Hf1'. unfold JS.set_fits in Hf1'. apply Z.leb_le in Hf1'.
  unfold JS.len at 1 in Hf1'. rewrite Hc in Hf1'.
  apply IH.
  - intros ->. lia.
  - lia.
  - unfold JS.len. rewrite set_length by assumption.
    unfold JS.len in Hroom. lia.
Qed.

End CbcFacts.


Module CipherFacts.
Import ArrayFacts BytesFacts PaddingFacts CbcFacts BlockFacts.

(** On whole blocks, with a chaining block of 8 bytes or more, the
    encryption returns as many bytes as it was given. *)
Lemma encryptDES_CBC_ok data keyBytes iv :
  JS.len data mod 8 = 0 -> 8 <= JS.len iv ->
  exists out, encryptDES_CBC data keyBytes iv = inr out /\ JS.len out = JS.len data.
Proof.
  intros Hm Hiv. unfold encryptDES_CBC. pose proof (len_nonneg data) as HL.
  pose proof (blockCount_whole (JS.len data) HL Hm) as Hn.
  destruct (cbcLoop_ok (fun block => DES.desBlock block
                          (DES.generateSubKeys (DES.msbParity keyBytes)))
              (blockCount (JS.len data)) data 0 (JS.zeros (JS.len data)) iv)
    as [out [Hout Hlen]].
  - intros block. apply desBlock_length.
  - lia.
  - rewrite len_zeros by lia. lia.
  - intros _. exact Hiv.
  - exists out. split; [exact Hout|].
    unfold JS.len at 1. rewrite Hlen, length_zeros. lia.
Qed.

Lemma tripleDesEncryptCBC_ok data key24 :
  JS.len data mod 8 = 0 ->
  exists out, tripleDesEncryptCBC data key24 = inr out /\ JS.len out = JS.len data.
Proof.
  intros Hm. unfold tripleDesEncryptCBC. pose proof (len_nonneg data) as HL.
  pose proof (blockCount_whole (JS.len data) HL Hm) as Hn.
  match goal with
  | |- context [cbcLoop ?c ?n ?d ?i ?e ?p] =>
      destruct (cbcLoop_ok c n d i e p) as [out [Hout Hlen]]
  end.
  - intros block. cbv zeta. apply desBlock_length.
  - lia.
  - rewrite len_zeros by lia. lia.
  - intros _. rewrite len_zeros by lia. lia.
  - exists out. split; [exact Hout|].
    unfold JS.len at 1. rewrite Hlen, length_zeros. lia.
Qed.

(** A trailing partial block makes the encryption raise. *)
Lemma encryptDES_CBC_partial data keyBytes iv :
  JS.len data mod 8 <> 0 -> encryptDES_CBC data keyBytes iv = inl JS.RangeError.
Proof.
  intros Hm. unfold encryptDES_CBC. pose proof (len_nonneg data) as HL.
  destruct (blockCount_partial (JS.len data) HL Hm) as [Hn0 Hn].
  apply cbcLoop_overflow.
  - intros block. apply desBlock_length.
  - exact Hn0.
  - lia.
  - rewrite len_zeros by lia. lia.
Qed.

End CipherFacts.

(** * The chunk builder *)

Module ChunkFacts.
Import ArrayFacts BytesFacts ChunkAux.

Lemma tagBytes_length id : length (tagBytes id) = 4%nat.
Proof.
  unfold tagBytes. cbv zeta.
  pose proof (slice_length_le (Text.encode id) 0 4 ltac:(lia)) as H.
  pose proof (len_nonneg (JS.slice (Text.encode id) 0 4)) as H0.
  rewrite length_app, length_zeros. unfold JS.len in *. lia.
Qed.

Lemma be32_length v : length (be32 v) = 4%nat.
Proof. reflexivity. Qed.

Lemma be32_bytes v : bytes (be32 v).
Proof. unfold be32. repeat constructor; apply ToUint8_byte. Qed.

Lemma store_app_at pre x post v i :
  i = JS.len pre -> JS.store (pre ++ x :: post) i v = pre ++ JS.ToUint8 v :: post.
Proof. intros ->. apply store_app. Qed.

Lemma snoc_cons {A} (pre : list A) x post : pre ++ x :: post = (pre ++ [x]) ++ post.
Proof. rewrite <- app_assoc. reflexivity. Qed.

Lemma writeUint32BE_app pre a b c d post value :
  writeUint32BE (pre ++ a :: b :: c :: d :: post) (JS.len pre) value
  = pre ++ be32 value ++ post.
Proof.
  unfold writeUint32BE, be32.
  rewrite store_app, snoc_cons.
  rewrite store_app_at by (rewrite len_app, len_cons, len_nil; lia).
  rewrite snoc_cons.
  rewrite store_app_at by (rewrite !len_app, !len_cons, !len_nil; lia).
  rewrite snoc_cons.
  rewrite store_app_at by (rewrite !len_app, !len_cons, !len_nil; lia).
  rewrite <- !app_assoc. reflexivity.
Qed.

(** The bytes of a chunk: tag, big-endian length, payload. *)
Lemma buildChunk_eq id data :
  buildChunk id data = tagBytes id ++ be32 (JS.len data) ++ data.
Proof.
  unfold buildChunk. pose proof (len_nonneg data) as HL.
  set (t := JS.slice (Text.encode id) 0 4).
  assert (Ht : 0 <= JS.len t <= 4).
  { split; [apply len_nonneg|]. apply (slice_length_le (Text.encode id) 0 4). lia. }
  assert (Hz : JS.zeros (8 + JS.len data)
               = JS.zeros (JS.len t) ++ JS.zeros (4 - JS.len t)
                   ++ [0; 0; 0; 0] ++ JS.zeros (JS.len data)).
  { replace (8 + JS.len data) with (JS.len t + ((4 - JS.len t) + (4 + JS.len data))) by lia.
    rewrite !zeros_add by lia. reflexivity. }
  rewrite Hz. rewrite set_app_0 by (rewrite length_zeros; unfold JS.len; lia).
  rewrite app_assoc. fold t. fold (tagBytes id).
  assert (H4 : JS.len (tagBytes id) = 4)
    by (unfold JS.len; rewrite tagBytes_length; reflexivity).
  match goal with
  | |- context [writeUint32BE ?b 4 ?v] =>
      replace (writeUint32BE b 4 v) with (writeUint32BE b (JS.len (tagBytes id)) v)
        by (rewrite H4; reflexivity)
  end.
  cbn [app]. rewrite writeUint32BE_app.
  match goal with
  | |- JS.set ?b ?d 8 = _ =>
      replace (JS.set b d 8)
        with (JS.set b d (JS.len (tagBytes id ++ be32 (JS.len data))))
        by (rewrite len_app, H4; reflexivity)
  end.
  rewrite app_assoc.
  rewrite <- (app_nil_r (JS.zeros (JS.len data))).
  rewrite set_app by (rewrite length_zeros; unfold JS.len; lia).
  rewrite app_nil_r, <- app_assoc. reflexivity.
Qed.

Lemma buildChunk_len id data : JS.len (buildChunk id data) = 8 + JS.len data.
Proof.
  rewrite buildChunk_eq, !len_app. unfold JS.len at 1 2.
  rewrite tagBytes_length, be32_length. lia.
Qed.

(** The two [set] calls of [buildChunk] always fit their target. *)
Lemma buildChunk_sets_fit id data :
  let buf := JS.zeros (8 + JS.len data) in
  JS.set_fits buf (JS.slice (Text.encode id) 0 4) 0 = true
  /\ JS.set_fits buf data 8 = true.
Proof.
  cbv zeta. unfold JS.set_fits. pose proof (len_nonneg data).
  rewrite len_zeros by lia.
  pose proof (slice_length_le (Text.encode id) 0 4 ltac:(lia)).
  split; apply Z.leb_le; lia.
Qed.

End ChunkFacts.


(** * Device-lock key derivation *)

Module LockFacts.
Import ArrayFacts BytesFacts PaddingFacts CbcFacts BlockFacts CipherFacts ChunkFacts.
Import ChunkAux LockAux WordFacts.

Lemma utf8Bytes_nonempty cp : Text.utf8Bytes cp <> [].
Proof.
  unfold Text.utf8Bytes.
  destruct (cp <? 128); [discriminate|].
  destruct (cp <? 2048); [discriminate|].
  destruct (cp <? 65536); discriminate.
Qed.

Lemma toScalars_nonempty c s : Text.toScalars (c :: s) <> [].
Proof.
  cbn [Text.toScalars].
  destruct (Text.isHigh c).
  - destruct s as [|d r]; [discriminate|]. destruct (Text.isLow d); discriminate.
  - destruct (Text.isLow c); discriminate.
Qed.

(** Only the empty string encodes to no bytes. *)
Lemma encode_empty_iff s : Text.encode s = [] <-> s = [].
Proof.
  split; [|intros ->; reflexivity].
  destruct s as [|c s]; [reflexivity|]. intros H. exfalso.
  unfold Text.encode in H.
  destruct (Text.toScalars (c :: s)) as [|cp cps] eqn:E.
  - exact (toScalars_nonempty c s E).
  - cbn [flat_map] in H. apply app_eq_nil in H. destruct H as [H _].
    exact (utf8Bytes_nonempty cp H).
Qed.

(** Filling a zeroed array cell by cell, in order. *)
Lemma store_loop (f : Z -> Z) n :
  0 <= n ->
  JS.for_loop 0 n (fun j a => JS.store a j (f j)) (JS.zeros n)
  = map (fun j => JS.ToUint8 (f j)) (JS.zrange 0 n).
Proof.
  intros Hn. unfold JS.for_loop.
  assert (H : forall k : nat, Z.of_nat k <= n ->
            fold_left (fun st i => JS.store st i (f i)) (JS.zrange 0 (Z.of_nat k)) (JS.zeros n)
            = map (fun j => JS.ToUint8 (f j)) (JS.zrange 0 (Z.of_nat k))
                ++ JS.zeros (n - Z.of_nat k)).
  { induction k as [|k IH]; intros Hk.
    - cbn. rewrite Z.sub_0_r. reflexivity.
    - rewrite Nat2Z.inj_succ, <- Z.add_1_r.
      rewrite zrange_snoc by lia. rewrite fold_left_app, map_app. cbn [fold_left map].
      rewrite IH by lia.
      replace (n - Z.of_nat k) with (1 + (n - (Z.of_nat k + 1))) by lia.
      rewrite zeros_add by lia. change (JS.zeros 1) with [0]. cbn [app].
      rewrite store_app_at.
      + rewrite <- app_assoc. reflexivity.
      + unfold JS.len. rewrite length_map, zrange_length. lia. }
  specialize (H (Z.to_nat n)). rewrite Z2Nat.id in H by lia.
  rewrite H by lia. rewrite Z.sub_diag. apply app_nil_r.
Qed.

Lemma get_map_zrange (g : Z -> Z) n j :
  0 <= j < n -> (map g (JS.zrange 0 n)).[j] = g j.
Proof.
  intros H. unfold JS.get. destruct (Z.ltb_spec j 0); [lia|].
  unfold JS.zrange. rewrite map_map.
  rewrite nth_indep with (d' := g (0 + Z.of_nat 0))
    by (rewrite length_map, length_seq; lia).
  rewrite (map_nth (fun k => g (0 + Z.of_nat k)) (seq 0 (Z.to_nat (n - 0))) 0%nat).
  rewrite seq_nth by lia. f_equal. lia.
Qed.

Lemma and_255_stored v : JS.ToUint8 (v .& 0xFF) = v mod 256.
Proof.
  rewrite byte0. unfold JS.ToUint32. apply Z.mod_mod_divide.
  exists (2 ^ 24). reflexivity.
Qed.

(** The second block, byte by byte. *)
Lemma secondDataOf_get keySlot firstData j :
  0 <= j < 16 ->
  (secondDataOf keySlot firstData).[j] = (keySlot.[j] + firstData.[15 - j]) mod 256.
Proof.
  intros H. unfold secondDataOf.
  rewrite (store_loop (fun j => (keySlot.[j] + firstData.[15 - j]) .& 0xFF)) by lia.
  rewrite get_map_zrange by exact H. apply and_255_stored.
Qed.

Lemma secondDataOf_length keySlot firstData :
  length (secondDataOf keySlot firstData) = 16%nat.
Proof.
  unfold secondDataOf.
  rewrite (store_loop (fun j => (keySlot.[j] + firstData.[15 - j]) .& 0xFF)) by lia.
  rewrite length_map, zrange_length. reflexivity.
Qed.

Lemma len_0_nil {A} (l : list A) : JS.len l = 0 -> l = [].
Proof. destruct l; [reflexivity|]. unfold JS.len. cbn [length]. lia. Qed.

Lemma srcOf_empty id : JS.len (srcOf id) = 0 <-> idEmpty id = true.
Proof.
  destruct id as [s | b]; cbn [srcOf idEmpty].
  - split.
    + intros H. apply len_0_nil in H. apply (proj1 (encode_empty_iff s)) in H.
      subst. reflexivity.
    + destruct s; [reflexivity | discriminate].
  - split.
    + intros H. apply len_0_nil in H. subst. reflexivity.
    + destruct b; [reflexivity | discriminate].
Qed.

Lemma keyDerivation_None id : keyDerivation id = None <-> idEmpty id = true.
Proof.
  rewrite <- srcOf_empty. unfold keyDerivation. fold (srcOf id). cbv zeta.
  destruct (Z.eqb_spec (JS.len (srcOf id)) 0) as [E | E].
  - split; auto.
  - split; [|contradiction].
    destruct (_ >=? 16); discriminate.
Qed.

Lemma keyDerivation_Some id :
  idEmpty id = false ->
  exists keySlot, keyDerivation id = Some keySlot
                  /\ length keySlot = 16%nat /\ bytes keySlot.
Proof.
  intros Hne.
  assert (E : JS.len (srcOf id) <> 0).
  { intros H. apply srcOf_empty in H. congruence. }
  unfold keyDerivation. fold (srcOf id). cbv zeta.
  destruct (Z.eqb_spec (JS.len (srcOf id)) 0) as [E' | _]; [contradiction|].
  set (P := fun l : list Z => length l = 16%nat /\ bytes l).
  assert (P0 : P (JS.zeros 16)) by (split; [reflexivity | apply zeros_bytes]).
  assert (Pstore : forall l i v, P l -> P (JS.store l i v)).
  { intros l i v [Hl Hb]. split; [rewrite store_length; exact Hl | apply store_bytes, Hb]. }
  destruct (_ >=? 16); eexists; (split; [reflexivity|]).
  - apply (for_loop_invariant P); [exact P0|]. intros; apply Pstore; assumption.
  - apply (for_loop_invariant P); [|intros; apply Pstore; assumption].
    apply (for_loop_invariant P); [exact P0|]. intros; apply Pstore; assumption.
Qed.

Lemma getRandomValues_length n rng : length (fst (JS.getRandomValues n rng)) = n.
Proof. cbn. rewrite length_map, length_seq. reflexivity. Qed.

Lemma csecPlaintextOf_len airi aivf :
  JS.len (csecPlaintextOf airi aivf) = 34 + JS.len airi + JS.len aivf.
Proof.
  unfold csecPlaintextOf, concatArrays. cbn [concat].
  repeat (rewrite len_app || rewrite buildChunk_len || rewrite len_nil).
  change (JS.len [0; 1]) with 2. change (JS.len (@nil Z)) with 0. lia.
Qed.

(** What a successful call of [generateLockedCSEC] computes. *)
Lemma generateLockedCSEC_ok id rng keySlot :
  keyDerivation id = Some keySlot ->
  let firstData := fst (JS.getRandomValues 16 rng) in
  exists airi aivf blob,
    encryptDES_CBC (addYamahaPadding firstData) DES_KEY_DUALSEAL DES_IV = inr airi
    /\ JS.len airi = 24
    /\ tripleDesEncryptCBC (secondDataOf keySlot firstData) (keyExpansion keySlot) = inr aivf
    /\ JS.len aivf = 16
    /\ encryptDES_CBC (addYamahaPadding (csecPlaintextOf airi aivf)) DES_KEY DES_IV = inr blob
    /\ JS.len blob = 80
    /\ generateLockedCSEC id rng = (inr blob, snd (JS.getRandomValues 16 rng)).
Proof.
  intros Hk. cbv zeta. unfold generateLockedCSEC. rewrite Hk.
  destruct (JS.getRandomValues 16 rng) as [firstData rng'] eqn:Er.
  cbn [fst snd].
  assert (Hfd : JS.len firstData = 16).
  { pose proof (getRandomValues_length 16 rng) as H. rewrite Er in H. cbn [fst] in H.
    unfold JS.len. rewrite H. reflexivity. }
  destruct (encryptDES_CBC_ok (addYamahaPadding firstData) DES_KEY_DUALSEAL DES_IV)
    as [airi [Ha La]].
  { rewrite addYamahaPadding_len_blocks, Hfd. reflexivity. }
  { reflexivity. }
  rewrite addYamahaPadding_len_blocks, Hfd in La. change (8 * (16 / 8 + 1)) with 24 in La.
  destruct (tripleDesEncryptCBC_ok (secondDataOf keySlot firstData) (keyExpansion keySlot))
    as [aivf [Hv Lv]].
  { unfold JS.len. rewrite secondDataOf_length. reflexivity. }
  unfold JS.len at 2 in Lv. rewrite secondDataOf_length in Lv. change (Z.of_nat 16) with 16 in Lv.
  destruct (encryptDES_CBC_ok (addYamahaPadding (csecPlaintextOf airi aivf)) DES_KEY DES_IV)
    as [blob [Hb Lb]].
  { rewrite addYamahaPadding_len_blocks, csecPlaintextOf_len, La, Lv. reflexivity. }
  { reflexivity. }
  rewrite addYamahaPadding_len_blocks, csecPlaintextOf_len, La, Lv in Lb.
  change (8 * ((34 + 24 + 16) / 8 + 1)) with 80 in Lb.
  exists airi, aivf, blob. repeat split; try assumption.
  rewrite Ha. cbn [JS.bind]. rewrite Hv. cbn [JS.bind]. rewrite Hb. reflexivity.
Qed.

End LockFacts.


(** * Container assembly *)

Module CpiFacts.
Import ArrayFacts BytesFacts PaddingFacts CbcFacts BlockFacts CipherFacts ChunkFacts.
Import ChunkAux LockAux LockFacts CpiAux.

Lemma payload_encrypts packData :
  exists payloadEncrypted,
    encryptDES_CBC (addYamahaPadding (payloadRaw packData)) DES_KEY DES_IV
      = inr payloadEncrypted
    /\ JS.len payloadEncrypted = 8 * (JS.len (payloadRaw packData) / 8 + 1).
Proof.
  destruct (encryptDES_CBC_ok (addYamahaPadding (payloadRaw packData)) DES_KEY DES_IV)
    as [enc [He Hl]].
  - rewrite addYamahaPadding_len_blocks.
    rewrite Z.mul_comm. apply Z.mod_mul. lia.
  - reflexivity.
  - exists enc. split; [exact He|]. rewrite Hl. apply addYamahaPadding_len_blocks.
Qed.

Lemma writeUint32BE_fresh value : writeUint32BE (JS.zeros 4) 0 value = be32 value.
Proof.
  pose proof (writeUint32BE_app [] 0 0 0 0 [] value) as H.
  cbn [app] in H. rewrite app_nil_r in H. exact H.
Qed.

Lemma header_eq modelName packInstallId :
  buildContainerChunk (Text.lit "XPIH")
    [ buildTextChunk (Text.lit "XMDL") modelName;
      buildChunk (Text.lit "XPID") (writeUint32BE (JS.zeros 4) 0 packInstallId) ]
  = headerBytes modelName packInstallId.
Proof.
  unfold buildContainerChunk, buildTextChunk, concatArrays, headerBytes.
  cbn [concat]. rewrite app_nil_r, writeUint32BE_fresh, !buildChunk_eq.
  reflexivity.
Qed.

Lemma csecChunk_eq :
  buildChunk (Text.lit "CSEC") CSEC_ENCRYPTED
  = Text.lit "CSEC" ++ [0; 0; 0; 80] ++ CSEC_ENCRYPTED.
Proof. rewrite buildChunk_eq. reflexivity. Qed.

(** Without a usable device identifier the constant blob is embedded and the
    random source is not touched. *)
Lemma buildEncryptedCPI_standard packData modelName packInstallId deviceFullId rng :
  truthyId deviceFullId = false ->
  exists payloadEncrypted,
    encryptDES_CBC (addYamahaPadding (payloadRaw packData)) DES_KEY DES_IV
      = inr payloadEncrypted
    /\ JS.len payloadEncrypted = 8 * (JS.len (payloadRaw packData) / 8 + 1)
    /\ buildEncryptedCPI packData modelName packInstallId deviceFullId rng
       = (inr (headerBytes modelName packInstallId
                 ++ (Text.lit "CSEC" ++ [0; 0; 0; 80] ++ CSEC_ENCRYPTED)
                 ++ payloadEncrypted), rng).
Proof.
  intros Hf. destruct (payload_encrypts packData) as [enc [He Hl]].
  exists enc. split; [exact He|]. split; [exact Hl|].
  unfold buildEncryptedCPI. rewrite header_eq.
  assert (Hc : match deviceFullId with
               | Some id => if truthyId deviceFullId then generateLockedCSEC id rng
                            else (inr CSEC_ENCRYPTED, rng)
               | None => (inr CSEC_ENCRYPTED, rng)
               end = (inr CSEC_ENCRYPTED, rng)).
  { destruct deviceFullId; [rewrite Hf|]; reflexivity. }
  rewrite Hc. cbn [JS.bind]. rewrite He. cbn [JS.bind].
  rewrite csecChunk_eq. unfold concatArrays. cbn [concat]. rewrite app_nil_r.
  reflexivity.
Qed.

(** With a usable identifier the call succeeds whenever the key derivation does. *)
Lemma buildEncryptedCPI_locked packData modelName packInstallId id rng :
  truthyId (Some id) = true -> idEmpty id = false ->
  exists out,
    fst (buildEncryptedCPI packData modelName packInstallId (Some id) rng) = inr out.
Proof.
  intros Ht Hne. destruct (keyDerivation_Some id Hne) as [keySlot [Hk _]].
  destruct (generateLockedCSEC_ok id rng keySlot Hk)
    as (airi & aivf & blob & _ & _ & _ & _ & _ & _ & Hg).
  destruct (payload_encrypts packData) as [enc [He _]].
  unfold buildEncryptedCPI. rewrite Ht, Hg. cbn [JS.bind]. rewrite He. cbn [JS.bind fst].
  eexists. reflexivity.
Qed.

End CpiFacts.


(** * The chunk reader *)

Module ReadFacts.
Import ArrayFacts BytesFacts ChunkFacts ChunkAux ReadAux.

Lemma readUint32BE_range buf offset : 0 <= readUint32BE buf offset < 2 ^ 32.
Proof. unfold readUint32BE. rewrite JSFacts.shru_0. apply JSFacts.ToUint32_range. Qed.

Lemma skipLoop_bounds n buf pos :
  pos <= skipLoop n buf pos <= pos + Z.of_nat n.
Proof.
  revert pos. induction n as [|n IH]; intros pos; cbn [skipLoop]; [lia|].
  destruct (isKnownTag buf pos); [lia|]. specialize (IH (pos + 1)). lia.
Qed.

(** Where the scan stops: at a recognized tag or after [n] positions, with
    no recognized tag before. *)
Lemma skipLoop_spec n buf pos :
  let r := skipLoop n buf pos in
  (isKnownTag buf r = true \/ r = pos + Z.of_nat n)
  /\ forall p, pos <= p < r -> isKnownTag buf p = false.
Proof.
  revert pos. induction n as [|n IH]; intros pos; cbn [skipLoop]; cbv zeta.
  - split; [right; lia | intros p Hp; lia].
  - destruct (isKnownTag buf pos) eqn:E.
    + split; [left; exact E | intros p Hp; lia].
    + destruct (IH (pos + 1)) as [H1 H2]. split.
      * destruct H1 as [H1 | H1]; [left; exact H1 | right; lia].
      * intros p Hp. destruct (Z.eq_dec p pos) as [-> | Hne]; [exact E|].
        apply H2. lia.
Qed.

Lemma skipToNextTag_bounds buf pos end_ :
  pos <= end_ -> pos <= skipToNextTag buf pos end_ <= end_.
Proof.
  intros H. unfold skipToNextTag.
  pose proof (skipLoop_bounds (Z.to_nat (end_ - pos)) buf pos). lia.
Qed.

(** A scan over positions without a recognized tag goes on from their end. *)
Lemma skipLoop_skip n m buf pos :
  (forall p, pos <= p < pos + Z.of_nat m -> isKnownTag buf p = false) ->
  skipLoop (m + n) buf pos = skipLoop n buf (pos + Z.of_nat m).
Proof.
  revert pos. induction m as [|m IH]; intros pos H.
  - cbn [Nat.add]. f_equal. lia.
  - cbn [Nat.add skipLoop]. rewrite H by lia. rewrite IH.
    + f_equal. lia.
    + intros p Hp. apply H. lia.
Qed.

(** One more unit of fuel never changes a result. *)
Lemma readLoop_fuel_S fuel buf end_ pos acc cs :
  readLoop fuel buf end_ pos acc = Some cs ->
  readLoop (S fuel) buf end_ pos acc = Some cs.
Proof.
  revert pos acc. induction fuel as [|fuel IH]; intros pos acc H; [discriminate|].
  cbn [readLoop] in H. cbn [readLoop].
  destruct (pos + 8 <=? end_); [|exact H].
  destruct (skipToNextTag buf pos end_ + 8 >? end_); [exact H|].
  destruct (negb _); [exact H|].
  apply IH in H. exact H.
Qed.

Lemma readLoop_fuel_le fuel fuel' buf end_ pos acc cs :
  (fuel <= fuel')%nat ->
  readLoop fuel buf end_ pos acc = Some cs ->
  readLoop fuel' buf end_ pos acc = Some cs.
Proof.
  intros Hle H. induction Hle as [|f' Hle IH]; [exact H|].
  apply readLoop_fuel_S, IH.
Qed.

Lemma readLoop_fuel_agree f1 f2 buf end_ pos acc cs1 cs2 :
  readLoop f1 buf end_ pos acc = Some cs1 ->
  readLoop f2 buf end_ pos acc = Some cs2 -> cs1 = cs2.
Proof.
  intros H1 H2.
  apply (readLoop_fuel_le f1 (Nat.max f1 f2)) in H1; [|lia].
  apply (readLoop_fuel_le f2 (Nat.max f1 f2)) in H2; [|lia].
  congruence.
Qed.

(** The loop ends: every iteration moves on by 8 positions or more. *)
Lemma readLoop_returns fuel buf end_ pos acc :
  (Z.to_nat (end_ - pos) < fuel)%nat ->
  exists cs, readLoop fuel buf end_ pos acc = Some cs.
Proof.
  revert pos acc. induction fuel as [|fuel IH]; intros pos acc Hf; [lia|].
  cbn [readLoop].
  destruct (Z.leb_spec (pos + 8) end_) as [Hle | Hgt]; [|eexists; reflexivity].
  pose proof (skipToNextTag_bounds buf pos end_ ltac:(lia)) as Hs.
  destruct (Z.gtb_spec (skipToNextTag buf pos end_ + 8) end_) as [Hb | Hb];
    [eexists; reflexivity|].
  destruct (negb _); [eexists; reflexivity|].
  apply IH.
  pose proof (readUint32BE_range buf (skipToNextTag buf pos end_ + 4)). lia.
Qed.

(** Everything the loop adds is a chunk within the bounds. *)
Lemma readLoop_within fuel buf startOffset end_ pos acc cs :
  startOffset <= pos ->
  Forall (chunkWithin buf startOffset end_) acc ->
  readLoop fuel buf end_ pos acc = Some cs ->
  Forall (chunkWithin buf startOffset end_) cs.
Proof.
  revert pos acc. induction fuel as [|fuel IH]; intros pos acc Hp Hacc H; [discriminate|].
  cbn [readLoop] in H.
  destruct (Z.leb_spec (pos + 8) end_) as [Hle | Hgt]; [|inversion H; subst; exact Hacc].
  pose proof (skipToNextTag_bounds buf pos end_ ltac:(lia)) as Hs.
  set (p := skipToNextTag buf pos end_) in *.
  destruct (Z.gtb_spec (p + 8) end_) as [Hb | Hb]; [inversion H; subst; exact Hacc|].
  destruct (KNOWN_TAGS_has (readFourCC buf p)) eqn:Hk; cbn [negb] in H;
    [|inversion H; subst; exact Hacc].
  pose proof (readUint32BE_range buf (p + 4)) as Hsz.
  set (size := readUint32BE buf (p + 4)) in *.
  apply IH in H; [exact H | lia |].
  apply Forall_app. split; [exact Hacc|]. constructor; [|constructor].
  unfold chunkWithin. cbn [Chunk.id Chunk.offset Chunk.size Chunk.data].
  repeat split; try assumption; try lia; try reflexivity.
  pose proof (slice_length_le buf (p + 8) (Z.min (p + 8 + size) end_) ltac:(lia)). lia.
Qed.

(** [readChunks] always returns, and returns chunks within the bounds. *)
Lemma readChunks_returns buf startOffset endOffset :
  exists chunks, readChunks buf startOffset endOffset = Some chunks
    /\ Forall (chunkWithin buf startOffset (endOf buf endOffset)) chunks.
Proof.
  unfold readChunks. fold (endOf buf endOffset).
  destruct (readLoop_returns (readFuel startOffset (endOf buf endOffset)) buf
              (endOf buf endOffset) startOffset []) as [cs Hcs].
  - unfold readFuel. lia.
  - exists cs. split; [exact Hcs|].
    eapply readLoop_within; [| |exact Hcs]; [lia | constructor].
Qed.

End ReadFacts.


(** * Reading what the builder wrote *)

Module RoundTripFacts.
Import ArrayFacts BytesFacts ChunkFacts ChunkAux ReadAux ReadFacts WordFacts DESAux.

Lemma string_eqb_eq s t : Text.string_eqb s t = true <-> s = t.
Proof.
  unfold Text.string_eqb. destruct (list_eq_dec Z.eq_dec s t); split; congruence.
Qed.

Lemma KNOWN_TAGS_has_In id : KNOWN_TAGS_has id = true <-> In id KNOWN_TAGS.
Proof.
  unfold KNOWN_TAGS_has. rewrite existsb_exists. split.
  - intros [t [Hin He]]. apply string_eqb_eq in He. subst. exact Hin.
  - intros H. exists id. split; [exact H | apply string_eqb_eq; reflexivity].
Qed.

(** A recognized tag is four ASCII bytes, written and decoded as they are. *)
Lemma known_tag id :
  KNOWN_TAGS_has id = true ->
  tagBytes id = id /\ Text.asciiDecode id = id /\ JS.len id = 4.
Proof.
  intros H. apply KNOWN_TAGS_has_In in H. cbv [KNOWN_TAGS map] in H.
  repeat (destruct H as [<- | H]; [repeat split; reflexivity|]).
  contradiction.
Qed.

Lemma be32_value v :
  0 <= v < 2 ^ 32 ->
  be32 v = [v / 2 ^ 24; (v / 2 ^ 16) mod 256; (v / 2 ^ 8) mod 256; v mod 256].
Proof.
  intros H. unfold be32. rewrite byte3. rewrite !byte_mid by lia. rewrite byte0.
  rewrite JSFacts.ToUint32_small by exact H. reflexivity.
Qed.

Lemma get_at pre l k : 0 <= k -> (pre ++ l).[JS.len pre + k] = l.[k].
Proof.
  intros H. pose proof (len_nonneg pre). rewrite get_app_r by lia.
  f_equal. lia.
Qed.

Lemma readUint32BE_at pre v rest :
  0 <= v < 2 ^ 32 -> readUint32BE (pre ++ be32 v ++ rest) (JS.len pre) = v.
Proof.
  intros H. rewrite be32_value by exact H.
  unfold readUint32BE.
  set (l := [v / 2 ^ 24; (v / 2 ^ 16) mod 256; (v / 2 ^ 8) mod 256; v mod 256] ++ rest).
  replace ((pre ++ l).[JS.len pre]) with (l.[0])
    by (rewrite <- (get_at pre l 0) by lia; f_equal; lia).
  rewrite !get_at by lia.
  assert (E0 : l.[0] = v / 2 ^ 24) by reflexivity.
  assert (E1 : l.[1] = (v / 2 ^ 16) mod 256) by reflexivity.
  assert (E2 : l.[2] = (v / 2 ^ 8) mod 256) by reflexivity.
  assert (E3 : l.[3] = v mod 256) by reflexivity.
  rewrite E0, E1, E2, E3.
  assert (byte (v / 2 ^ 24)).
  { unfold byte. change (2 ^ 32) with 4294967296 in H. change (2 ^ 24) with 16777216.
    Z.div_mod_to_equations. lia. }
  assert (forall x, byte (x mod 256)) by (intros x; unfold byte; apply Z.mod_pos_bound; lia).
  rewrite word_of_bytes by auto.
  apply word32_of_bytes. exact H.
Qed.

Lemma be32_len v : JS.len (be32 v) = 4.
Proof. reflexivity. Qed.

Lemma readFourCC_at pre id rest :
  KNOWN_TAGS_has id = true -> readFourCC (pre ++ id ++ rest) (JS.len pre) = id.
Proof.
  intros H. destruct (known_tag id H) as (_ & Hd & Hl).
  unfold readFourCC. rewrite <- Hl, slice_app. exact Hd.
Qed.

Lemma isKnownTag_at pre id rest :
  KNOWN_TAGS_has id = true -> isKnownTag (pre ++ id ++ rest) (JS.len pre) = true.
Proof.
  intros H. destruct (known_tag id H) as (_ & _ & Hl).
  unfold isKnownTag. rewrite !len_app, Hl. pose proof (len_nonneg rest).
  destruct (Z.gtb_spec (JS.len pre + 4) (JS.len pre + (4 + JS.len rest))); [lia|].
  rewrite readFourCC_at by exact H. exact H.
Qed.

Lemma encodeChunks_cons c cs :
  encodeChunks (c :: cs) = buildChunk (fst c) (snd c) ++ encodeChunks cs.
Proof. reflexivity. Qed.

Lemma encodeChunks_app cs1 cs2 :
  encodeChunks (cs1 ++ cs2) = encodeChunks cs1 ++ encodeChunks cs2.
Proof. unfold encodeChunks. rewrite map_app, concat_app. reflexivity. Qed.

Lemma writable_iff c :
  writable c = true <-> KNOWN_TAGS_has (fst c) = true /\ JS.len (snd c) < 2 ^ 32.
Proof. unfold writable. rewrite andb_true_iff, Z.ltb_lt. reflexivity. Qed.

(** One iteration over a written chunk: the chunk is read whole. *)
Lemma readLoop_chunk fuel pre c post acc :
  writable c = true ->
  let buf := pre ++ buildChunk (fst c) (snd c) ++ post in
  readLoop (S fuel) buf (JS.len buf) (JS.len pre) acc
  = readLoop fuel buf (JS.len buf) (JS.len pre + 8 + JS.len (snd c))
      (acc ++ [ {| Chunk.id := fst c; Chunk.size := JS.len (snd c);
                   Chunk.data := snd c; Chunk.offset := JS.len pre |} ]).
Proof.
  intros Hw. apply writable_iff in Hw. destruct Hw as [Hk Hsz].
  destruct c as [id data]. cbn [fst snd] in *. cbv zeta.
  destruct (known_tag id Hk) as (Htag & _ & Hl).
  rewrite buildChunk_eq, Htag.
  pose proof (len_nonneg pre) as Hp. pose proof (len_nonneg data) as Hd.
  pose proof (len_nonneg post) as Hq.
  set (buf := pre ++ (id ++ be32 (JS.len data) ++ data) ++ post).
  assert (Hlen : JS.len buf = JS.len pre + (8 + JS.len data) + JS.len post).
  { unfold buf. rewrite !len_app, Hl, be32_len. lia. }
  cbn [readLoop].
  destruct (Z.leb_spec (JS.len pre + 8) (JS.len buf)) as [_ | Hbad]; [|lia].
  assert (Hknown : isKnownTag buf (JS.len pre) = true).
  { unfold buf. rewrite <- !app_assoc. apply isKnownTag_at, Hk. }
  assert (Hskip : skipToNextTag buf (JS.len pre) (JS.len buf) = JS.len pre).
  { unfold skipToNextTag.
    destruct (Z.to_nat (JS.len buf - JS.len pre)) eqn:E; [lia|].
    cbn [skipLoop]. rewrite Hknown. reflexivity. }
  rewrite Hskip.
  destruct (Z.gtb_spec (JS.len pre + 8) (JS.len buf)) as [Hbad | _]; [lia|].
  assert (Hid : readFourCC buf (JS.len pre) = id).
  { unfold buf. rewrite <- !app_assoc. apply readFourCC_at, Hk. }
  rewrite Hid, Hk. cbn [negb].
  assert (Hsize : readUint32BE buf (JS.len pre + 4) = JS.len data).
  { unfold buf. rewrite <- !app_assoc. rewrite (app_assoc pre id).
    replace (JS.len pre + 4) with (JS.len (pre ++ id)) by (rewrite len_app; lia).
    apply readUint32BE_at. lia. }
  rewrite Hsize. rewrite Z.min_l by lia.
  assert (Hdata : JS.slice buf (JS.len pre + 8) (JS.len pre + 8 + JS.len data) = data).
  { unfold buf. rewrite <- !app_assoc.
    rewrite (app_assoc id), (app_assoc pre).
    replace (JS.len pre + 8) with (JS.len (pre ++ id ++ be32 (JS.len data))).
    - apply slice_app.
    - rewrite !len_app, Hl, be32_len. lia. }
  rewrite Hdata. reflexivity.
Qed.

(** A run of written chunks is read chunk by chunk. *)
Lemma readLoop_encoded cs : forall fuel pre post acc,
  forallb writable cs = true ->
  let buf := pre ++ encodeChunks cs ++ post in
  readLoop (length cs + fuel) buf (JS.len buf) (JS.len pre) acc
  = readLoop fuel buf (JS.len buf) (JS.len pre + JS.len (encodeChunks cs))
      (acc ++ chunksAt (JS.len pre) cs).
Proof.
  induction cs as [|c cs IH]; intros fuel pre post acc Hw; cbv zeta.
  - cbn [length Nat.add encodeChunks map concat chunksAt app].
    rewrite app_nil_r. f_equal. change (JS.len (@nil Z)) with 0. lia.
  - cbn [forallb] in Hw. apply andb_true_iff in Hw. destruct Hw as [Hc Hcs].
    rewrite encodeChunks_cons. cbn [length Nat.add chunksAt].
    rewrite <- app_assoc.
    pose proof (readLoop_chunk (length cs + fuel) pre c (encodeChunks cs ++ post) acc Hc) as H1.
    cbv zeta in H1. rewrite H1.
    specialize (IH fuel (pre ++ buildChunk (fst c) (snd c)) post
                  (acc ++ [ {| Chunk.id := fst c; Chunk.size := JS.len (snd c);
                               Chunk.data := snd c; Chunk.offset := JS.len pre |} ]) Hcs).
    cbv zeta in IH.
    assert (Hb : (pre ++ buildChunk (fst c) (snd c)) ++ encodeChunks cs ++ post
                 = pre ++ buildChunk (fst c) (snd c) ++ encodeChunks cs ++ post)
      by (rewrite <- app_assoc; reflexivity).
    assert (Hp : JS.len (pre ++ buildChunk (fst c) (snd c))
                 = JS.len pre + 8 + JS.len (snd c))
      by (rewrite len_app, buildChunk_len; lia).
    rewrite Hb, Hp in IH. rewrite IH. f_equal.
    + rewrite len_app, buildChunk_len. lia.
    + rewrite <- app_assoc. reflexivity.
Qed.

Lemma noTagFrom_spec buf pos n :
  noTagFrom buf pos n = true ->
  forall p, pos <= p < pos + n -> isKnownTag buf p = false.
Proof.
  unfold noTagFrom. rewrite forallb_forall. intros H p Hp.
  apply negb_true_iff, H, zrange_In, Hp.
Qed.

(** Bytes that hold no recognized tag are passed over. *)
Lemma readLoop_garbage fuel buf end_ pos n acc :
  0 <= n -> noTagFrom buf pos n = true ->
  readLoop (S fuel) buf end_ pos acc = readLoop (S fuel) buf end_ (pos + n) acc.
Proof.
  intros Hn Hg. pose proof (noTagFrom_spec buf pos n Hg) as Hno.
  cbn [readLoop].
  destruct (Z.leb_spec (pos + n + 8) end_) as [Hin | Hout].
  - destruct (Z.leb_spec (pos + 8) end_) as [_ | Hbad]; [|lia].
    assert (Hs : skipToNextTag buf pos end_ = skipToNextTag buf (pos + n) end_).
    { unfold skipToNextTag.
      replace (Z.to_nat (end_ - pos))
        with (Z.to_nat n + Z.to_nat (end_ - (pos + n)))%nat by lia.
      rewrite skipLoop_skip; [f_equal; lia|].
      intros p Hp. apply Hno. lia. }
    rewrite Hs. reflexivity.
  - destruct (Z.leb_spec (pos + 8) end_) as [Hle | _]; [|reflexivity].
    assert (Hs : end_ < skipToNextTag buf pos end_ + 8).
    { unfold skipToNextTag.
      destruct (Z.le_gt_cases (pos + n) end_) as [Hfit | Hover].
      - replace (Z.to_nat (end_ - pos))
          with (Z.to_nat n + Z.to_nat (end_ - (pos + n)))%nat by lia.
        rewrite skipLoop_skip by (intros p Hp; apply Hno; lia).
        pose proof (skipLoop_bounds (Z.to_nat (end_ - (pos + n))) buf (pos + Z.of_nat (Z.to_nat n))).
        lia.
      - rewrite <- (Nat.add_0_r (Z.to_nat (end_ - pos))).
        rewrite skipLoop_skip by (intros p Hp; apply Hno; lia).
        cbn [skipLoop]. lia. }
    destruct (Z.gtb_spec (skipToNextTag buf pos end_ + 8) end_) as [_ | Hbad]; [|lia].
    reflexivity.
Qed.

Lemma readLoop_at_end fuel buf end_ pos acc :
  end_ < pos + 8 -> readLoop (S fuel) buf end_ pos acc = Some acc.
Proof.
  intros H. cbn [readLoop]. destruct (Z.leb_spec (pos + 8) end_); [lia | reflexivity].
Qed.

(** Written chunks, bytes without a recognized tag, more written chunks:
    [readChunks] returns the chunks on both sides, whole. *)
Lemma readChunks_encoded pre cs1 garbage cs2 :
  forallb writable cs1 = true -> forallb writable cs2 = true ->
  let buf := pre ++ encodeChunks cs1 ++ garbage ++ encodeChunks cs2 in
  noTagFrom buf (JS.len pre + JS.len (encodeChunks cs1)) (JS.len garbage) = true ->
  readChunks buf (JS.len pre) None
  = Some (chunksAt (JS.len pre) cs1
            ++ chunksAt (JS.len pre + JS.len (encodeChunks cs1) + JS.len garbage) cs2).
Proof.
  intros H1 H2 buf Hg.
  destruct (readChunks_returns buf (JS.len pre) None) as [chunks [Hr _]].
  rewrite Hr. f_equal. unfold readChunks in Hr.
  eapply readLoop_fuel_agree; [exact Hr|].
  instantiate (1 := (length cs1 + (length cs2 + 2))%nat).
  pose proof (readLoop_encoded cs1 (length cs2 + 2) pre (garbage ++ encodeChunks cs2) [] H1) as E1.
  cbv zeta in E1. fold buf in E1. rewrite E1. cbn [app].
  replace (length cs2 + 2)%nat with (S (length cs2 + 1)) by lia.
  rewrite (readLoop_garbage _ buf (JS.len buf) _ (JS.len garbage)) by (apply len_nonneg || exact Hg).
  replace (S (length cs2 + 1)) with (length cs2 + 2)%nat by lia.
  pose proof (readLoop_encoded cs2 2 (pre ++ encodeChunks cs1 ++ garbage) []
                (chunksAt (JS.len pre) cs1) H2) as E2.
  cbv zeta in E2. rewrite app_nil_r in E2. rewrite <- !app_assoc in E2. fold buf in E2.
  rewrite !len_app in E2. rewrite Z.add_assoc in E2. rewrite E2.
  apply readLoop_at_end. unfold buf. rewrite !len_app. lia.
Qed.

Lemma view_chunksAt off cs : map view (chunksAt off cs) = map viewOf cs.
Proof.
  revert off. induction cs as [|c cs IH]; intros off; [reflexivity|].
  cbn [chunksAt map]. rewrite IH. reflexivity.
Qed.

End RoundTripFacts.


(** * Text chunks *)

Module TextFacts.
Import Text TextAux.

Ltac decide_tests :=
  repeat match goal with
         | |- context [?a <=? ?b] =>
             destruct (Z.leb_spec a b); try (exfalso; Z.div_mod_to_equations; lia)
         | |- context [?a <? ?b] =>
             destruct (Z.ltb_spec a b); try (exfalso; Z.div_mod_to_equations; lia)
         | |- context [?a =? ?b] =>
             destruct (Z.eqb_spec a b); try (exfalso; Z.div_mod_to_equations; lia)
         end.

(** The decoder reads back the bytes of one scalar value. *)
Lemma utf8Run_utf8Bytes cp rest :
  scalar cp -> utf8Run None (utf8Bytes cp ++ rest) = cp :: utf8Run None rest.
Proof.
  intros [Hr Hs]. unfold utf8Bytes.
  change 0x80 with 128 in *. change 0x800 with 2048. change 0x10000 with 65536.
  destruct (Z.ltb_spec cp 128); [|destruct (Z.ltb_spec cp 2048); [|destruct (Z.ltb_spec cp 65536)]].
  - cbn [app utf8Run]. decide_tests. reflexivity.
  - cbn [app utf8Run]. unfold lead.
    decide_tests; cbn [andb p_cp p_needed p_lower p_upper]; decide_tests;
      cbn [andb]; f_equal; Z.div_mod_to_equations; lia.
  - cbn [app utf8Run]. unfold lead.
    decide_tests; cbn [andb p_cp p_needed p_lower p_upper]; decide_tests;
      cbn [andb p_cp p_needed p_lower p_upper]; decide_tests;
      cbn [andb]; f_equal; Z.div_mod_to_equations; lia.
  - cbn [app utf8Run]. unfold lead.
    decide_tests; cbn [andb p_cp p_needed p_lower p_upper]; decide_tests;
      cbn [andb p_cp p_needed p_lower p_upper]; decide_tests;
      cbn [andb p_cp p_needed p_lower p_upper]; decide_tests;
      cbn [andb]; f_equal; Z.div_mod_to_equations; lia.
Qed.

End TextFacts.


Module TextRoundTrip.
Import Text TextAux TextFacts.

Lemma utf8Run_encoded cps rest :
  Forall scalar cps ->
  utf8Run None (flat_map utf8Bytes cps ++ rest) = cps ++ utf8Run None rest.
Proof.
  induction 1 as [|cp cps Hcp _ IH]; [reflexivity|].
  cbn [flat_map]. rewrite <- app_assoc, utf8Run_utf8Bytes by exact Hcp.
  rewrite IH. reflexivity.
Qed.

Lemma isHigh_spec c : isHigh c = true <-> 0xD800 <= c <= 0xDBFF.
Proof. unfold isHigh. rewrite andb_true_iff, !Z.leb_le. reflexivity. Qed.

Lemma isLow_spec c : isLow c = true <-> 0xDC00 <= c <= 0xDFFF.
Proof. unfold isLow. rewrite andb_true_iff, !Z.leb_le. reflexivity. Qed.

(** Facts about a well-formed string, all by the same induction: its scalar
    values are scalar values, they give the string back, and appending the
    terminator appends the scalar value 0. *)
Lemma wellFormed_facts n : forall s, (length s <= n)%nat -> wellFormed s = true ->
  Forall scalar (toScalars s)
  /\ ofScalars (toScalars s) = s
  /\ toScalars (s ++ [0]) = toScalars s ++ [0]
  /\ stripNul s = s.
Proof.
  induction n as [|n IH]; intros s Hn Hw.
  - destruct s; [|cbn in Hn; lia]. repeat split; constructor.
  - destruct s as [|c r]; [repeat split; constructor|].
    cbn [wellFormed] in Hw. cbn [toScalars app].
    destruct (isHigh c) eqn:Hh.
    + destruct r as [|d r']; [discriminate|].
      apply andb_true_iff in Hw. destruct Hw as [Hl Hw]. rewrite Hl.
      cbn [app]. rewrite Hl.
      apply isHigh_spec in Hh. apply isLow_spec in Hl.
      destruct (IH r' ltac:(cbn in Hn; lia) Hw) as (H1 & H2 & H3 & H4).
      repeat split.
      * constructor; [|exact H1]. unfold scalar. lia.
      * cbn [ofScalars flat_map]. fold (ofScalars (toScalars r')). rewrite H2.
        unfold ofScalar.
        destruct (Z.ltb_spec (65536 + (c - 55296) * 1024 + (d - 56320)) 65536); [lia|].
        cbn [app]. f_equal; [|f_equal]; Z.div_mod_to_equations; lia.
      * rewrite H3. reflexivity.
      * cbn [stripNul filter].
        destruct (Z.eqb_spec c 0); [lia|]. destruct (Z.eqb_spec d 0); [lia|].
        cbn [negb]. fold (stripNul r'). rewrite H4. reflexivity.
    + destruct (isLow c) eqn:Hl; [discriminate|].
      apply andb_true_iff in Hw. destruct Hw as [Hc Hw].
      apply andb_true_iff in Hc. destruct Hc as [Hc1 Hc2].
      apply Z.ltb_lt in Hc1. apply Z.leb_le in Hc2.
      destruct (IH r ltac:(cbn in Hn; lia) Hw) as (H1 & H2 & H3 & H4).
      assert (Hnh : ~ (0xD800 <= c <= 0xDBFF)) by (rewrite <- isHigh_spec; congruence).
      assert (Hnl : ~ (0xDC00 <= c <= 0xDFFF)) by (rewrite <- isLow_spec; congruence).
      repeat split.
      * constructor; [|exact H1]. unfold scalar. lia.
      * cbn [ofScalars flat_map]. fold (ofScalars (toScalars r)). rewrite H2.
        unfold ofScalar. destruct (Z.ltb_spec c 65536); [reflexivity | lia].
      * rewrite H3. reflexivity.
      * cbn [stripNul filter]. destruct (Z.eqb_spec c 0); [lia|].
        cbn [negb]. fold (stripNul r). rewrite H4. reflexivity.
Qed.

Lemma wellFormed_scalars s : wellFormed s = true -> Forall scalar (toScalars s).
Proof. intros H. apply (wellFormed_facts (length s) s (le_n _) H). Qed.

Lemma wellFormed_ofScalars s : wellFormed s = true -> ofScalars (toScalars s) = s.
Proof. intros H. apply (wellFormed_facts (length s) s (le_n _) H). Qed.

Lemma wellFormed_terminated s :
  wellFormed s = true -> toScalars (s ++ [0]) = toScalars s ++ [0].
Proof. intros H. apply (wellFormed_facts (length s) s (le_n _) H). Qed.

Lemma wellFormed_stripNul s : wellFormed s = true -> stripNul s = s.
Proof. intros H. apply (wellFormed_facts (length s) s (le_n _) H). Qed.

Lemma encode_terminated s :
  wellFormed s = true -> encode (s ++ [0]) = encode s ++ [0].
Proof.
  intros H. unfold encode. rewrite wellFormed_terminated by exact H.
  rewrite flat_map_app. reflexivity.
Qed.

Lemma stripBOM_first a l : a <> 0xEF -> stripBOM (a :: l) = a :: l.
Proof.
  intros H. destruct l as [|b [|c l]]; try reflexivity.
  cbn [stripBOM]. destruct (Z.eqb_spec a 239); [contradiction | reflexivity].
Qed.

Lemma stripBOM_three a b c l :
  ~ (a = 0xEF /\ b = 0xBB /\ c = 0xBF) -> stripBOM (a :: b :: c :: l) = a :: b :: c :: l.
Proof.
  intros H. cbn [stripBOM].
  destruct (Z.eqb_spec a 239), (Z.eqb_spec b 187), (Z.eqb_spec c 191); try reflexivity.
  exfalso. apply H. auto.
Qed.

(** The bytes of a string that does not start with U+FEFF do not start with
    the byte order mark. *)
Lemma stripBOM_encode s :
  textOk s = true -> stripBOM (encode s ++ [0]) = encode s ++ [0].
Proof.
  unfold textOk. rewrite andb_true_iff. intros [Hw Hb].
  destruct s as [|c r]; [reflexivity|].
  unfold encode. cbn [wellFormed] in Hw. cbn [noBOM] in Hb. cbn [toScalars].
  destruct (isHigh c) eqn:Hh.
  - destruct r as [|d r']; [discriminate|].
    apply andb_true_iff in Hw. destruct Hw as [Hl Hw]. rewrite Hl.
    apply isHigh_spec in Hh. apply isLow_spec in Hl.
    cbn [flat_map]. rewrite <- app_assoc. unfold utf8Bytes at 1 3.
    repeat match goal with
           | |- context [?a <? ?b] => destruct (Z.ltb_spec a b); [lia|]
           end.
    cbn [app]. apply stripBOM_first. Z.div_mod_to_equations. lia.
  - destruct (isLow c) eqn:Hl; [discriminate|].
    apply andb_true_iff in Hw. destruct Hw as [Hc Hw].
    apply andb_true_iff in Hc. destruct Hc as [Hc1 Hc2].
    apply Z.ltb_lt in Hc1. apply Z.leb_le in Hc2.
    apply negb_true_iff, Z.eqb_neq in Hb.
    cbn [flat_map]. rewrite <- app_assoc. unfold utf8Bytes at 1 3.
    destruct (Z.ltb_spec c 128); [|destruct (Z.ltb_spec c 2048); [|destruct (Z.ltb_spec c 65536)]].
    + cbn [app]. apply stripBOM_first. lia.
    + cbn [app]. apply stripBOM_first. Z.div_mod_to_equations. lia.
    + cbn [app]. apply stripBOM_three. Z.div_mod_to_equations. lia.
    + lia.
Qed.

Lemma ofScalars_app a b : ofScalars (a ++ b) = ofScalars a ++ ofScalars b.
Proof. unfold ofScalars. apply flat_map_app. Qed.

Lemma stripNul_app a b : stripNul (a ++ b) = stripNul a ++ stripNul b.
Proof. unfold stripNul. apply filter_app. Qed.

(** A text payload, terminator included, decodes to the text. *)
Lemma text_round_trip s :
  textOk s = true -> stripNul (utf8Decode (encode (s ++ [0]))) = s.
Proof.
  intros Hok. pose proof Hok as Hok'. unfold textOk in Hok'.
  apply andb_true_iff in Hok'. destruct Hok' as [Hw _].
  rewrite encode_terminated by exact Hw.
  unfold utf8Decode. rewrite stripBOM_encode by exact Hok.
  unfold encode. rewrite utf8Run_encoded by (apply wellFormed_scalars, Hw).
  cbn [utf8Run]. rewrite ofScalars_app, stripNul_app.
  rewrite wellFormed_ofScalars, wellFormed_stripNul by exact Hw.
  cbn. apply app_nil_r.
Qed.

End TextRoundTrip.


(** * Reading a written pack *)

Module PackFacts.
Import ArrayFacts ChunkFacts ChunkAux ReadAux ReadFacts RoundTripFacts.
Import TextAux TextRoundTrip PackAux.

Lemma noTagFrom_0 buf pos : noTagFrom buf pos 0 = true.
Proof. unfold noTagFrom. rewrite zrange_empty by lia. reflexivity. Qed.

(** Written chunks after any prefix are read back as written. *)
Lemma readChunks_written pre cs :
  forallb writable cs = true ->
  readChunks (pre ++ encodeChunks cs) (JS.len pre) None = Some (chunksAt (JS.len pre) cs).
Proof.
  intros H.
  pose proof (readChunks_encoded pre cs [] [] H eq_refl) as E. cbv zeta in E.
  cbn [encodeChunks map concat app chunksAt] in E. rewrite !app_nil_r in E.
  apply E. apply noTagFrom_0.
Qed.

Lemma blobChunk_eq blob :
  blobChunk blob = buildChunk (Text.lit "BLOB") (encodeChunks (blobParts blob)).
Proof.
  unfold blobChunk, buildContainerChunk, concatArrays, blobParts, encodeChunks, buildTextChunk.
  destruct (Blob.iconCode blob) as [[|c r]|]; reflexivity.
Qed.

Lemma fold_snoc {A B} (f : B -> A) l acc :
  fold_left (fun parts x => parts ++ [f x]) l acc = acc ++ map f l.
Proof.
  revert acc. induction l as [|x l IH]; intros acc; cbn [fold_left map].
  - symmetry. apply app_nil_r.
  - rewrite IH, <- app_assoc. reflexivity.
Qed.

Lemma payloadRaw_eq packData : payloadRaw packData = encodeChunks (topChunks packData).
Proof.
  unfold payloadRaw, concatArrays, topChunks, encodeChunks, buildTextChunk.
  rewrite fold_snoc. cbn [app map fst snd]. rewrite map_map.
  f_equal. f_equal. f_equal. apply map_ext. intros blob. apply blobChunk_eq.
Qed.

Ltac eval_tags :=
  repeat match goal with
         | |- context [Text.string_eqb (Text.lit ?a) (Text.lit ?b)] =>
             let v := eval vm_compute in (Text.string_eqb (Text.lit a) (Text.lit b)) in
             change (Text.string_eqb (Text.lit a) (Text.lit b)) with v
         end.

Lemma chunkText_text s sz off id :
  textOk s = true ->
  chunkText {| Chunk.id := id; Chunk.size := sz;
               Chunk.data := Text.encode (s ++ [0]); Chunk.offset := off |} = s.
Proof. intros H. unfold chunkText. cbn [Chunk.data]. apply text_round_trip, H. Qed.

Lemma blobStep_EUID entry s sz off :
  textOk s = true ->
  blobStep entry {| Chunk.id := Text.lit "EUID"; Chunk.size := sz;
                    Chunk.data := Text.encode (s ++ [0]); Chunk.offset := off |}
  = {| Blob.uid := s; Blob.title := Blob.title entry;
       Blob.extension := Blob.extension entry; Blob.iconCode := Blob.iconCode entry;
       Blob.binaryData := Blob.binaryData entry |}.
Proof.
  intros Hs. unfold blobStep. cbn [Chunk.id]. eval_tags.
  rewrite chunkText_text by exact Hs. reflexivity.
Qed.

Lemma blobStep_ETIT entry s sz off :
  textOk s = true ->
  blobStep entry {| Chunk.id := Text.lit "ETIT"; Chunk.size := sz;
                    Chunk.data := Text.encode (s ++ [0]); Chunk.offset := off |}
  = {| Blob.uid := Blob.uid entry; Blob.title := s;
       Blob.extension := Blob.extension entry; Blob.iconCode := Blob.iconCode entry;
       Blob.binaryData := Blob.binaryData entry |}.
Proof.
  intros Hs. unfold blobStep. cbn [Chunk.id]. eval_tags.
  rewrite chunkText_text by exact Hs. reflexivity.
Qed.

Lemma blobStep_EEXT entry s sz off :
  textOk s = true ->
  blobStep entry {| Chunk.id := Text.lit "EEXT"; Chunk.size := sz;
                    Chunk.data := Text.encode (s ++ [0]); Chunk.offset := off |}
  = {| Blob.uid := Blob.uid entry; Blob.title := Blob.title entry;
       Blob.extension := s; Blob.iconCode := Blob.iconCode entry;
       Blob.binaryData := Blob.binaryData entry |}.
Proof.
  intros Hs. unfold blobStep. cbn [Chunk.id]. eval_tags.
  rewrite chunkText_text by exact Hs. reflexivity.
Qed.

Lemma blobStep_EICO entry s sz off :
  textOk s = true ->
  blobStep entry {| Chunk.id := Text.lit "EICO"; Chunk.size := sz;
                    Chunk.data := Text.encode (s ++ [0]); Chunk.offset := off |}
  = {| Blob.uid := Blob.uid entry; Blob.title := Blob.title entry;
       Blob.extension := Blob.extension entry; Blob.iconCode := Some s;
       Blob.binaryData := Blob.binaryData entry |}.
Proof.
  intros Hs. unfold blobStep. cbn [Chunk.id]. eval_tags.
  rewrite chunkText_text by exact Hs. reflexivity.
Qed.

Lemma blobStep_FBIN entry d sz off :
  blobStep entry {| Chunk.id := Text.lit "FBIN"; Chunk.size := sz;
                    Chunk.data := d; Chunk.offset := off |}
  = {| Blob.uid := Blob.uid entry; Blob.title := Blob.title entry;
       Blob.extension := Blob.extension entry; Blob.iconCode := Blob.iconCode entry;
       Blob.binaryData := d |}.
Proof. unfold blobStep. cbn [Chunk.id]. eval_tags. reflexivity. Qed.

(** The sub-chunks written for a blob are read back as the blob. *)
Lemma blobEntry_written blob off :
  blobOk blob = true -> blobEntry (chunksAt off (blobParts blob)) = blob.
Proof.
  unfold blobOk. rewrite !andb_true_iff. intros [[[[Hu Ht] He] Hi] _].
  destruct blob as [uid title ext icon data]. cbn [Blob.uid Blob.title Blob.extension
    Blob.iconCode Blob.binaryData] in *.
  unfold blobParts, blobEntry.
  cbn [Blob.uid Blob.title Blob.extension Blob.iconCode Blob.binaryData].
  destruct icon as [[|c r]|].
  - discriminate Hi.
  - cbn [iconOk isEmpty negb andb] in Hi.
    cbn [app chunksAt fold_left fst snd].
    change (c :: r ++ [0]) with ((c :: r) ++ [0]).
    rewrite blobStep_EUID by exact Hu. rewrite blobStep_ETIT by exact Ht.
    rewrite blobStep_EEXT by exact He. rewrite blobStep_EICO by exact Hi.
    rewrite blobStep_FBIN. reflexivity.
  - cbn [app chunksAt fold_left fst snd].
    rewrite blobStep_EUID by exact Hu. rewrite blobStep_ETIT by exact Ht.
    rewrite blobStep_EEXT by exact He. rewrite blobStep_FBIN. reflexivity.
Qed.

Lemma blobOk_writable blob : blobOk blob = true -> forallb writable (blobParts blob) = true.
Proof. unfold blobOk. rewrite !andb_true_iff. tauto. Qed.

(** The BLOB chunks of the payload are read back as the blobs, in order. *)
Lemma fold_blobs blobs : forall off uid title acc,
  forallb blobOk blobs = true ->
  fold_left ppfStep (chunksAt off (map blobPair blobs)) (Some (uid, title, acc))
  = Some (uid, title, acc ++ blobs).
Proof.
  induction blobs as [|blob blobs IH]; intros off uid title acc H.
  - cbn. rewrite app_nil_r. reflexivity.
  - cbn [forallb] in H. apply andb_true_iff in H. destruct H as [Hb Hbs].
    cbn [map chunksAt fold_left]. unfold ppfStep at 2.
    cbn [Chunk.id].
    change (fst (blobPair blob)) with (Text.lit "BLOB").
    change (snd (blobPair blob)) with (encodeChunks (blobParts blob)).
    eval_tags. cbn [andb].
    unfold readSubChunks. cbn [Chunk.data].
    pose proof (readChunks_written [] (blobParts blob) (blobOk_writable blob Hb)) as Hr.
    cbn [app] in Hr. change (JS.len (@nil Z)) with 0 in Hr. rewrite Hr.
    rewrite blobEntry_written by exact Hb.
    rewrite IH by exact Hbs. rewrite <- app_assoc. reflexivity.
Qed.

Lemma ppfStep_EUID title blobs s sz off :
  textOk s = true ->
  ppfStep (Some ([], title, blobs))
    {| Chunk.id := Text.lit "EUID"; Chunk.size := sz;
       Chunk.data := Text.encode (s ++ [0]); Chunk.offset := off |}
  = Some (s, title, blobs).
Proof.
  intros Hs. unfold ppfStep. cbn [Chunk.id]. eval_tags. cbn [andb isEmpty].
  rewrite chunkText_text by exact Hs. reflexivity.
Qed.

Lemma ppfStep_ETIT uid blobs s sz off :
  textOk s = true ->
  ppfStep (Some (uid, [], blobs))
    {| Chunk.id := Text.lit "ETIT"; Chunk.size := sz;
       Chunk.data := Text.encode (s ++ [0]); Chunk.offset := off |}
  = Some (uid, s, blobs).
Proof.
  intros Hs. unfold ppfStep. cbn [Chunk.id]. eval_tags. cbn [andb isEmpty].
  rewrite chunkText_text by exact Hs. reflexivity.
Qed.

(** After any eight bytes, the payload written for a pack is parsed back
    to the pack. *)
Lemma parsePPFRaw_written packData header :
  JS.len header = 8 -> packOk packData = true ->
  parsePPFRaw (header ++ payloadRaw packData) = Some packData.
Proof.
  intros Hh. unfold packOk. rewrite !andb_true_iff. intros [[[Hu Ht] Hb] Hw].
  unfold parsePPFRaw. rewrite payloadRaw_eq. rewrite <- Hh.
  rewrite readChunks_written by exact Hw.
  unfold topChunks. cbn [chunksAt fold_left fst snd].
  rewrite ppfStep_EUID by exact Hu. rewrite ppfStep_ETIT by exact Ht.
  rewrite fold_blobs by exact Hb. destruct packData. reflexivity.
Qed.

End PackFacts.


(** * More about the cipher stack *)

Module CbcMore.
Import ArrayFacts BytesFacts PaddingFacts CbcFacts BlockFacts CipherFacts CbcAux.

Lemma chainBlock_shape data i prevBlock :
  length (chainBlock data i prevBlock) = 8%nat /\ bytes (chainBlock data i prevBlock).
Proof.
  unfold chainBlock.
  apply (for_loop_invariant (fun l => length l = 8%nat /\ bytes l)).
  - split; [reflexivity | apply zeros_bytes].
  - intros j st _ [Hl Hb]. split; [rewrite store_length; exact Hl | apply store_bytes, Hb].
Qed.

Lemma cbcLoop_S cipher n data i encrypted prevBlock :
  cbcLoop cipher (S n) data i encrypted prevBlock
  = let enc := cipher (chainBlock data i prevBlock) in
    if JS.set_fits encrypted enc i then
      if JS.set_fits prevBlock enc 0 then
        cbcLoop cipher n data (i + 8) (JS.set encrypted enc i) (JS.set prevBlock enc 0)
      else inl JS.RangeError
    else inl JS.RangeError.
Proof. reflexivity. Qed.

(** The loop only ever applies the cipher to 8-byte blocks. *)
Lemma cbcLoop_ext cipher1 cipher2 n data i encrypted prevBlock :
  (forall block, length block = 8%nat -> bytes block -> cipher1 block = cipher2 block) ->
  cbcLoop cipher1 n data i encrypted prevBlock = cbcLoop cipher2 n data i encrypted prevBlock.
Proof.
  intros Hc. revert i encrypted prevBlock.
  induction n as [|n IH]; intros i encrypted prevBlock; [reflexivity|].
  rewrite !cbcLoop_S. cbv zeta.
  destruct (chainBlock_shape data i prevBlock) as [Hl Hb].
  rewrite (Hc _ Hl Hb).
  destruct (JS.set_fits encrypted _ i); [|reflexivity].
  destruct (JS.set_fits prevBlock _ 0); [|reflexivity].
  apply IH.
Qed.

Lemma firstn_app_plus {A} (a b : list A) n :
  firstn (length a + n) (a ++ b) = a ++ firstn n b.
Proof. induction a as [|x a IH]; cbn; [reflexivity | f_equal; exact IH]. Qed.

Lemma set_shift pre target source offset k :
  k = JS.len pre -> 0 <= offset ->
  JS.set (pre ++ target) source (k + offset) = pre ++ JS.set target source offset.
Proof.
  intros -> H. unfold JS.set, JS.len.
  rewrite Z2Nat.inj_add, Nat2Z.id by lia.
  rewrite firstn_app_plus, <- Nat.add_assoc, skipn_exact, <- app_assoc. reflexivity.
Qed.

Lemma set_fits_shift pre target source offset k :
  k = JS.len pre ->
  JS.set_fits (pre ++ target) source (k + offset) = JS.set_fits target source offset.
Proof.
  intros ->. unfold JS.set_fits. rewrite len_app.
  destruct (Z.leb_spec (JS.len source + offset) (JS.len target)),
    (Z.leb_spec (JS.len source + (JS.len pre + offset)) (JS.len pre + JS.len target));
    try reflexivity; lia.
Qed.

Lemma chainBlock_shift pre data i prevBlock :
  0 <= i -> chainBlock (pre ++ data) (JS.len pre + i) prevBlock = chainBlock data i prevBlock.
Proof.
  intros Hi. unfold chainBlock, JS.for_loop.
  assert (H : forall l acc, (forall j, In j l -> 0 <= j) ->
            fold_left (fun st j => JS.store st j ((pre ++ data).[JS.len pre + i + j] .^ prevBlock.[j])) l acc
            = fold_left (fun st j => JS.store st j (data.[i + j] .^ prevBlock.[j])) l acc).
  { induction l as [|j l IH]; intros acc Hl; [reflexivity|].
    cbn [fold_left]. rewrite <- Z.add_assoc.
    rewrite RoundTripFacts.get_at by (specialize (Hl j (or_introl eq_refl)); lia).
    apply IH. intros k Hk. apply Hl. right. exact Hk. }
  apply H. intros j Hj. apply zrange_In in Hj. lia.
Qed.

(** The loop over data behind a prefix, writing behind a prefix of the same
    length, is the loop over the data alone. *)
Lemma cbcLoop_shift cipher n pre epre data i encrypted prevBlock :
  JS.len epre = JS.len pre -> 0 <= i ->
  cbcLoop cipher n (pre ++ data) (JS.len pre + i) (epre ++ encrypted) prevBlock
  = (out <- cbcLoop cipher n data i encrypted prevBlock ;; inr (epre ++ out)).
Proof.
  intros He. revert i encrypted prevBlock.
  induction n as [|n IH]; intros i encrypted prevBlock Hi; [reflexivity|].
  rewrite !cbcLoop_S. cbv zeta. rewrite chainBlock_shift by exact Hi.
  rewrite set_fits_shift by (symmetry; exact He).
  destruct (JS.set_fits encrypted _ i); [|reflexivity].
  destruct (JS.set_fits prevBlock _ 0); [|reflexivity].
  rewrite set_shift by (try exact Hi; symmetry; exact He).
  replace (JS.len pre + i + 8) with (JS.len pre + (i + 8)) by lia.
  apply IH. lia.
Qed.

Lemma blockCount_S L : 0 <= L -> blockCount (8 + L) = S (blockCount L).
Proof.
  intros H. unfold blockCount.
  replace (8 + L + 7) with (L + 7 + 1 * 8) by lia.
  rewrite Z.div_add by lia.
  assert (0 <= (L + 7) / 8) by (apply Z.div_pos; lia). lia.
Qed.

Lemma chainBlock_first block rest iv :
  length block = 8%nat -> chainBlock (block ++ rest) 0 iv = chainBlock block 0 iv.
Proof.
  intros Hb. unfold chainBlock, JS.for_loop.
  assert (H : forall l acc, (forall j, In j l -> 0 <= j < 8) ->
            fold_left (fun st j => JS.store st j ((block ++ rest).[0 + j] .^ iv.[j])) l acc
            = fold_left (fun st j => JS.store st j (block.[0 + j] .^ iv.[j])) l acc).
  { induction l as [|j l IH]; intros acc Hl; [reflexivity|].
    cbn [fold_left].
    rewrite get_app_l
      by (specialize (Hl j (or_introl eq_refl)); unfold JS.len; rewrite Hb; lia).
    apply IH. intros k Hk. apply Hl. right. exact Hk. }
  apply H. intros j Hj. apply zrange_In in Hj. lia.
Qed.

(** One turn of the loop on a first block, then the loop on the rest. *)
Lemma cbcLoop_chain cipher block rest iv :
  (forall b, length (cipher b) = 8%nat) ->
  length block = 8%nat -> length iv = 8%nat ->
  cbcLoop cipher (blockCount (JS.len (block ++ rest))) (block ++ rest) 0
    (JS.zeros (JS.len (block ++ rest))) iv
  = (out <- cbcLoop cipher (blockCount (JS.len rest)) rest 0 (JS.zeros (JS.len rest))
             (cipher (chainBlock block 0 iv)) ;;
     inr (cipher (chainBlock block 0 iv) ++ out)).
Proof.
  intros Hc Hb Hiv. pose proof (len_nonneg rest) as HL.
  assert (Hlb : JS.len block = 8) by (unfold JS.len; rewrite Hb; reflexivity).
  rewrite len_app, Hlb, blockCount_S by exact HL.
  rewrite cbcLoop_S. cbv zeta. rewrite chainBlock_first by exact Hb.
  generalize (cipher (chainBlock block 0 iv)) (Hc (chainBlock block 0 iv)).
  intros c1 Hc1.
  rewrite zeros_add by lia.
  assert (Hf1 : JS.set_fits (JS.zeros 8 ++ JS.zeros (JS.len rest)) c1 0 = true).
  { unfold JS.set_fits. apply Z.leb_le. rewrite len_app, !len_zeros by lia.
    unfold JS.len. rewrite Hc1. lia. }
  assert (Hf2 : JS.set_fits iv c1 0 = true).
  { unfold JS.set_fits. apply Z.leb_le. unfold JS.len. rewrite Hc1, Hiv. lia. }
  rewrite Hf1, Hf2.
  rewrite set_app_0 by (rewrite Hc1; reflexivity).
  assert (Hp : JS.set iv c1 0 = c1).
  { rewrite <- (app_nil_r iv). rewrite set_app_0 by congruence. apply app_nil_r. }
  rewrite Hp.
  pose proof (cbcLoop_shift cipher (blockCount (JS.len rest))
                block c1 rest 0 (JS.zeros (JS.len rest)) c1) as Hs.
  rewrite Z.add_0_r, Hlb in Hs. rewrite Z.add_0_l. apply Hs; [|lia].
  unfold JS.len. rewrite Hc1. reflexivity.
Qed.

(** CBC chaining: the first ciphertext block is the cipher of the first
    block combined with the chaining block, and the rest is the encryption
    of the remaining data chained on that ciphertext block. *)
Lemma encryptDES_CBC_chain block rest keyBytes iv :
  length block = 8%nat -> length iv = 8%nat ->
  let c1 := DES.desBlock (chainBlock block 0 iv)
              (DES.generateSubKeys (DES.msbParity keyBytes)) in
  encryptDES_CBC (block ++ rest) keyBytes iv
  = (out <- encryptDES_CBC rest keyBytes c1 ;; inr (c1 ++ out)).
Proof.
  intros Hb Hiv. unfold encryptDES_CBC. cbv zeta.
  pose proof (cbcLoop_chain
                (fun b => DES.desBlock b (DES.generateSubKeys (DES.msbParity keyBytes)))
                block rest iv) as H.
  cbv beta in H. apply H; [|exact Hb | exact Hiv].
  intros b. apply desBlock_length.
Qed.

(** With the first two keys equal, encrypt-decrypt-encrypt is one
    encryption under the third key. *)
Lemma tripleDes_collapse data k k3 :
  length k = 8%nat -> length k3 = 8%nat ->
  tripleDesEncryptCBC data (k ++ k ++ k3) = encryptDES_CBC data k3 DES_IV.
Proof.
  intros Hk Hk3. unfold tripleDesEncryptCBC, encryptDES_CBC.
  assert (Hlk : JS.len k = 8) by (unfold JS.len; rewrite Hk; reflexivity).
  assert (Hlk3 : JS.len k3 = 8) by (unfold JS.len; rewrite Hk3; reflexivity).
  assert (S1 : JS.slice (k ++ k ++ k3) 0 8 = k).
  { pose proof (slice_app [] k (k ++ k3)) as H. cbn [app] in H.
    change (JS.len (@nil Z)) with 0 in H. rewrite Hlk in H. exact H. }
  assert (S2 : JS.slice (k ++ k ++ k3) 8 16 = k).
  { pose proof (slice_app k k k3) as H. rewrite Hlk in H. exact H. }
  assert (S3 : JS.slice (k ++ k ++ k3) 16 24 = k3).
  { pose proof (slice_app (k ++ k) k3 []) as H. rewrite app_nil_r, <- app_assoc in H.
    rewrite len_app, Hlk, Hlk3 in H. exact H. }
  rewrite S1, S2, S3. cbv zeta.
  generalize (DES.generateSubKeys (DES.msbParity k)).
  generalize (DES.generateSubKeys (DES.msbParity k3)). intros sk3 sk.
  pose proof (cbcLoop_ext
                (fun block => DES.desBlock (DES.desDecryptBlock (DES.desBlock block sk) sk) sk3)
                (fun block => DES.desBlock block sk3)) as H.
  apply H. intros block Hl Hb. cbv beta.
  f_equal. exact (desDecryptBlock_desBlock block sk Hb Hl).
Qed.

End CbcMore.


(** * Keys *)

Module KeyFacts.
Import ArrayFacts BytesFacts CbcFacts WordFacts CbcAux KeyAux.

Lemma msbParity_map keyBytes : DES.msbParity keyBytes = map parityByte keyBytes.
Proof. unfold DES.msbParity. apply map_ext. intros k. unfold parityByte. reflexivity. Qed.

(** A property of bytes checked on all 256 of them. *)
Lemma all_bytes (check : Z -> bool) k :
  forallb check (JS.zrange 0 256) = true -> byte k -> check k = true.
Proof.
  intros Hall H. rewrite forallb_forall in Hall.
  apply Hall, zrange_In. unfold byte in H. lia.
Qed.

Lemma parityByte_byte k : byte k -> byte (parityByte k).
Proof.
  intros H. apply byteb_iff.
  apply (all_bytes (fun k => byteb (parityByte k))); [vm_compute; reflexivity | exact H].
Qed.

Lemma parityByte_low k : byte k -> parityByte k mod 128 = k mod 128.
Proof.
  intros H. apply Z.eqb_eq.
  apply (all_bytes (fun k => parityByte k mod 128 =? k mod 128));
    [vm_compute; reflexivity | exact H].
Qed.

Lemma parityByte_odd k : byte k -> Z.odd (popcount8 (parityByte k)) = true.
Proof.
  intros H.
  apply (all_bytes (fun k => Z.odd (popcount8 (parityByte k))));
    [vm_compute; reflexivity | exact H].
Qed.

Lemma parityByte_idempotent k :
  byte k -> parityByte (parityByte k) = parityByte k.
Proof.
  intros H. apply Z.eqb_eq.
  apply (all_bytes (fun k => parityByte (parityByte k) =? parityByte k));
    [vm_compute; reflexivity | exact H].
Qed.

Lemma parityByte_top_bit k :
  byte k -> parityByte (Z.lxor k 0x80) = parityByte k.
Proof.
  intros H. apply Z.eqb_eq.
  apply (all_bytes (fun k => parityByte (Z.lxor k 0x80) =? parityByte k));
    [vm_compute; reflexivity | exact H].
Qed.

Lemma msbParity_parity keyBytes :
  bytes keyBytes -> Forall2 parityOk keyBytes (DES.msbParity keyBytes).
Proof.
  intros H. rewrite msbParity_map. induction H as [|k l Hk _ IH]; cbn [map]; constructor.
  - unfold parityOk. split; [apply parityByte_byte, Hk|].
    split; [apply parityByte_low, Hk | apply parityByte_odd, Hk].
  - exact IH.
Qed.

Lemma msbParity_idempotent keyBytes :
  bytes keyBytes -> DES.msbParity (DES.msbParity keyBytes) = DES.msbParity keyBytes.
Proof.
  intros H. rewrite (msbParity_map keyBytes), (msbParity_map (map _ keyBytes)), map_map. apply map_ext_in. intros k Hk.
  unfold bytes in H. rewrite Forall_forall in H. apply parityByte_idempotent, H, Hk.
Qed.

Lemma msbParity_top_bit keyBytes :
  bytes keyBytes ->
  DES.msbParity (map (fun k => Z.lxor k 0x80) keyBytes) = DES.msbParity keyBytes.
Proof.
  intros H. rewrite (msbParity_map keyBytes), (msbParity_map (map _ keyBytes)), map_map. apply map_ext_in. intros k Hk.
  unfold bytes in H. rewrite Forall_forall in H. apply parityByte_top_bit, H, Hk.
Qed.

Lemma lor_bound a b n :
  0 <= n -> 0 <= a < 2 ^ n -> 0 <= b < 2 ^ n -> 0 <= Z.lor a b < 2 ^ n.
Proof.
  intros Hn Ha Hb. split; [apply Z.lor_nonneg; lia|].
  destruct (Z.eq_dec (Z.lor a b) 0) as [E | E].
  - rewrite E. apply Z.pow_pos_nonneg; lia.
  - assert (0 < Z.lor a b) by (pose proof (proj2 (Z.lor_nonneg a b) (conj (proj1 Ha) (proj1 Hb))); lia).
    apply Z.log2_lt_pow2; [assumption|].
    rewrite Z.log2_lor by lia.
    destruct (Z.eq_dec a 0) as [-> | Ea], (Z.eq_dec b 0) as [-> | Eb].
    + cbn in E. contradiction.
    + rewrite Z.max_r by (cbn; apply Z.log2_nonneg). apply Z.log2_lt_pow2; lia.
    + rewrite Z.max_l by (cbn; apply Z.log2_nonneg). apply Z.log2_lt_pow2; lia.
    + apply Z.max_lub_lt; apply Z.log2_lt_pow2; lia.
Qed.

Lemma and_1 x : x .& 1 = JS.ToUint32 x mod 2.
Proof. change 1 with (Z.ones 1). rewrite and_ones by lia. reflexivity. Qed.

Lemma getBitCD_bit C D bit1based : 0 <= DES.getBitCD C D bit1based <= 1.
Proof.
  unfold DES.getBitCD. destruct (bit1based <=? 28); rewrite and_1;
    match goal with |- context [?a mod 2] => pose proof (Z.mod_pos_bound a 2) end; lia.
Qed.

(** One more selected bit keeps the half subkey below 2^24. *)
Lemma half_step kHalf bit i :
  0 <= kHalf < 2 ^ 24 -> 0 <= bit <= 1 -> 0 <= i < 24 ->
  0 <= (kHalf .| (bit << (23 - i))) >>> 0 < 2 ^ 24.
Proof.
  intros Hk Hb Hi. rewrite JSFacts.shru_0, ToUint32_or, ToUint32_shl by lia.
  rewrite JSFacts.ToUint32_small by lia.
  assert (Hp : 0 < 2 ^ (23 - i) <= 2 ^ 23)
    by (split; [apply Z.pow_pos_nonneg; lia | apply Z.pow_le_mono_r; lia]).
  rewrite Z.mod_small by nia.
  apply lor_bound; [lia | lia | nia].
Qed.

Lemma keyRound_spec round C D subKeys :
  exists C' D' K,
    DES.keyRound round (C, D, subKeys) = (C', D', subKeys ++ [K]) /\ subKeyOk K.
Proof.
  unfold DES.keyRound. cbv zeta.
  do 3 eexists. split; [reflexivity|]. unfold subKeyOk. cbn [fst snd].
  split; apply (for_loop_invariant (fun k => 0 <= k < 2 ^ 24)); try lia;
    intros i st Hi Hst; apply half_step; try assumption; try lia; apply getBitCD_bit.
Qed.

Lemma keyRounds_spec rounds : forall C D subKeys,
  exists C' D' new,
    fold_left (fun st i => DES.keyRound i st) rounds (C, D, subKeys)
    = (C', D', subKeys ++ new)
    /\ length new = length rounds /\ Forall subKeyOk new.
Proof.
  induction rounds as [|r rounds IH]; intros C D subKeys.
  - exists C, D, []. rewrite app_nil_r. repeat split. constructor.
  - cbn [fold_left]. destruct (keyRound_spec r C D subKeys) as (C1 & D1 & K & E & HK).
    rewrite E. destruct (IH C1 D1 (subKeys ++ [K])) as (C2 & D2 & new & E2 & Hl & Hf).
    exists C2, D2, (K :: new). rewrite E2, <- app_assoc. repeat split.
    + cbn [length]. rewrite Hl. reflexivity.
    + constructor; assumption.
Qed.

(** The key schedule always holds 16 subkeys of two 24-bit halves. *)
Lemma generateSubKeys_shape keyBytes :
  length (DES.generateSubKeys keyBytes) = 16%nat
  /\ Forall subKeyOk (DES.generateSubKeys keyBytes).
Proof.
  unfold DES.generateSubKeys. destruct (DES.pc1 keyBytes) as [C D].
  unfold JS.for_loop.
  destruct (keyRounds_spec (JS.zrange 0 16) C D []) as (C' & D' & new & E & Hl & Hf).
  rewrite E. cbn [app]. split; [rewrite Hl; reflexivity | exact Hf].
Qed.

End KeyFacts.


(** * More about key derivation, padding and the length field *)

Module DeriveFacts.
Import ArrayFacts BytesFacts PaddingFacts CbcFacts WordFacts ChunkFacts LockFacts.
Import RoundTripFacts KeyFacts ChunkAux LockAux PadAux.

Lemma for_loop_ext {S} lo hi (body1 body2 : Z -> S -> S) s :
  (forall i st, lo <= i < hi -> body1 i st = body2 i st) ->
  JS.for_loop lo hi body1 s = JS.for_loop lo hi body2 s.
Proof.
  intros H. unfold JS.for_loop.
  assert (Hin : forall i, In i (JS.zrange lo hi) -> lo <= i < hi)
    by (intros i; apply zrange_In).
  revert s. induction (JS.zrange lo hi) as [|i l IH]; intros s; [reflexivity|].
  cbn [fold_left]. rewrite H by (apply Hin; left; reflexivity).
  apply IH. intros j Hj. apply Hin. right. exact Hj.
Qed.

(** Filling [k] cells behind a prefix, in order. *)
Lemma store_loop_at (f : Z -> Z) pre k m :
  0 <= k <= m ->
  JS.for_loop 0 k (fun j a => JS.store a (JS.len pre + j) (f j)) (pre ++ JS.zeros m)
  = pre ++ map (fun j => JS.ToUint8 (f j)) (JS.zrange 0 k) ++ JS.zeros (m - k).
Proof.
  intros Hk. unfold JS.for_loop.
  assert (H : forall n : nat, Z.of_nat n <= m ->
            fold_left (fun st i => JS.store st (JS.len pre + i) (f i))
              (JS.zrange 0 (Z.of_nat n)) (pre ++ JS.zeros m)
            = pre ++ map (fun j => JS.ToUint8 (f j)) (JS.zrange 0 (Z.of_nat n))
                ++ JS.zeros (m - Z.of_nat n)).
  { induction n as [|n IH]; intros Hn.
    - cbn. rewrite Z.sub_0_r. reflexivity.
    - rewrite Nat2Z.inj_succ, <- Z.add_1_r.
      rewrite zrange_snoc by lia. rewrite fold_left_app, map_app. cbn [fold_left map].
      rewrite IH by lia.
      replace (m - Z.of_nat n) with (1 + (m - (Z.of_nat n + 1))) by lia.
      rewrite zeros_add by lia. change (JS.zeros 1) with [0]. cbn [app].
      rewrite app_assoc. rewrite store_app_at.
      + rewrite <- !app_assoc. reflexivity.
      + rewrite len_app. unfold JS.len at 3. rewrite length_map, zrange_length. lia. }
  specialize (H (Z.to_nat k)). rewrite Z2Nat.id in H by lia. apply H. lia.
Qed.

Lemma map_get_zrange l : map (fun i => l.[i]) (JS.zrange 0 (JS.len l)) = l.
Proof.
  apply nth_ext with (d := 0) (d' := 0).
  - rewrite length_map, zrange_length. unfold JS.len. lia.
  - intros n Hn. rewrite length_map, zrange_length in Hn.
    pose proof (get_map_zrange (fun i => l.[i]) (JS.len l) (Z.of_nat n)) as H.
    unfold JS.get at 1 in H.
    destruct (Z.ltb_spec (Z.of_nat n) 0); [lia|].
    rewrite Nat2Z.id in H. rewrite H by (unfold JS.len in *; lia).
    unfold JS.get. destruct (Z.ltb_spec (Z.of_nat n) 0); [lia|].
    rewrite Nat2Z.id. reflexivity.
Qed.

Lemma map_ToUint8_bytes l : bytes l -> map JS.ToUint8 l = l.
Proof.
  intros H. induction H as [|x l Hx _ IH]; [reflexivity|].
  cbn [map]. rewrite ToUint8_small by exact Hx. rewrite IH. reflexivity.
Qed.

Lemma lxor_bound a b n :
  0 <= n -> 0 <= a < 2 ^ n -> 0 <= b < 2 ^ n -> 0 <= Z.lxor a b < 2 ^ n.
Proof.
  intros Hn Ha Hb.
  assert (H0 : 0 <= Z.lxor a b) by (apply Z.lxor_nonneg; lia).
  split; [exact H0|].
  destruct (Z.eq_dec (Z.lxor a b) 0) as [E | E].
  - rewrite E. apply Z.pow_pos_nonneg; lia.
  - assert (Hpos : 0 < n).
    { destruct (Z.eq_dec n 0) as [-> | Hn0]; [|lia].
      change (2 ^ 0) with 1 in Ha, Hb.
      assert (a = 0) as -> by lia. assert (b = 0) as -> by lia.
      exfalso. apply E. reflexivity. }
    apply (proj2 (Z.log2_lt_pow2 (Z.lxor a b) n ltac:(lia))).
    apply Z.le_lt_trans with (Z.max (Z.log2 a) (Z.log2 b)); [apply Z.log2_lxor; lia|].
    assert (La : Z.log2 a < n).
    { destruct (Z.eq_dec a 0) as [-> | Ea]; [cbn; lia|].
      apply (proj1 (Z.log2_lt_pow2 a n ltac:(lia))). lia. }
    assert (Lb : Z.log2 b < n).
    { destruct (Z.eq_dec b 0) as [-> | Eb]; [cbn; lia|].
      apply (proj1 (Z.log2_lt_pow2 b n ltac:(lia))). lia. }
    lia.
Qed.

(** [^] on two bytes is the exclusive or of the bytes, a byte. *)
Lemma xor_bytes x y : byte x -> byte y -> JS.ToUint8 (x .^ y) = Z.lxor x y.
Proof.
  unfold byte. intros Hx Hy.
  pose proof (lxor_bound x y 8 ltac:(lia) ltac:(change (2 ^ 8) with 256; lia)
                ltac:(change (2 ^ 8) with 256; lia)) as Hb.
  change (2 ^ 8) with 256 in Hb.
  unfold JS.xor.
  rewrite (JSFacts.ToInt32_small x), (JSFacts.ToInt32_small y) by lia.
  rewrite (JSFacts.ToInt32_small (Z.lxor x y)) by lia.
  apply ToUint8_small. exact Hb.
Qed.

Lemma XOR_SEED_bytes : bytes XOR_SEED.
Proof. apply bytesb_iff. reflexivity. Qed.

(** An identifier shorter than 16 bytes is the beginning of its own key;
    the rest of the key is the seed xored with the identifier repeated. *)
Lemma keyDerivation_short b :
  bytes b -> 0 < JS.len b < 16 ->
  keyDerivation (IdBytes b)
  = Some (b ++ map (fun j => Z.lxor (XOR_SEED.[JS.len b + j]) (b.[j mod JS.len b]))
                   (JS.zrange 0 (16 - JS.len b))).
Proof.
  intros Hb Hn. unfold keyDerivation. cbv zeta.
  destruct (Z.eqb_spec (JS.len b) 0) as [E | _]; [lia|].
  rewrite (Z.gtb_ltb (JS.len b) 128).
  destruct (Z.ltb_spec 128 (JS.len b)) as [E | _]; [lia|].
  rewrite (Z.geb_leb (JS.len b) 16).
  destruct (Z.leb_spec 16 (JS.len b)) as [E | _]; [lia|].
  f_equal.
  rewrite (for_loop_ext 0 (JS.len b) _
             (fun i a => JS.store a (JS.len (@nil Z) + i) (b.[i])))
    by (intros i st _; reflexivity).
  pose proof (store_loop_at (fun i => b.[i]) [] (JS.len b) 16 ltac:(lia)) as H1.
  cbn [app] in H1. rewrite H1. clear H1.
  rewrite <- (map_map (fun i => b.[i]) JS.ToUint8).
  rewrite map_get_zrange, (map_ToUint8_bytes b Hb).
  pose proof (store_loop_at
                (fun j => XOR_SEED.[JS.len b + j] .^ b.[Z.rem j (JS.len b)])
                b (16 - JS.len b) (16 - JS.len b) ltac:(lia)) as H2.
  cbv beta in H2. rewrite H2. clear H2.
  rewrite Z.sub_diag. change (JS.zeros 0) with (@nil Z). rewrite app_nil_r.
  f_equal. apply map_ext_in. intros j Hj. apply zrange_In in Hj.
  rewrite Z.rem_mod_nonneg by lia.
  apply xor_bytes.
  - apply get_bytes. exact XOR_SEED_bytes.
  - apply get_bytes. exact Hb.
Qed.

(** Only the first 128 bytes of an identifier reach the key. *)
Lemma keyDerivation_truncates b :
  128 <= JS.len b ->
  keyDerivation (IdBytes b) = keyDerivation (IdBytes (firstn 128 b)).
Proof.
  intros Hn. unfold keyDerivation. cbv zeta.
  assert (Hl : JS.len (firstn 128 b) = 128).
  { unfold JS.len in *. rewrite length_firstn. lia. }
  rewrite Hl. change (128 =? 0) with false. change (128 >? 128) with false.
  cbv iota. change (128 >=? 16) with true. cbv iota.
  destruct (Z.eqb_spec (JS.len b) 0) as [E | _]; [lia|].
  assert (Hlen : (if JS.len b >? 128 then 128 else JS.len b) = 128).
  { rewrite (Z.gtb_ltb (JS.len b) 128).
    destruct (Z.ltb_spec 128 (JS.len b)); [reflexivity | lia]. }
  rewrite Hlen. change (128 >=? 16) with true. cbv iota.
  rewrite !slice_0_firstn by lia. change (Z.to_nat 128) with 128%nat.
  rewrite firstn_firstn. change (Nat.min 128 128) with 128%nat. reflexivity.
Qed.

(** The last byte of a padded message tells how many bytes were appended. *)
Lemma addYamahaPadding_unpad data :
  let padded := addYamahaPadding data in
  let last := padded.[JS.len padded - 1] in
  let n := if last =? 0 then 8 else 8 - last in
  firstn (Z.to_nat (JS.len padded - n)) padded = data.
Proof.
  cbv zeta. pose proof (len_nonneg data) as HL.
  pose proof (padLenOf_range (JS.len data)) as Hp.
  pose proof (Z.mod_pos_bound (JS.len data) 8 ltac:(lia)) as Hm.
  rewrite addYamahaPadding_eq.
  set (p := padLenOf (JS.len data)) in *.
  assert (Hlen : JS.len (data ++ JS.zeros (p - 1) ++ [JS.len data mod 8])
                 = JS.len data + p).
  { rewrite !len_app, len_zeros, len_cons, len_nil by lia. lia. }
  rewrite Hlen.
  assert (Hlast : (data ++ JS.zeros (p - 1) ++ [JS.len data mod 8]).[JS.len data + p - 1]
                  = JS.len data mod 8).
  { rewrite get_app_r by lia. rewrite get_app_r by (rewrite len_zeros; lia).
    rewrite len_zeros by lia.
    replace (JS.len data + p - 1 - JS.len data - (p - 1)) with 0 by lia.
    reflexivity. }
  rewrite Hlast.
  assert (Hn : (if JS.len data mod 8 =? 0 then 8 else 8 - JS.len data mod 8) = p)
    by reflexivity.
  rewrite Hn.
  replace (JS.len data + p - p) with (JS.len data) by lia.
  unfold JS.len. rewrite Nat2Z.id. apply firstn_exact.
Qed.

Lemma addYamahaPadding_injective a b :
  addYamahaPadding a = addYamahaPadding b -> a = b.
Proof.
  intros H. rewrite <- (addYamahaPadding_unpad a), <- (addYamahaPadding_unpad b).
  rewrite H. reflexivity.
Qed.

Lemma split4 (buf : list Z) offset :
  0 <= offset -> offset + 4 <= JS.len buf ->
  exists pre a b c d post,
    buf = pre ++ a :: b :: c :: d :: post /\ JS.len pre = offset.
Proof.
  intros H0 H4. exists (firstn (Z.to_nat offset) buf).
  assert (Hs : (4 <= length (skipn (Z.to_nat offset) buf))%nat).
  { rewrite length_skipn. unfold JS.len in H4. lia. }
  destruct (skipn (Z.to_nat offset) buf) as [|a [|b [|c [|d post]]]] eqn:E;
    cbn in Hs; try lia.
  exists a, b, c, d, post. split.
  - rewrite <- E. symmetry. apply firstn_skipn.
  - unfold JS.len in *. rewrite length_firstn. lia.
Qed.

Lemma be32_ToUint32 v : be32 (JS.ToUint32 v) = be32 v.
Proof.
  unfold be32. rewrite !byte3. rewrite !byte_mid by lia. rewrite !byte0.
  rewrite JSFacts.ToUint32_idem. reflexivity.
Qed.

(** What [writeUint32BE] stores, [readUint32BE] reads back (modulo 2^32). *)
Lemma readUint32BE_writeUint32BE buf offset value :
  0 <= offset -> offset + 4 <= JS.len buf ->
  readUint32BE (writeUint32BE buf offset value) offset = JS.ToUint32 value.
Proof.
  intros H0 H4.
  destruct (split4 buf offset H0 H4) as (pre & a & b & c & d & post & -> & <-).
  rewrite writeUint32BE_app, <- be32_ToUint32.
  apply readUint32BE_at. apply JSFacts.ToUint32_range.
Qed.

Lemma writeUint32BE_length buf offset value :
  length (writeUint32BE buf offset value) = length buf.
Proof. unfold writeUint32BE. rewrite !store_length. reflexivity. Qed.

End DeriveFacts.


(** * More about the chunk reader *)

Module ReaderMore.
Import ArrayFacts BytesFacts ReadFacts RoundTripFacts ReadAux.

(** Where [skipToNextTag] stops: at the first recognized tag, or at the end. *)
Lemma skipToNextTag_spec buf pos end_ :
  pos <= end_ ->
  let p := skipToNextTag buf pos end_ in
  pos <= p <= end_
  /\ (p < end_ -> isKnownTag buf p = true)
  /\ (forall q, pos <= q < p -> isKnownTag buf q = false).
Proof.
  intros H. cbv zeta.
  pose proof (skipToNextTag_bounds buf pos end_ H) as Hb.
  unfold skipToNextTag in *.
  pose proof (skipLoop_spec (Z.to_nat (end_ - pos)) buf pos) as Hs. cbv zeta in Hs.
  destruct Hs as [Hs1 Hs2].
  split; [exact Hb|]. split; [|exact Hs2].
  intros Hlt. destruct Hs1 as [Hk | He]; [exact Hk | lia].
Qed.

(** A smaller end does not move the next tag, when the tag is before it. *)
Lemma skipToNextTag_truncate buf pos e' e :
  pos <= e' -> e' <= e ->
  skipToNextTag buf pos e < e' ->
  skipToNextTag buf pos e' = skipToNextTag buf pos e.
Proof.
  intros H1 H2 Hlt.
  destruct (skipToNextTag_spec buf pos e ltac:(lia)) as (Hb & Hk & Hno).
  destruct (skipToNextTag_spec buf pos e' H1) as (Hb' & Hk' & Hno').
  set (p := skipToNextTag buf pos e) in *.
  set (p' := skipToNextTag buf pos e') in *.
  destruct (Z.lt_trichotomy p' p) as [Hc | [Hc | Hc]]; [|exact Hc|].
  - specialize (Hk' ltac:(lia)). rewrite (Hno p') in Hk' by lia. discriminate.
  - specialize (Hk ltac:(lia)). rewrite (Hno' p) in Hk by lia. discriminate.
Qed.

Lemma isKnownTag_has buf p :
  isKnownTag buf p = true -> KNOWN_TAGS_has (readFourCC buf p) = true.
Proof.
  unfold isKnownTag. destruct (p + 4 >? JS.len buf); [discriminate | auto].
Qed.

Lemma chunkWithin_weaken buf s s' e c :
  s' <= s -> chunkWithin buf s e c -> chunkWithin buf s' e c.
Proof.
  unfold chunkWithin. intros H (H1 & H2 & H3 & H4 & H5 & H6 & H7).
  repeat split; try assumption. lia.
Qed.

Lemma inOrder_weaken from from' cs :
  from' <= from -> inOrder from cs -> inOrder from' cs.
Proof.
  destruct cs as [|c r]; cbn [inOrder]; [auto|]. intros H [H1 H2]. split; [lia | exact H2].
Qed.

(** The loop keeps what it has and adds chunks within the bounds, one
    after the other. *)
Lemma readLoop_new fuel buf end_ : forall pos acc cs,
  readLoop fuel buf end_ pos acc = Some cs ->
  exists new, cs = acc ++ new
    /\ Forall (chunkWithin buf pos end_) new /\ inOrder pos new.
Proof.
  induction fuel as [|fuel IH]; intros pos acc cs H; [discriminate|].
  assert (Hnone : Some acc = Some cs ->
                  exists new, cs = acc ++ new
                    /\ Forall (chunkWithin buf pos end_) new /\ inOrder pos new).
  { intros E. inversion E; subst. exists []. rewrite app_nil_r.
    repeat split. constructor. }
  cbn [readLoop] in H.
  destruct (Z.leb_spec (pos + 8) end_) as [Hle | Hgt]; [|exact (Hnone H)].
  pose proof (skipToNextTag_bounds buf pos end_ ltac:(lia)) as Hs.
  set (p := skipToNextTag buf pos end_) in *.
  destruct (Z.gtb_spec (p + 8) end_) as [Hb | Hb]; [exact (Hnone H)|].
  destruct (KNOWN_TAGS_has (readFourCC buf p)) eqn:Hk; cbn [negb] in H;
    [|exact (Hnone H)].
  pose proof (readUint32BE_range buf (p + 4)) as Hsz.
  set (size := readUint32BE buf (p + 4)) in *.
  pose proof (slice_length_le buf (p + 8) (Z.min (p + 8 + size) end_) ltac:(lia)) as Hsl.
  apply IH in H. destruct H as (new & -> & Hw & Ho).
  eexists. split; [rewrite <- app_assoc; cbn [app]; reflexivity|].
  split.
  - constructor.
    + unfold chunkWithin. cbn [Chunk.id Chunk.offset Chunk.size Chunk.data].
      repeat split; try assumption; try lia; try reflexivity.
    + eapply Forall_impl; [|exact Hw]. intros c. apply chunkWithin_weaken. lia.
  - cbn [inOrder Chunk.offset Chunk.data]. split; [lia|].
    eapply inOrder_weaken; [|exact Ho]. lia.
Qed.

Lemma readChunks_inOrder buf startOffset endOffset chunks :
  readChunks buf startOffset endOffset = Some chunks -> inOrder startOffset chunks.
Proof.
  unfold readChunks. intros H. apply readLoop_new in H.
  destruct H as (new & -> & _ & Ho). exact Ho.
Qed.

(** No chunk comes back exactly when no recognized tag starts where a
    header still has room. *)
Lemma readChunks_nil_iff buf startOffset endOffset :
  readChunks buf startOffset endOffset = Some []
  <-> forall p, startOffset <= p -> p + 8 <= endOf buf endOffset ->
                isKnownTag buf p = false.
Proof.
  unfold readChunks. fold (endOf buf endOffset).
  set (end_ := endOf buf endOffset). unfold readFuel.
  set (fuel := Z.to_nat (end_ - startOffset)).
  cbn [readLoop].
  destruct (Z.leb_spec (startOffset + 8) end_) as [Hle | Hgt].
  2:{ split; [intros _ p H1 H2; lia | reflexivity]. }
  destruct (skipToNextTag_spec buf startOffset end_ ltac:(lia)) as (Hb & Hk & Hno).
  set (p := skipToNextTag buf startOffset end_) in *.
  destruct (Z.gtb_spec (p + 8) end_) as [Hp | Hp].
  { split; [|reflexivity]. intros _ q H1 H2. apply Hno. lia. }
  specialize (Hk ltac:(lia)).
  rewrite (isKnownTag_has buf p Hk). cbn [negb].
  split.
  - intros H. apply readLoop_new in H. destruct H as (new & E & _).
    cbn [app] in E. discriminate.
  - intros H. rewrite (H p) in Hk by lia. discriminate.
Qed.

(** Reading up to a smaller end keeps every chunk whose declared extent
    lies before that end. *)
Lemma readLoop_truncate buf e' e :
  e' <= e ->
  forall fuel pos acc cs cs',
    readLoop fuel buf e pos acc = Some cs ->
    readLoop fuel buf e' pos acc = Some cs' ->
    forall c, In c cs -> Chunk.offset c + 8 + Chunk.size c <= e' -> In c cs'.
Proof.
  intros Hee. induction fuel as [|fuel IH]; intros pos acc cs cs' H H' c Hin Hfit;
    [discriminate|].
  assert (Hacc : In c acc -> In c cs').
  { intros Ha. apply readLoop_new in H'. destruct H' as (new' & -> & _).
    apply in_or_app. left. exact Ha. }
  cbn [readLoop] in H, H'.
  destruct (Z.leb_spec (pos + 8) e) as [Hle | Hgt];
    [|inversion H; subst; apply Hacc, Hin].
  destruct (skipToNextTag_spec buf pos e ltac:(lia)) as (Hb & _ & _).
  pose proof (skipToNextTag_truncate buf pos e' e) as Htr.
  set (p := skipToNextTag buf pos e) in *.
  destruct (Z.gtb_spec (p + 8) e) as [Hp | Hp];
    [inversion H; subst; apply Hacc, Hin|].
  destruct (KNOWN_TAGS_has (readFourCC buf p)) eqn:Hk; cbn [negb] in H;
    [|inversion H; subst; apply Hacc, Hin].
  pose proof (readUint32BE_range buf (p + 4)) as Hsz.
  set (size := readUint32BE buf (p + 4)) in *.
  pose proof (readLoop_new _ _ _ _ _ _ H) as (new1 & E & Hw & _).
  destruct (in_dec (fun a b : Chunk.t => ltac:(repeat decide equality))
              c acc) as [Ha | Hna]; [apply Hacc, Ha|].
  assert (Hc : p <= Chunk.offset c /\ 0 <= Chunk.size c
               /\ (Chunk.offset c = p \/ Z.min (p + 8 + size) e <= Chunk.offset c)
               /\ (Chunk.offset c = p -> Chunk.size c = size)).
  { subst cs. rewrite <- app_assoc in Hin. apply in_app_or in Hin.
    destruct Hin as [Ha | Hin]; [contradiction|].
    destruct Hin as [<- | Hin].
    - cbn [Chunk.offset Chunk.size]. repeat split; lia.
    - rewrite Forall_forall in Hw. specialize (Hw c Hin).
      destruct Hw as (_ & Hw2 & _ & _ & Hw5 & _).
      pose proof (readUint32BE_range buf (Chunk.offset c + 4)).
      repeat split; lia. }
  destruct Hc as (Hc1 & Hc2 & Hc3 & Hc4).
  destruct (Z.leb_spec (pos + 8) e') as [Hle' | Hgt']; [|lia].
  rewrite Htr in H' by lia.
  destruct (Z.gtb_spec (p + 8) e') as [Hp' | Hp']; [lia|].
  rewrite Hk in H'. cbn [negb] in H'. fold size in H'.
  destruct (Z.le_gt_cases (p + 8 + size) e') as [Hin' | Hout'].
  - rewrite Z.min_l in H by lia. rewrite Z.min_l in H' by lia.
    exact (IH _ _ _ _ H H' c Hin Hfit).
  - exfalso. destruct Hc3 as [Hc3 | Hc3]; [rewrite (Hc4 Hc3) in Hfit; lia | lia].
Qed.

Lemma readChunks_truncate buf startOffset e e' cs cs' :
  e' <= e ->
  readChunks buf startOffset (Some e) = Some cs ->
  readChunks buf startOffset (Some e') = Some cs' ->
  forall c, In c cs -> Chunk.offset c + 8 + Chunk.size c <= e' -> In c cs'.
Proof.
  unfold readChunks. intros Hee H H'.
  apply (readLoop_fuel_le _ (readFuel startOffset e)) in H';
    [|unfold readFuel; lia].
  exact (readLoop_truncate buf e' e Hee _ _ _ _ _ H H').
Qed.

End ReaderMore.


(** * The key bits the schedule reads *)

Module KeyBits.
Import ArrayFacts BytesFacts WordFacts CbcFacts DeriveFacts.

Lemma shru_split x s : 1 <= s < 32 -> x >>> s = (x >>> 1) >>> (s - 1).
Proof.
  intros Hs. rewrite (shru_div x s), (shru_div x 1), (shru_div _ (s - 1)) by lia.
  pose proof (JSFacts.ToUint32_range x) as Hx.
  rewrite (JSFacts.ToUint32_small (JS.ToUint32 x / 2 ^ 1)).
  - rewrite Z.div_div by (try apply Z.pow_pos_nonneg; lia).
    rewrite <- Z.pow_add_r by lia. f_equal. f_equal. lia.
  - change (2 ^ 1) with 2. split; [apply Z.div_pos; lia|].
    apply Z.lt_le_trans with (2 ^ 31); [|lia].
    apply Z.div_lt_upper_bound; lia.
Qed.

(** A key bit that is not the last of its byte does not depend on the
    lowest bit of the byte. *)
Lemma getBit64_low k k' b :
  (forall i, k.[i] >>> 1 = k'.[i] >>> 1) ->
  1 <= b <= 64 -> b mod 8 <> 0 ->
  DES.getBit64 k b = DES.getBit64 k' b.
Proof.
  intros H Hb Hm. unfold DES.getBit64. cbv zeta.
  change 7 with (Z.ones 3) at 2 4. rewrite !and_ones by lia.
  rewrite JSFacts.ToUint32_small by lia. change (2 ^ 3) with 8.
  assert (Hr : 0 <= (b - 1) mod 8 < 7).
  { pose proof (Z.mod_pos_bound (b - 1) 8 ltac:(lia)).
    assert ((b - 1) mod 8 <> 7); [|lia].
    intros E. apply Hm.
    replace b with ((b - 1) + 1) by lia.
    rewrite Z.add_mod, E by lia. reflexivity. }
  rewrite (shru_split (k.[_])), (shru_split (k'.[_])) by lia.
  rewrite H. reflexivity.
Qed.

Lemma PC1_low i :
  0 <= i < 28 ->
  (1 <= DES.PC1_C.[i] <= 64 /\ DES.PC1_C.[i] mod 8 <> 0)
  /\ (1 <= DES.PC1_D.[i] <= 64 /\ DES.PC1_D.[i] mod 8 <> 0).
Proof.
  intros Hi.
  assert (Hall : forallb (fun i =>
             let c := DES.PC1_C.[i] in let d := DES.PC1_D.[i] in
             (1 <=? c) && (c <=? 64) && negb (c mod 8 =? 0)
             && (1 <=? d) && (d <=? 64) && negb (d mod 8 =? 0))
            (JS.zrange 0 28) = true) by (vm_compute; reflexivity).
  rewrite forallb_forall in Hall. specialize (Hall i (proj2 (zrange_In 0 28 i) Hi)).
  cbv zeta in Hall.
  repeat (apply andb_true_iff in Hall; destruct Hall as [Hall ?]).
  repeat match goal with
         | H : negb _ = true |- _ => apply negb_true_iff, Z.eqb_neq in H
         | H : (_ <=? _) = true |- _ => apply Z.leb_le in H
         end.
  lia.
Qed.

Lemma pc1_low k k' :
  (forall i, k.[i] >>> 1 = k'.[i] >>> 1) -> DES.pc1 k = DES.pc1 k'.
Proof.
  intros H. unfold DES.pc1. apply for_loop_ext. intros i [C D] Hi.
  destruct (PC1_low i Hi) as [[Hc1 Hc2] [Hd1 Hd2]].
  rewrite (getBit64_low k k' _ H Hc1 Hc2), (getBit64_low k k' _ H Hd1 Hd2).
  reflexivity.
Qed.

Lemma get_map_shru k k' i :
  map (fun b => b >>> 1) k = map (fun b => b >>> 1) k' -> k.[i] >>> 1 = k'.[i] >>> 1.
Proof.
  intros H. unfold JS.get. destruct (i <? 0); [reflexivity|].
  pose proof (map_nth (fun b => b >>> 1) k 0 (Z.to_nat i)) as E1.
  pose proof (map_nth (fun b => b >>> 1) k' 0 (Z.to_nat i)) as E2.
  cbv beta in E1, E2. rewrite <- E1, <- E2, H. reflexivity.
Qed.

(** The key schedule does not read the lowest bit of a key byte. *)
Lemma generateSubKeys_low k k' :
  map (fun b => b >>> 1) k = map (fun b => b >>> 1) k' ->
  DES.generateSubKeys k = DES.generateSubKeys k'.
Proof.
  intros H. unfold DES.generateSubKeys.
  rewrite (pc1_low k k'); [reflexivity|].
  intros i. apply get_map_shru, H.
Qed.

End KeyBits.


(** * More about the parsers *)

Module ParseFacts.
Import ArrayFacts BytesFacts ChunkFacts ReadFacts RoundTripFacts ReaderMore ReadAux ParseAux.

(** ** [parsePPFRaw] *)

Lemma ppfStep_Some st chunk :
  exists st', ppfStep (Some st) chunk = Some st'
    /\ length (snd st')
       = (length (snd st) + if isBlob chunk then 1 else 0)%nat.
Proof.
  destruct st as [[uid title] blobs]. unfold ppfStep, isBlob. cbn [snd].
  destruct (Text.string_eqb (Chunk.id chunk) (Text.lit "EUID")) eqn:E1.
  { apply string_eqb_eq in E1. rewrite E1.
    change (Text.string_eqb (Text.lit "EUID") (Text.lit "BLOB")) with false.
    change (Text.string_eqb (Text.lit "EUID") (Text.lit "ETIT")) with false.
    cbn [andb]. destruct (isEmpty uid); eexists; (split; [reflexivity|]); cbn [snd]; lia. }
  cbn [andb].
  destruct (Text.string_eqb (Chunk.id chunk) (Text.lit "ETIT")) eqn:E2.
  { apply string_eqb_eq in E2. rewrite E2.
    change (Text.string_eqb (Text.lit "ETIT") (Text.lit "BLOB")) with false.
    cbn [andb]. destruct (isEmpty title); eexists; (split; [reflexivity|]); cbn [snd]; lia. }
  cbn [andb].
  destruct (Text.string_eqb (Chunk.id chunk) (Text.lit "BLOB")) eqn:E3.
  - unfold readSubChunks.
    destruct (readChunks_returns (Chunk.data chunk) 0 None) as [sub [Hs _]].
    rewrite Hs. eexists. split; [reflexivity|]. cbn [snd]. rewrite length_app. cbn. lia.
  - eexists. split; [reflexivity|]. cbn [snd]. lia.
Qed.

Lemma ppf_fold chunks : forall st,
  exists st', fold_left ppfStep chunks (Some st) = Some st'
    /\ length (snd st') = (length (snd st) + length (filter isBlob chunks))%nat.
Proof.
  induction chunks as [|c chunks IH]; intros st.
  - exists st. split; [reflexivity | cbn; lia].
  - cbn [fold_left filter].
    destruct (ppfStep_Some st c) as [st1 [H1 L1]]. rewrite H1.
    destruct (IH st1) as [st2 [H2 L2]]. exists st2. split; [exact H2|].
    rewrite L2, L1. destruct (isBlob c); cbn [length]; lia.
Qed.

(** [parsePPFRaw] returns a pack for every buffer, with one entry for
    every BLOB chunk at the top level. *)
Lemma parsePPFRaw_returns buf :
  exists chunks pack,
    readChunks buf 8 None = Some chunks
    /\ parsePPFRaw buf = Some pack
    /\ length (Pack.blobs pack) = length (filter isBlob chunks).
Proof.
  destruct (readChunks_returns buf 8 None) as [chunks [Hc _]].
  exists chunks. unfold parsePPFRaw. rewrite Hc.
  destruct (ppf_fold chunks (@nil Z, @nil Z, @nil Blob.t)) as [[[uid title] blobs] [Hf Hl]].
  cbn [snd length] in Hl.
  destruct (fold_left ppfStep chunks _) as [[[u t] b]|]; [|discriminate].
  inversion Hf; subst. eexists. split; [reflexivity|]. split; [reflexivity|]. exact Hl.
Qed.

(** A buffer too short for a file header and a chunk header holds no pack
    content. *)
Lemma parsePPFRaw_short buf :
  JS.len buf < 16 -> parsePPFRaw buf = Some emptyPack.
Proof.
  intros H. unfold parsePPFRaw.
  rewrite (proj2 (readChunks_nil_iff buf 8 None)); [reflexivity|].
  intros p H1 H2. cbn [endOf] in H2. lia.
Qed.

(** ** [parseN27] *)

Lemma get_opt_at pre x rest : JS.get_opt (pre ++ x :: rest) (JS.len pre) = Some x.
Proof.
  unfold JS.get_opt. pose proof (len_nonneg pre).
  destruct (Z.ltb_spec (JS.len pre) 0); [lia|].
  unfold JS.len. rewrite Nat2Z.id, nth_error_app2, Nat.sub_diag by lia. reflexivity.
Qed.

Lemma readStrLoop_bounds n buf end_ :
  end_ <= readStrLoop n buf end_ <= end_ + Z.of_nat n.
Proof.
  revert end_. induction n as [|n IH]; intros end_; cbn [readStrLoop]; [lia|].
  specialize (IH (end_ + 1)).
  destruct (JS.get_opt buf end_) as [[| |]|]; lia.
Qed.

(** Before the position where the loop stops there is no zero byte. *)
Lemma readStrLoop_no_zero n buf end_ p :
  end_ <= p < readStrLoop n buf end_ -> JS.get_opt buf p <> Some 0.
Proof.
  revert end_. induction n as [|n IH]; intros end_ Hp; cbn [readStrLoop] in Hp; [lia|].
  destruct (Z.eq_dec p end_) as [-> | Hne].
  - destruct (JS.get_opt buf end_) as [[| |]|]; try discriminate. lia.
  - apply (IH (end_ + 1)).
    destruct (JS.get_opt buf end_) as [[| |]|]; lia.
Qed.

Lemma In_slice buf a b x :
  0 <= a -> 0 <= b -> In x (JS.slice buf a b) ->
  exists p, a <= p < b /\ JS.get_opt buf p = Some x.
Proof.
  intros Ha Hb Hin. unfold JS.slice in Hin. pose proof (len_nonneg buf) as HL.
  destruct (Z.ltb_spec a 0); [lia|]. destruct (Z.ltb_spec b 0); [lia|].
  apply In_nth_error in Hin. destruct Hin as [n Hn].
  assert (Hlt : (n < length (firstn (Z.to_nat (Z.min b (JS.len buf) - Z.min a (JS.len buf)))
                             (skipn (Z.to_nat (Z.min a (JS.len buf))) buf)))%nat).
  { apply nth_error_Some. rewrite Hn. discriminate. }
  rewrite length_firstn, length_skipn in Hlt.
  rewrite nth_error_firstn in Hn.
  destruct (Nat.ltb_spec n (Z.to_nat (Z.min b (JS.len buf) - Z.min a (JS.len buf))));
    [|unfold JS.len in *; lia].
  rewrite nth_error_skipn in Hn.
  exists (Z.min a (JS.len buf) + Z.of_nat n). unfold JS.len in *. split; [lia|].
  unfold JS.get_opt.
  destruct (Z.ltb_spec (Z.min a (Z.of_nat (length buf)) + Z.of_nat n) 0); [lia|].
  rewrite <- Hn. f_equal. lia.
Qed.

Lemma windows1252_nonzero x :
  x <> 0 ->
  (if (0x80 <=? x) && (x <=? 0x9F) then nth (Z.to_nat (x - 0x80)) Text.windows1252 0 else x)
  <> 0.
Proof.
  intros Hx.
  destruct (Z.leb_spec 0x80 x); cbn [andb]; [|exact Hx].
  destruct (Z.leb_spec x 0x9F); [|exact Hx].
  assert (Hall : forallb (fun x => negb (nth (Z.to_nat (x - 0x80)) Text.windows1252 0 =? 0))
                   (JS.zrange 0x80 0xA0) = true) by (vm_compute; reflexivity).
  rewrite forallb_forall in Hall.
  specialize (Hall x (proj2 (zrange_In 0x80 0xA0 x) ltac:(lia))).
  apply negb_true_iff, Z.eqb_neq in Hall. exact Hall.
Qed.

(** A field is at most [maxLen] characters long and holds no NUL. *)
Lemma readStr_spec buf offset maxLen :
  0 <= offset -> 0 <= maxLen ->
  JS.len (readStr buf offset maxLen) <= maxLen /\ ~ In 0 (readStr buf offset maxLen).
Proof.
  intros Ho Hm. unfold readStr. cbv zeta.
  pose proof (readStrLoop_bounds (Z.to_nat maxLen) buf offset) as Hb.
  set (e := readStrLoop (Z.to_nat maxLen) buf offset) in *.
  split.
  - unfold Text.asciiDecode, JS.len. rewrite length_map.
    pose proof (slice_length_le buf offset e ltac:(lia)) as Hs. unfold JS.len in Hs. lia.
  - unfold Text.asciiDecode. intros Hin. apply in_map_iff in Hin.
    destruct Hin as [x [Hx Hin]].
    apply In_slice in Hin; [|lia|lia]. destruct Hin as [p [Hp Hg]].
    assert (Hx0 : x <> 0).
    { intros ->. exact (readStrLoop_no_zero _ _ _ p Hp Hg). }
    exact (windows1252_nonzero x Hx0 Hx).
Qed.

Lemma parseN27_bounds buf :
  let r := parseN27 buf in
  (JS.len (N27.modelName r) <= 64 /\ ~ In 0 (N27.modelName r))
  /\ (JS.len (N27.serial r) <= 24 /\ ~ In 0 (N27.serial r))
  /\ (JS.len (N27.fullId r) <= 32 /\ ~ In 0 (N27.fullId r)).
Proof.
  cbv zeta. unfold parseN27. cbn [N27.modelName N27.serial N27.fullId].
  repeat split; apply readStr_spec; lia.
Qed.

Lemma asciiText_spec s :
  asciiText s = true -> Forall (fun c => 1 <= c < 128) s.
Proof.
  unfold asciiText. rewrite forallb_forall, Forall_forall. intros H c Hc.
  specialize (H c Hc). apply andb_true_iff in H. destruct H as [H1 H2].
  apply Z.leb_le in H1. apply Z.ltb_lt in H2. lia.
Qed.

Lemma asciiDecode_ascii s : asciiText s = true -> Text.asciiDecode s = s.
Proof.
  intros H. apply asciiText_spec in H. unfold Text.asciiDecode.
  induction H as [|c s Hc _ IH]; [reflexivity|].
  cbn [map]. rewrite IH. destruct (Z.leb_spec 0x80 c); [lia|]. reflexivity.
Qed.

(** The loop runs over a text without zero bytes and stops behind it, at
    the zero byte that follows or when the field is full. *)
Lemma readStrLoop_run s : forall n pre rest,
  Forall (fun c => 1 <= c < 128) s ->
  (length s <= n)%nat ->
  (length s = n \/ exists r, rest = 0 :: r) ->
  readStrLoop n (pre ++ s ++ rest) (JS.len pre) = JS.len pre + JS.len s.
Proof.
  induction s as [|c s IH]; intros n pre rest Hs Hn Hend.
  - rewrite len_nil, Z.add_0_r. cbn [app].
    destruct n as [|n]; [reflexivity|]. cbn [readStrLoop].
    destruct Hend as [Hend | [r ->]]; [discriminate|].
    rewrite get_opt_at. reflexivity.
  - destruct n as [|n]; [cbn in Hn; lia|].
    cbn [readStrLoop]. cbn [app]. rewrite get_opt_at.
    inversion Hs as [|? ? Hc Hs']; subst.
    destruct c as [|c|c]; try lia.
    rewrite (snoc_cons pre). 
    replace (JS.len pre + 1) with (JS.len (pre ++ [Z.pos c]))
      by (rewrite len_app, len_cons, len_nil; lia).
    rewrite IH.
    + rewrite len_app, !len_cons, len_nil. lia.
    + exact Hs'.
    + cbn [length] in Hn. lia.
    + destruct Hend as [Hend | Hend]; [left; cbn [length] in Hend; lia | right; exact Hend].
Qed.

Lemma readStr_field pre s width rest :
  asciiText s = true -> JS.len s <= width ->
  readStr (pre ++ field s width ++ rest) (JS.len pre) width = s.
Proof.
  intros Ha Hw. unfold readStr, field. cbv zeta. rewrite <- !app_assoc.
  pose proof (len_nonneg s) as Hs.
  rewrite (readStrLoop_run s (Z.to_nat width) pre).
  - rewrite slice_app. apply asciiDecode_ascii, Ha.
  - apply asciiText_spec, Ha.
  - unfold JS.len in *. lia.
  - destruct (Z.eq_dec (JS.len s) width) as [E | E].
    + left. unfold JS.len in *. lia.
    + right. replace (width - JS.len s) with (1 + (width - JS.len s - 1)) by lia.
      rewrite zeros_add by lia. change (JS.zeros 1) with [0]. cbn [app].
      eexists. reflexivity.
Qed.

Lemma field_len s width : JS.len s <= width -> JS.len (field s width) = width.
Proof.
  intros H. unfold field. rewrite len_app, len_zeros by lia. lia.
Qed.

(** [parseN27] reads back three fixed-width fields of ASCII text. *)
Lemma parseN27_fields model serial fullId rest :
  asciiText model = true -> asciiText serial = true -> asciiText fullId = true ->
  JS.len model <= 64 -> JS.len serial <= 24 -> JS.len fullId <= 32 ->
  parseN27 (field model 64 ++ field serial 24 ++ field fullId 32 ++ rest)
  = {| N27.modelName := model; N27.serial := serial; N27.fullId := fullId |}.
Proof.
  intros A1 A2 A3 L1 L2 L3. unfold parseN27.
  pose proof (readStr_field [] model 64
                (field serial 24 ++ field fullId 32 ++ rest) A1 L1) as H1.
  cbn [app] in H1. rewrite len_nil in H1. rewrite H1.
  pose proof (readStr_field (field model 64) serial 24
                (field fullId 32 ++ rest) A2 L2) as H2.
  rewrite field_len in H2 by exact L1. rewrite H2.
  pose proof (readStr_field (field model 64 ++ field serial 24) fullId 32 rest A3 L3) as H3.
  rewrite len_app, !field_len in H3 by assumption. change (64 + 24) with 88 in H3.
  rewrite <- app_assoc in H3. rewrite H3. reflexivity.
Qed.

End ParseFacts.


(** * More about the CPI builder *)

Module CpiMore.
Import ArrayFacts BytesFacts PaddingFacts CipherFacts ChunkFacts LockFacts CpiFacts.
Import DeriveFacts ChunkAux LockAux CpiAux CbcAux.

Lemma lockedChunk_eq blob :
  JS.len blob = 80 ->
  buildChunk (Text.lit "CSEC") blob = Text.lit "CSEC" ++ [0; 0; 0; 80] ++ blob.
Proof. intros H. rewrite buildChunk_eq, H. reflexivity. Qed.

(** With a usable identifier the file has the header and the encrypted
    payload of the standard file; the CSEC payload is the locked blob, and
    sixteen random bytes are consumed. *)
Lemma buildEncryptedCPI_locked_layout packData modelName packInstallId id rng :
  truthyId (Some id) = true -> idEmpty id = false ->
  exists blob enc,
    generateLockedCSEC id rng = (inr blob, snd (JS.getRandomValues 16 rng))
    /\ JS.len blob = 80
    /\ encryptDES_CBC (addYamahaPadding (payloadRaw packData)) DES_KEY DES_IV = inr enc
    /\ buildEncryptedCPI packData modelName packInstallId (Some id) rng
       = (inr (headerBytes modelName packInstallId
                 ++ (Text.lit "CSEC" ++ [0; 0; 0; 80] ++ blob) ++ enc),
          snd (JS.getRandomValues 16 rng)).
Proof.
  intros Ht Hne. destruct (keyDerivation_Some id Hne) as [keySlot [Hk _]].
  destruct (generateLockedCSEC_ok id rng keySlot Hk)
    as (airi & aivf & blob & _ & _ & _ & _ & _ & Hl & Hg).
  destruct (payload_encrypts packData) as [enc [He _]].
  exists blob, enc. split; [exact Hg|]. split; [exact Hl|]. split; [exact He|].
  unfold buildEncryptedCPI. rewrite header_eq, Ht, Hg. cbn [JS.bind].
  rewrite He. cbn [JS.bind]. rewrite (lockedChunk_eq blob Hl).
  unfold concatArrays. cbn [concat]. rewrite app_nil_r. reflexivity.
Qed.

(** An empty byte array is an object, so it is taken as an identifier,
    and the key derivation fails on it. *)
Lemma buildEncryptedCPI_empty_bytes packData modelName packInstallId rng :
  buildEncryptedCPI packData modelName packInstallId (Some (IdBytes [])) rng
  = (inl (JS.Error "Empty device key"), rng).
Proof.
  unfold buildEncryptedCPI. cbn [truthyId].
  assert (Hg : generateLockedCSEC (IdBytes []) rng
               = (inl (JS.Error "Empty device key"), rng)) by reflexivity.
  rewrite Hg. reflexivity.
Qed.

(** The block handed to the cipher is the exclusive or of the data block
    and the previous block, byte by byte. *)
Lemma chainBlock_xor data i prevBlock :
  bytes data -> bytes prevBlock ->
  chainBlock data i prevBlock
  = map (fun j => Z.lxor (data.[i + j]) (prevBlock.[j])) (JS.zrange 0 8).
Proof.
  intros Hd Hp. unfold chainBlock.
  rewrite (store_loop (fun j => data.[i + j] .^ prevBlock.[j]) 8) by lia.
  apply map_ext. intros j. apply xor_bytes; apply get_bytes; assumption.
Qed.

End CpiMore.


(** * The claims of the specification *)

Module Claims.
Import ArrayFacts BytesFacts PaddingFacts BlockFacts CipherFacts ChunkFacts.
Import LockFacts CpiFacts ReadFacts RoundTripFacts PackFacts.
Import ChunkAux LockAux CpiAux ReadAux PackAux PadAux.

(** C1. DES known-answer test: the block 01 23 45 67 89 AB CD EF encrypted
    under the key 13 34 57 79 9B BC DF F1, the key first passed through
    [msbParity] and [generateSubKeys], is 85 E8 13 54 0F 0A B4 05. *)
Theorem C1_des_known_answer :
  DES.desBlock Samples.kat_plain (DES.generateSubKeys (DES.msbParity Samples.kat_key))
  = Samples.kat_cipher.
Proof. vm_compute. reflexivity. Qed.

(** C3. Block round trip: for every 8-byte block and every key, decrypting
    the encrypted block under the same key schedule gives the block back. *)
Theorem C3_des_round_trip (block key : list Z) :
  bytesb block = true -> length block = 8%nat ->
  let subKeys := DES.generateSubKeys (DES.msbParity key) in
  DES.desDecryptBlock (DES.desBlock block subKeys) subKeys = block.
Proof.
  intros Hb Hl. cbv zeta. apply desDecryptBlock_desBlock; [|exact Hl].
  apply bytesb_iff, Hb.
Qed.

Lemma C3_des_round_trip_witness :
  bytesb Samples.kat_plain = true /\ length Samples.kat_plain = 8%nat
  /\ DES.desDecryptBlock
       (DES.desBlock Samples.kat_plain (DES.generateSubKeys (DES.msbParity DES_KEY)))
       (DES.generateSubKeys (DES.msbParity DES_KEY)) = Samples.kat_plain.
Proof.
  split; [reflexivity|]. split; [reflexivity|].
  apply (C3_des_round_trip Samples.kat_plain DES_KEY); reflexivity.
Defined.

(** C4. Vendor padding: [addYamahaPadding] keeps the data and appends
    [8 - (L mod 8)] bytes when [L mod 8] is not zero and 8 bytes when it is;
    the padded length is a multiple of 8 and the last byte is [L mod 8]. *)
Theorem C4_vendor_padding (data : list Z) :
  let L := JS.len data in
  let padded := addYamahaPadding data in
  JS.len padded = L + (if L mod 8 =? 0 then 8 else 8 - L mod 8)
  /\ JS.len padded mod 8 = 0
  /\ padded.[JS.len padded - 1] = L mod 8
  /\ firstn (length data) padded = data.
Proof.
  cbv zeta. pose proof (len_nonneg data) as HL.
  pose proof (padLenOf_range (JS.len data)) as Hp.
  repeat split.
  - apply addYamahaPadding_len.
  - rewrite addYamahaPadding_len_blocks, Z.mul_comm. apply Z.mod_mul. lia.
  - rewrite addYamahaPadding_len, addYamahaPadding_eq, app_assoc.
    rewrite get_app_r by (rewrite len_app, len_zeros by lia; lia).
    rewrite len_app, len_zeros by lia.
    replace (JS.len data + padLenOf (JS.len data) - 1
             - (JS.len data + (padLenOf (JS.len data) - 1))) with 0 by lia.
    reflexivity.
  - rewrite addYamahaPadding_eq. apply firstn_exact.
Qed.

(** C5. Output layout without a device identifier: the XPIH container chunk
    holding the XMDL model-name chunk and the 4-byte XPID chunk, then one
    CSEC chunk whose 80-byte payload is the constant blob, then the
    DES-CBC-encrypted padded payload, with nothing in between; the encrypted
    payload has [8 * ceil((plaintext_length + 1) / 8)] bytes. *)
Theorem C5_cpi_layout (packData : Pack.t) (modelName : Text.jsstring)
    (packInstallId : Z) (rng : JS.Rng) :
  exists payloadEncrypted,
    encryptDES_CBC (addYamahaPadding (payloadRaw packData)) DES_KEY DES_IV
      = inr payloadEncrypted
    /\ buildEncryptedCPI packData modelName packInstallId None rng
       = (inr (headerBytes modelName packInstallId
                 ++ (Text.lit "CSEC" ++ [0; 0; 0; 80] ++ CSEC_ENCRYPTED)
                 ++ payloadEncrypted), rng)
    /\ JS.len CSEC_ENCRYPTED = 80
    /\ JS.len payloadEncrypted mod 8 = 0
    /\ JS.len payloadEncrypted = 8 * ((JS.len (payloadRaw packData) + 1 + 7) / 8).
Proof.
  destruct (buildEncryptedCPI_standard packData modelName packInstallId None rng eq_refl)
    as (enc & He & Hl & Hb).
  exists enc. repeat split; try assumption.
  - rewrite Hl, Z.mul_comm. apply Z.mod_mul. lia.
  - rewrite Hl. f_equal.
    replace (JS.len (payloadRaw packData) + 1 + 7)
      with (JS.len (payloadRaw packData) + 1 * 8) by lia.
    rewrite Z.div_add by lia. reflexivity.
Qed.

(** C6. Locked CSEC: for a non-empty device identifier the second block is
    [secondData[j] = (keySlot[j] + firstData[15 - j]) mod 256] for every
    [j] in 0..15, and the blob returned is exactly 80 bytes long. *)
Theorem C6_locked_csec (deviceFullId : DeviceId) (rng : JS.Rng) :
  idEmpty deviceFullId = false ->
  exists keySlot airi aivf blob,
    let firstData := fst (JS.getRandomValues 16 rng) in
    let secondData := secondDataOf keySlot firstData in
    keyDerivation deviceFullId = Some keySlot
    /\ (forall j, 0 <= j < 16 ->
          secondData.[j] = (keySlot.[j] + firstData.[15 - j]) mod 256)
    /\ encryptDES_CBC (addYamahaPadding firstData) DES_KEY_DUALSEAL DES_IV = inr airi
    /\ tripleDesEncryptCBC secondData (keyExpansion keySlot) = inr aivf
    /\ encryptDES_CBC (addYamahaPadding (csecPlaintextOf airi aivf)) DES_KEY DES_IV
       = inr blob
    /\ fst (generateLockedCSEC deviceFullId rng) = inr blob
    /\ JS.len blob = 80.
Proof.
  intros Hne. destruct (keyDerivation_Some deviceFullId Hne) as [keySlot [Hk _]].
  destruct (generateLockedCSEC_ok deviceFullId rng keySlot Hk)
    as (airi & aivf & blob & Ha & _ & Hv & _ & Hb & Hl & Hg).
  exists keySlot, airi, aivf, blob. cbv zeta. repeat split; try assumption.
  - intros j Hj. apply secondDataOf_get. exact Hj.
  - rewrite Hg. reflexivity.
Qed.

Lemma C6_locked_csec_witness :
  exists keySlot airi aivf blob,
    keyDerivation (IdString (Text.lit "ABC")) = Some keySlot
    /\ (forall j, 0 <= j < 16 ->
          (secondDataOf keySlot (fst (JS.getRandomValues 16 Samples.tape))).[j]
          = (keySlot.[j] + (fst (JS.getRandomValues 16 Samples.tape)).[15 - j]) mod 256)
    /\ encryptDES_CBC (addYamahaPadding (fst (JS.getRandomValues 16 Samples.tape)))
         DES_KEY_DUALSEAL DES_IV = inr airi
    /\ tripleDesEncryptCBC (secondDataOf keySlot (fst (JS.getRandomValues 16 Samples.tape)))
         (keyExpansion keySlot) = inr aivf
    /\ encryptDES_CBC (addYamahaPadding (csecPlaintextOf airi aivf)) DES_KEY DES_IV
       = inr blob
    /\ fst (generateLockedCSEC (IdString (Text.lit "ABC")) Samples.tape) = inr blob
    /\ JS.len blob = 80.
Proof.
  apply (C6_locked_csec (IdString (Text.lit "ABC")) Samples.tape). reflexivity.
Defined.

(** C7. [readChunks] returns for every buffer and all bounds, and returns
    only chunks with a recognized tag whose header and payload lie between
    the bounds; the payload is the slice clipped to
    [min(payloadStart + declared length, end)], so a declared length beyond
    the end is cut there. *)
Theorem C7_readChunks_safe (buf : list Z) (startOffset : Z) (endOffset : option Z) :
  let end_ := endOf buf endOffset in
  exists chunks,
    readChunks buf startOffset endOffset = Some chunks
    /\ Forall (fun c =>
         KNOWN_TAGS_has (Chunk.id c) = true
         /\ startOffset <= Chunk.offset c
         /\ Chunk.offset c + 8 <= end_
         /\ Chunk.id c = readFourCC buf (Chunk.offset c)
         /\ Chunk.size c = readUint32BE buf (Chunk.offset c + 4)
         /\ Chunk.data c
            = JS.slice buf (Chunk.offset c + 8)
                (Z.min (Chunk.offset c + 8 + Chunk.size c) end_)
         /\ Chunk.offset c + 8 + JS.len (Chunk.data c) <= end_) chunks.
Proof.
  cbv zeta. destruct (readChunks_returns buf startOffset endOffset) as [chunks [Hr Hw]].
  exists chunks. split; [exact Hr | exact Hw].
Qed.

(** C9. Key derivation fails exactly on the empty identifier:
    [keyDerivation] returns no key if and only if its input is empty, and
    [generateLockedCSEC] raises exactly then; on every other identifier
    the first returns a 16-byte key and the second an encrypted blob. *)
Theorem C9_key_derivation_failure (deviceFullId : DeviceId) (rng : JS.Rng) :
  (keyDerivation deviceFullId = None <-> idEmpty deviceFullId = true)
  /\ ((exists e, fst (generateLockedCSEC deviceFullId rng) = inl e)
      <-> idEmpty deviceFullId = true)
  /\ (idEmpty deviceFullId = true ->
      fst (generateLockedCSEC deviceFullId rng) = inl (JS.Error "Empty device key"))
  /\ (idEmpty deviceFullId = false ->
      exists keySlot blob,
        keyDerivation deviceFullId = Some keySlot /\ JS.len keySlot = 16
        /\ bytes keySlot
        /\ fst (generateLockedCSEC deviceFullId rng) = inr blob).
Proof.
  assert (Hok : idEmpty deviceFullId = false ->
          exists keySlot blob,
            keyDerivation deviceFullId = Some keySlot /\ JS.len keySlot = 16
            /\ bytes keySlot
            /\ fst (generateLockedCSEC deviceFullId rng) = inr blob).
  { intros Hne. destruct (keyDerivation_Some deviceFullId Hne) as [keySlot (Hk & Hl & Hb)].
    destruct (generateLockedCSEC_ok deviceFullId rng keySlot Hk)
      as (airi & aivf & blob & _ & _ & _ & _ & _ & _ & Hg).
    exists keySlot, blob. repeat split; try assumption.
    - unfold JS.len. rewrite Hl. reflexivity.
    - rewrite Hg. reflexivity. }
  assert (Hfail : idEmpty deviceFullId = true ->
          fst (generateLockedCSEC deviceFullId rng) = inl (JS.Error "Empty device key")).
  { intros He. apply keyDerivation_None in He.
    unfold generateLockedCSEC. rewrite He. reflexivity. }
  split; [apply keyDerivation_None|]. split; [|split; assumption].
  split.
  - intros [e He]. destruct (idEmpty deviceFullId) eqn:E; [reflexivity|].
    destruct (Hok eq_refl) as (k & b & _ & _ & _ & Hb). congruence.
  - intros He. eexists. apply Hfail, He.
Qed.

(** C10. The empty string as device identifier: [buildEncryptedCPI] treats
    it as an absent identifier, takes the constant CSEC blob, does not draw
    from the random source and does not raise; so no string identifier
    makes [buildEncryptedCPI] raise. *)
Theorem C10_empty_identifier (packData : Pack.t) (modelName : Text.jsstring)
    (packInstallId : Z) (rng : JS.Rng) :
  buildEncryptedCPI packData modelName packInstallId (Some (IdString [])) rng
  = buildEncryptedCPI packData modelName packInstallId None rng
  /\ (exists payloadEncrypted,
        buildEncryptedCPI packData modelName packInstallId (Some (IdString [])) rng
        = (inr (headerBytes modelName packInstallId
                  ++ (Text.lit "CSEC" ++ [0; 0; 0; 80] ++ CSEC_ENCRYPTED)
                  ++ payloadEncrypted), rng))
  /\ (forall s : Text.jsstring,
        exists out,
          fst (buildEncryptedCPI packData modelName packInstallId (Some (IdString s)) rng)
          = inr out).
Proof.
  split; [reflexivity|]. split.
  - destruct (buildEncryptedCPI_standard packData modelName packInstallId
                (Some (IdString [])) rng eq_refl) as (enc & _ & _ & Hb).
    exists enc. exact Hb.
  - intros s. destruct s as [|c s].
    + destruct (buildEncryptedCPI_standard packData modelName packInstallId
                  (Some (IdString [])) rng eq_refl) as (enc & _ & _ & Hb).
      rewrite Hb. eexists. reflexivity.
    + apply buildEncryptedCPI_locked; reflexivity.
Qed.

(** C8, as stated, fails: three bytes "BLO" hold no 4-byte window at all,
    yet put before a BLOB chunk they complete the tag "BLOB" one chunk
    early, and the chunk read there has another size and payload. *)
Lemma C8_counterexample :
  noTagFrom Samples.overlap 0 (JS.len Samples.overlap) = true
  /\ option_map (map view)
       (readChunks (encodeChunks Samples.before ++ Samples.overlap
                      ++ encodeChunks Samples.after) 0 None)
     <> option_map (map view)
          (readChunks (encodeChunks Samples.before ++ encodeChunks Samples.after) 0 None).
Proof. split; [reflexivity|]. vm_compute. discriminate. Qed.

(** C8, amended. Resynchronization: bytes put between two runs of written
    chunks are passed over, and the chunks read are the same with and
    without them (tags, sizes and payloads), provided no recognized tag
    starts at any position of the inserted bytes, the windows that run on
    into the following chunk included. *)
Theorem C8_resynchronization (cs1 cs2 : list (Text.jsstring * list Z)) (garbage : list Z) :
  forallb writable cs1 = true -> forallb writable cs2 = true ->
  noTagFrom (encodeChunks cs1 ++ garbage ++ encodeChunks cs2)
    (JS.len (encodeChunks cs1)) (JS.len garbage) = true ->
  option_map (map view)
    (readChunks (encodeChunks cs1 ++ garbage ++ encodeChunks cs2) 0 None)
  = option_map (map view) (readChunks (encodeChunks cs1 ++ encodeChunks cs2) 0 None)
  /\ option_map (map view) (readChunks (encodeChunks cs1 ++ encodeChunks cs2) 0 None)
     = Some (map viewOf (cs1 ++ cs2)).
Proof.
  intros H1 H2 Hg.
  pose proof (readChunks_encoded [] cs1 garbage cs2 H1 H2) as E. cbv zeta in E.
  cbn [app] in E. change (JS.len (@nil Z)) with 0 in E. rewrite E by exact Hg.
  pose proof (readChunks_encoded [] cs1 [] cs2 H1 H2) as E0. cbv zeta in E0.
  cbn [app] in E0. change (JS.len (@nil Z)) with 0 in E0.
  rewrite E0 by apply noTagFrom_0.
  cbn [option_map]. rewrite !map_app, !view_chunksAt. split; reflexivity.
Qed.

Lemma C8_resynchronization_witness :
  forallb writable Samples.before = true /\ forallb writable Samples.after = true
  /\ noTagFrom (encodeChunks Samples.before ++ Samples.filler ++ encodeChunks Samples.after)
       (JS.len (encodeChunks Samples.before)) (JS.len Samples.filler) = true
  /\ option_map (map view)
       (readChunks (encodeChunks Samples.before ++ Samples.filler
                      ++ encodeChunks Samples.after) 0 None)
     = option_map (map view)
         (readChunks (encodeChunks Samples.before ++ encodeChunks Samples.after) 0 None)
  /\ option_map (map view)
       (readChunks (encodeChunks Samples.before ++ encodeChunks Samples.after) 0 None)
     = Some (map viewOf (Samples.before ++ Samples.after)).
Proof.
  split; [reflexivity|]. split; [reflexivity|]. split; [reflexivity|].
  apply (C8_resynchronization Samples.before Samples.after Samples.filler); reflexivity.
Defined.

(** C2, as stated, fails: [parsePPFRaw] starts reading at offset 8, so on
    the bare payload it skips the header of the first chunk and loses the
    identifier of the pack. *)
Lemma C2_counterexample :
  packOk Samples.pack = true
  /\ parsePPFRaw (payloadRaw Samples.pack) = Some Samples.pack_without_uid
  /\ parsePPFRaw (payloadRaw Samples.pack) <> Some Samples.pack.
Proof.
  split; [reflexivity|].
  assert (E : parsePPFRaw (payloadRaw Samples.pack) = Some Samples.pack_without_uid)
    by (vm_compute; reflexivity).
  split; [exact E|]. rewrite E. discriminate.
Qed.

(** C2, amended. Chunk round trip: after the eight bytes [parsePPFRaw]
    skips, the payload [buildEncryptedCPI] writes for a pack is parsed back
    to the pack, field by field, when the strings of the pack are
    well-formed UTF-16 without NUL and without a leading U+FEFF, every icon
    code is absent or non-empty, and every chunk payload is shorter than
    2^32 bytes. *)
Theorem C2_pack_round_trip (packData : Pack.t) (header : list Z) :
  JS.len header = 8 -> packOk packData = true ->
  parsePPFRaw (header ++ payloadRaw packData) = Some packData.
Proof. apply parsePPFRaw_written. Qed.

Lemma C2_pack_round_trip_witness :
  JS.len Samples.header = 8 /\ packOk Samples.pack = true
  /\ parsePPFRaw (Samples.header ++ payloadRaw Samples.pack) = Some Samples.pack.
Proof.
  split; [reflexivity|]. split; [reflexivity|].
  apply (C2_pack_round_trip Samples.pack Samples.header); reflexivity.
Defined.

End Claims.


(** * Further properties of the converter *)

Module Extras.
Import ArrayFacts BytesFacts PaddingFacts BlockFacts CipherFacts ChunkFacts.
Import LockFacts CpiFacts ReadFacts RoundTripFacts PackFacts.
Import CbcMore KeyFacts DeriveFacts ReaderMore KeyBits ParseFacts CpiMore.
Import ChunkAux LockAux CpiAux ReadAux PackAux PadAux CbcAux KeyAux ParseAux.

(** ** The block cipher *)

(** X1. [desBlock] undoes [desDecryptBlock]: encrypting a decrypted 8-byte
    block under the same key schedule gives the block back. With the
    opposite order this makes [desBlock] a bijection on 8-byte blocks. *)
Theorem X1_des_encrypt_inverts_decrypt (block key : list Z) :
  bytesb block = true -> length block = 8%nat ->
  let subKeys := DES.generateSubKeys (DES.msbParity key) in
  DES.desBlock (DES.desDecryptBlock block subKeys) subKeys = block.
Proof.
  intros Hb Hl. cbv zeta.
  exact (desBlock_desDecryptBlock block _ (proj1 (bytesb_iff block) Hb) Hl).
Qed.

Lemma X1_des_encrypt_inverts_decrypt_witness :
  bytesb Samples.kat_cipher = true /\ length Samples.kat_cipher = 8%nat
  /\ DES.desBlock
       (DES.desDecryptBlock Samples.kat_cipher
          (DES.generateSubKeys (DES.msbParity Samples.kat_key)))
       (DES.generateSubKeys (DES.msbParity Samples.kat_key)) = Samples.kat_cipher.
Proof.
  split; [reflexivity|]. split; [reflexivity|].
  apply (X1_des_encrypt_inverts_decrypt Samples.kat_cipher Samples.kat_key); reflexivity.
Defined.

(** X2. [finalPerm] and [initialPerm] are inverse to each other on pairs
    of 32-bit words, in both orders. *)
Theorem X2_permutations_inverse (L R : Z) :
  0 <= L < 2 ^ 32 -> 0 <= R < 2 ^ 32 ->
  (let '(L', R') := DES.initialPerm L R in DES.finalPerm L' R') = (L, R)
  /\ (let '(L', R') := DES.finalPerm L R in DES.initialPerm L' R') = (L, R).
Proof.
  intros HL HR. split.
  - exact (DESFacts.finalPerm_initialPerm L R HL HR).
  - exact (DESFacts.initialPerm_finalPerm L R HL HR).
Qed.

Lemma X2_permutations_inverse_witness :
  (let '(L', R') := DES.initialPerm 0x01234567 0x89ABCDEF in DES.finalPerm L' R')
  = (0x01234567, 0x89ABCDEF)
  /\ (let '(L', R') := DES.finalPerm 0x01234567 0x89ABCDEF in DES.initialPerm L' R')
     = (0x01234567, 0x89ABCDEF).
Proof.
  apply (X2_permutations_inverse 0x01234567 0x89ABCDEF); (split; [lia | reflexivity]).
Defined.

(** X3. [generateSubKeys] returns sixteen subkeys for every key, each a
    pair of 24-bit numbers. *)
Theorem X3_subkeys_shape (keyBytes : list Z) :
  length (DES.generateSubKeys keyBytes) = 16%nat
  /\ Forall (fun K => 0 <= fst K < 2 ^ 24 /\ 0 <= snd K < 2 ^ 24)
       (DES.generateSubKeys keyBytes).
Proof. exact (generateSubKeys_shape keyBytes). Qed.

(** X4. The key schedule never reads the lowest bit of a key byte: two keys
    that agree in every byte shifted right by one have the same subkeys. *)
Theorem X4_subkeys_ignore_low_bits (k k' : list Z) :
  map (fun b => b >>> 1) k = map (fun b => b >>> 1) k' ->
  DES.generateSubKeys k = DES.generateSubKeys k'.
Proof. exact (generateSubKeys_low k k'). Qed.

Lemma X4_subkeys_ignore_low_bits_witness :
  map (fun b => b >>> 1) Samples.kat_key
  = map (fun b => b >>> 1) (map (fun b => Z.lxor b 1) Samples.kat_key)
  /\ DES.generateSubKeys Samples.kat_key
     = DES.generateSubKeys (map (fun b => Z.lxor b 1) Samples.kat_key).
Proof.
  split; [reflexivity|].
  apply (X4_subkeys_ignore_low_bits Samples.kat_key
           (map (fun b => Z.lxor b 1) Samples.kat_key)).
  reflexivity.
Defined.

(** X5. [msbParity] keeps the low seven bits of every key byte and sets the
    top bit so that the byte has an odd number of set bits; applying it
    twice changes nothing. *)
Theorem X5_msbParity_odd_parity (keyBytes : list Z) :
  bytesb keyBytes = true ->
  Forall2 (fun k r => 0 <= r < 256 /\ r mod 128 = k mod 128
                      /\ Z.odd (popcount8 r) = true)
    keyBytes (DES.msbParity keyBytes)
  /\ DES.msbParity (DES.msbParity keyBytes) = DES.msbParity keyBytes.
Proof.
  intros Hb. apply bytesb_iff in Hb. split.
  - exact (msbParity_parity keyBytes Hb).
  - exact (msbParity_idempotent keyBytes Hb).
Qed.

Lemma X5_msbParity_odd_parity_witness :
  Forall2 (fun k r => 0 <= r < 256 /\ r mod 128 = k mod 128
                      /\ Z.odd (popcount8 r) = true)
    DES_KEY (DES.msbParity DES_KEY)
  /\ DES.msbParity (DES.msbParity DES_KEY) = DES.msbParity DES_KEY.
Proof. apply (X5_msbParity_odd_parity DES_KEY). reflexivity. Defined.

(** ** CBC encryption *)

(** X6. [encryptDES_CBC] does not depend on the top bit of any key byte:
    [msbParity] overwrites it. *)
Theorem X6_cbc_ignores_top_key_bit (data keyBytes iv : list Z) :
  bytesb keyBytes = true ->
  encryptDES_CBC data (map (fun k => Z.lxor k 0x80) keyBytes) iv
  = encryptDES_CBC data keyBytes iv.
Proof.
  intros Hb. apply bytesb_iff in Hb. unfold encryptDES_CBC.
  rewrite (msbParity_top_bit keyBytes Hb). reflexivity.
Qed.

Lemma X6_cbc_ignores_top_key_bit_witness :
  encryptDES_CBC Samples.kat_plain (map (fun k => Z.lxor k 0x80) Samples.kat_key) DES_IV
  = encryptDES_CBC Samples.kat_plain Samples.kat_key DES_IV.
Proof.
  apply (X6_cbc_ignores_top_key_bit Samples.kat_plain Samples.kat_key DES_IV).
  reflexivity.
Defined.

(** X7. [encryptDES_CBC] needs whole blocks: with an initial vector of at
    least eight bytes it returns as many bytes as it is given when the
    length is a multiple of 8, and raises a RangeError (the last
    [encrypted.set] does not fit) in every other case. *)
Theorem X7_cbc_whole_blocks (data keyBytes iv : list Z) :
  8 <= JS.len iv ->
  (JS.len data mod 8 = 0 ->
   exists out, encryptDES_CBC data keyBytes iv = inr out /\ JS.len out = JS.len data)
  /\ (JS.len data mod 8 <> 0 -> encryptDES_CBC data keyBytes iv = inl JS.RangeError).
Proof.
  intros Hiv. split.
  - intros Hm. exact (encryptDES_CBC_ok data keyBytes iv Hm Hiv).
  - intros Hm. exact (encryptDES_CBC_partial data keyBytes iv Hm).
Qed.

Lemma X7_cbc_whole_blocks_witness :
  (JS.len Samples.kat_plain mod 8 = 0 ->
   exists out, encryptDES_CBC Samples.kat_plain DES_KEY DES_IV = inr out
               /\ JS.len out = JS.len Samples.kat_plain)
  /\ (JS.len Samples.kat_plain mod 8 <> 0 ->
      encryptDES_CBC Samples.kat_plain DES_KEY DES_IV = inl JS.RangeError).
Proof.
  apply (X7_cbc_whole_blocks Samples.kat_plain DES_KEY DES_IV).
  vm_compute. discriminate.
Defined.

(** X8. CBC chaining: the first cipher block is the first data block xored
    with the initial vector and encrypted, and the rest of the output is
    the encryption of the rest of the data with that cipher block as
    initial vector. *)
Theorem X8_cbc_chaining (block rest keyBytes iv : list Z) :
  bytesb block = true -> bytesb iv = true ->
  length block = 8%nat -> length iv = 8%nat ->
  let c1 := DES.desBlock (map (fun j => Z.lxor (block.[j]) (iv.[j])) (JS.zrange 0 8))
              (DES.generateSubKeys (DES.msbParity keyBytes)) in
  encryptDES_CBC (block ++ rest) keyBytes iv
  = (out <- encryptDES_CBC rest keyBytes c1 ;; inr (c1 ++ out)).
Proof.
  intros Hb Hi Hlb Hli. apply bytesb_iff in Hb. apply bytesb_iff in Hi. cbv zeta.
  pose proof (encryptDES_CBC_chain block rest keyBytes iv Hlb Hli) as H.
  cbv zeta in H. rewrite (chainBlock_xor block 0 iv Hb Hi) in H. exact H.
Qed.

Lemma X8_cbc_chaining_witness :
  encryptDES_CBC (Samples.kat_plain ++ Samples.kat_cipher) Samples.kat_key DES_IV
  = (out <- encryptDES_CBC Samples.kat_cipher Samples.kat_key
              (DES.desBlock
                 (map (fun j => Z.lxor (Samples.kat_plain.[j]) (DES_IV.[j])) (JS.zrange 0 8))
                 (DES.generateSubKeys (DES.msbParity Samples.kat_key))) ;;
     inr (DES.desBlock
            (map (fun j => Z.lxor (Samples.kat_plain.[j]) (DES_IV.[j])) (JS.zrange 0 8))
            (DES.generateSubKeys (DES.msbParity Samples.kat_key)) ++ out)).
Proof.
  apply (X8_cbc_chaining Samples.kat_plain Samples.kat_cipher Samples.kat_key DES_IV);
    reflexivity.
Defined.

(** X9. Triple DES with equal first and second key is single DES: when the
    first sixteen bytes of the 24-byte key repeat one 8-byte key,
    [tripleDesEncryptCBC] is [encryptDES_CBC] under the last eight bytes
    with the zero initial vector. *)
Theorem X9_triple_des_collapses (data k k3 : list Z) :
  length k = 8%nat -> length k3 = 8%nat ->
  tripleDesEncryptCBC data (k ++ k ++ k3) = encryptDES_CBC data k3 DES_IV.
Proof. exact (tripleDes_collapse data k k3). Qed.

Lemma X9_triple_des_collapses_witness :
  tripleDesEncryptCBC Samples.kat_plain (Samples.kat_key ++ Samples.kat_key ++ DES_KEY)
  = encryptDES_CBC Samples.kat_plain DES_KEY DES_IV.
Proof.
  apply (X9_triple_des_collapses Samples.kat_plain Samples.kat_key DES_KEY); reflexivity.
Defined.

(** ** Padding and key derivation *)

(** X10. The padding can be taken off again: the last byte of the padded
    data tells how many bytes were appended, and cutting them off gives
    the data back. So two different inputs never have the same padding. *)
Theorem X10_padding_reversible (data : list Z) :
  (let padded := addYamahaPadding data in
   let last := padded.[JS.len padded - 1] in
   let n := if last =? 0 then 8 else 8 - last in
   firstn (Z.to_nat (JS.len padded - n)) padded = data)
  /\ (forall other, addYamahaPadding data = addYamahaPadding other -> data = other).
Proof.
  split.
  - exact (addYamahaPadding_unpad data).
  - intros other. exact (addYamahaPadding_injective data other).
Qed.

(** X11. An identifier of fewer than 16 bytes is the beginning of its own
    key: the key is the identifier followed by the bytes
    [XOR_SEED[n + j] xor id[j mod n]], [n] the length of the identifier. *)
Theorem X11_short_identifier_key (b : list Z) :
  bytesb b = true -> 0 < JS.len b < 16 ->
  keyDerivation (IdBytes b)
  = Some (b ++ map (fun j => Z.lxor (XOR_SEED.[JS.len b + j]) (b.[j mod JS.len b]))
                   (JS.zrange 0 (16 - JS.len b))).
Proof.
  intros Hb Hn. exact (keyDerivation_short b (proj1 (bytesb_iff b) Hb) Hn).
Qed.

Lemma X11_short_identifier_key_witness :
  keyDerivation (IdBytes Samples.short_id)
  = Some (Samples.short_id
            ++ map (fun j => Z.lxor (XOR_SEED.[JS.len Samples.short_id + j])
                               (Samples.short_id.[j mod JS.len Samples.short_id]))
                   (JS.zrange 0 (16 - JS.len Samples.short_id))).
Proof.
  apply (X11_short_identifier_key Samples.short_id); [reflexivity|].
  vm_compute. split; reflexivity.
Defined.

(** X12. Only the first 128 bytes of an identifier reach the key. *)
Theorem X12_identifier_truncated (b : list Z) :
  128 <= JS.len b ->
  keyDerivation (IdBytes b) = keyDerivation (IdBytes (firstn 128 b)).
Proof. exact (keyDerivation_truncates b). Qed.

Lemma X12_identifier_truncated_witness :
  keyDerivation (IdBytes Samples.long_id)
  = keyDerivation (IdBytes (firstn 128 Samples.long_id)).
Proof.
  apply (X12_identifier_truncated Samples.long_id). vm_compute. discriminate.
Defined.

(** ** Chunks *)

(** X13. [readUint32BE] reads back what [writeUint32BE] wrote at the same
    offset, as an unsigned 32-bit number, and the write keeps the length
    of the buffer. *)
Theorem X13_uint32_round_trip (buf : list Z) (offset value : Z) :
  0 <= offset -> offset + 4 <= JS.len buf ->
  readUint32BE (writeUint32BE buf offset value) offset = JS.ToUint32 value
  /\ length (writeUint32BE buf offset value) = length buf.
Proof.
  intros H0 H4. split.
  - exact (readUint32BE_writeUint32BE buf offset value H0 H4).
  - exact (writeUint32BE_length buf offset value).
Qed.

Lemma X13_uint32_round_trip_witness :
  readUint32BE (writeUint32BE Samples.kat_plain 2 0x12345678) 2 = JS.ToUint32 0x12345678
  /\ length (writeUint32BE Samples.kat_plain 2 0x12345678) = length Samples.kat_plain.
Proof.
  apply (X13_uint32_round_trip Samples.kat_plain 2 0x12345678).
  - lia.
  - vm_compute. discriminate.
Defined.

(** X14. [buildChunk] writes the four tag bytes, the payload length in four
    bytes, most significant first, and the payload, 8 bytes more than the
    payload; its two [set] calls always fit, so it never raises. A
    recognized tag is its own four tag bytes. *)
Theorem X14_buildChunk_layout (id : Text.jsstring) (data : list Z) :
  buildChunk id data = tagBytes id ++ be32 (JS.len data) ++ data
  /\ JS.len (buildChunk id data) = 8 + JS.len data
  /\ (let buf := JS.zeros (8 + JS.len data) in
      JS.set_fits buf (JS.slice (Text.encode id) 0 4) 0 = true
      /\ JS.set_fits buf data 8 = true)
  /\ (KNOWN_TAGS_has id = true -> tagBytes id = id).
Proof.
  split; [exact (buildChunk_eq id data)|].
  split; [exact (buildChunk_len id data)|].
  split; [exact (buildChunk_sets_fit id data)|].
  intros Hk. exact (proj1 (known_tag id Hk)).
Qed.

(** X15. [readChunks] returns chunks in the order of the buffer and
    without overlap: every chunk starts at or after the end of the payload
    of the chunk before it. *)
Theorem X15_chunks_in_order (buf : list Z) (startOffset : Z) (endOffset : option Z) :
  exists chunks,
    readChunks buf startOffset endOffset = Some chunks
    /\ inOrder startOffset chunks.
Proof.
  destruct (readChunks_returns buf startOffset endOffset) as [chunks [Hr _]].
  exists chunks. split; [exact Hr|].
  exact (readChunks_inOrder buf startOffset endOffset chunks Hr).
Qed.

(** X16. [readChunks] returns no chunk exactly when no recognized tag
    starts at a position from the start offset on that leaves room for an
    8-byte header before the end. *)
Theorem X16_no_tag_no_chunk (buf : list Z) (startOffset : Z) (endOffset : option Z) :
  readChunks buf startOffset endOffset = Some []
  <-> (forall p, startOffset <= p -> p + 8 <= endOf buf endOffset ->
                 isKnownTag buf p = false).
Proof. exact (readChunks_nil_iff buf startOffset endOffset). Qed.

(** X17. Reading up to a smaller end loses only chunks that reach beyond
    it: every chunk found up to [e] whose header and declared length end
    at or before [e'] is also found when reading up to [e']. *)
Theorem X17_truncated_read (buf : list Z) (startOffset e e' : Z) :
  e' <= e ->
  exists cs cs',
    readChunks buf startOffset (Some e) = Some cs
    /\ readChunks buf startOffset (Some e') = Some cs'
    /\ forall c, In c cs -> Chunk.offset c + 8 + Chunk.size c <= e' -> In c cs'.
Proof.
  intros Hee.
  destruct (readChunks_returns buf startOffset (Some e)) as [cs [H _]].
  destruct (readChunks_returns buf startOffset (Some e')) as [cs' [H' _]].
  exists cs, cs'. split; [exact H|]. split; [exact H'|].
  exact (readChunks_truncate buf startOffset e e' cs cs' Hee H H').
Qed.

Lemma X17_truncated_read_witness :
  exists cs cs',
    readChunks (encodeChunks (Samples.before ++ Samples.after)) 0 (Some 21) = Some cs
    /\ readChunks (encodeChunks (Samples.before ++ Samples.after)) 0 (Some 12) = Some cs'
    /\ forall c, In c cs -> Chunk.offset c + 8 + Chunk.size c <= 12 -> In c cs'.
Proof.
  apply (X17_truncated_read (encodeChunks (Samples.before ++ Samples.after)) 0 21 12).
  lia.
Defined.

(** X18. [skipToNextTag] stops at the first position from [pos] on where a
    recognized tag starts, and at [end] when there is none before it. *)
Theorem X18_skipToNextTag_first (buf : list Z) (pos end_ : Z) :
  pos <= end_ ->
  let p := skipToNextTag buf pos end_ in
  pos <= p <= end_
  /\ (p < end_ -> isKnownTag buf p = true)
  /\ (forall q, pos <= q < p -> isKnownTag buf q = false).
Proof. exact (skipToNextTag_spec buf pos end_). Qed.

Lemma X18_skipToNextTag_first_witness :
  let buf := Samples.filler ++ encodeChunks Samples.after in
  let p := skipToNextTag buf 0 14 in
  0 <= p <= 14
  /\ (p < 14 -> isKnownTag buf p = true)
  /\ (forall q, 0 <= q < p -> isKnownTag buf q = false).
Proof.
  apply (X18_skipToNextTag_first (Samples.filler ++ encodeChunks Samples.after) 0 14).
  lia.
Defined.

(** ** Parsers *)

(** X19. [parsePPFRaw] returns a pack for every buffer, and the pack has
    exactly one blob entry for every BLOB chunk found at the top level,
    whatever the chunk holds. *)
Theorem X19_parsePPFRaw_returns (buf : list Z) :
  exists chunks pack,
    readChunks buf 8 None = Some chunks
    /\ parsePPFRaw buf = Some pack
    /\ length (Pack.blobs pack) = length (filter isBlob chunks).
Proof. exact (parsePPFRaw_returns buf). Qed.

(** X20. A buffer shorter than 16 bytes, the file header and one chunk
    header, gives the pack without identifier, title and blobs. *)
Theorem X20_parsePPFRaw_short (buf : list Z) :
  JS.len buf < 16 -> parsePPFRaw buf = Some emptyPack.
Proof. exact (parsePPFRaw_short buf). Qed.

Lemma X20_parsePPFRaw_short_witness :
  parsePPFRaw (Samples.header ++ Text.lit "EUID") = Some emptyPack.
Proof.
  apply (X20_parsePPFRaw_short (Samples.header ++ Text.lit "EUID")).
  vm_compute. reflexivity.
Defined.

(** X21. [parseN27] never returns more than the field widths, 64, 24 and
    32 characters, and no field holds a NUL character, whatever the
    buffer. *)
Theorem X21_parseN27_bounds (buf : list Z) :
  let r := parseN27 buf in
  (JS.len (N27.modelName r) <= 64 /\ ~ In 0 (N27.modelName r))
  /\ (JS.len (N27.serial r) <= 24 /\ ~ In 0 (N27.serial r))
  /\ (JS.len (N27.fullId r) <= 32 /\ ~ In 0 (N27.fullId r)).
Proof. exact (parseN27_bounds buf). Qed.

(** X22. [parseN27] reads back an N27 record: three fields of 64, 24 and
    32 bytes, each an ASCII text without NUL followed by zero bytes up to
    the width of the field (none when the text fills the field). *)
Theorem X22_parseN27_fields (model serial fullId rest : list Z) :
  asciiText model = true -> asciiText serial = true -> asciiText fullId = true ->
  JS.len model <= 64 -> JS.len serial <= 24 -> JS.len fullId <= 32 ->
  parseN27 (field model 64 ++ field serial 24 ++ field fullId 32 ++ rest)
  = {| N27.modelName := model; N27.serial := serial; N27.fullId := fullId |}.
Proof. exact (parseN27_fields model serial fullId rest). Qed.

Lemma X22_parseN27_fields_witness :
  parseN27 (field Samples.n27_model 64 ++ field Samples.n27_serial 24
              ++ field Samples.n27_fullId 32 ++ [])
  = {| N27.modelName := Samples.n27_model; N27.serial := Samples.n27_serial;
       N27.fullId := Samples.n27_fullId |}.
Proof.
  apply (X22_parseN27_fields Samples.n27_model Samples.n27_serial Samples.n27_fullId []);
    try reflexivity; vm_compute; discriminate.
Defined.

(** ** The CPI builder with a device identifier *)

(** X23. A device identifier changes the 80 bytes of the CSEC payload and
    nothing else: the locked file and the standard file have the same
    bytes before and after them, and the locked call consumes sixteen
    random bytes. *)
Theorem X23_locked_cpi_differs_in_csec (packData : Pack.t) (modelName : Text.jsstring)
    (packInstallId : Z) (id : DeviceId) (rng : JS.Rng) :
  idEmpty id = false ->
  exists pre post blob,
    JS.len blob = 80
    /\ JS.len CSEC_ENCRYPTED = 80
    /\ generateLockedCSEC id rng = (inr blob, snd (JS.getRandomValues 16 rng))
    /\ buildEncryptedCPI packData modelName packInstallId None rng
       = (inr (pre ++ CSEC_ENCRYPTED ++ post), rng)
    /\ buildEncryptedCPI packData modelName packInstallId (Some id) rng
       = (inr (pre ++ blob ++ post), snd (JS.getRandomValues 16 rng)).
Proof.
  intros Hne.
  assert (Ht : truthyId (Some id) = true).
  { destruct id as [[|c s]|b]; [discriminate | reflexivity | reflexivity]. }
  destruct (buildEncryptedCPI_locked_layout packData modelName packInstallId id rng Ht Hne)
    as (blob & enc & Hg & Hl & He & Hb).
  destruct (buildEncryptedCPI_standard packData modelName packInstallId None rng eq_refl)
    as (enc' & He' & _ & Hs).
  assert (enc' = enc) as -> by congruence.
  exists (headerBytes modelName packInstallId ++ Text.lit "CSEC" ++ [0; 0; 0; 80]), enc, blob.
  split; [exact Hl|]. split; [reflexivity|]. split; [exact Hg|].
  rewrite Hs, Hb. rewrite <- !app_assoc. split; reflexivity.
Qed.

Lemma X23_locked_cpi_differs_in_csec_witness :
  exists pre post blob,
    JS.len blob = 80
    /\ JS.len CSEC_ENCRYPTED = 80
    /\ generateLockedCSEC (IdString (Text.lit "ABC")) Samples.tape
       = (inr blob, snd (JS.getRandomValues 16 Samples.tape))
    /\ buildEncryptedCPI Samples.pack (Text.lit "PSR") 1 None Samples.tape
       = (inr (pre ++ CSEC_ENCRYPTED ++ post), Samples.tape)
    /\ buildEncryptedCPI Samples.pack (Text.lit "PSR") 1
         (Some (IdString (Text.lit "ABC"))) Samples.tape
       = (inr (pre ++ blob ++ post), snd (JS.getRandomValues 16 Samples.tape)).
Proof.
  apply (X23_locked_cpi_differs_in_csec Samples.pack (Text.lit "PSR") 1
           (IdString (Text.lit "ABC")) Samples.tape).
  reflexivity.
Defined.

(** X24. An empty byte array as device identifier makes
    [buildEncryptedCPI] raise 'Empty device key': unlike the empty string
    it is truthy, so the locked branch is taken and the key derivation
    fails; the random source is not touched. *)
Theorem X24_empty_byte_array_raises (packData : Pack.t) (modelName : Text.jsstring)
    (packInstallId : Z) (rng : JS.Rng) :
  buildEncryptedCPI packData modelName packInstallId (Some (IdBytes [])) rng
  = (inl (JS.Error "Empty device key"), rng).
Proof. exact (buildEncryptedCPI_empty_bytes packData modelName packInstallId rng). Qed.

End Extras.

